(** * VideyLib-Desktop: the media ingestion pipeline

    A shallow embedding of the parts of the application that probe video
    files, extract thumbnails, keep the two result caches, talk to the
    catalog database and drive the folder-loading loop:

    - [src/utils/video_utils.py]: [is_video_file], [get_video_metadata],
      [extract_thumbnail], [extract_thumbnail_async], [clear_caches];
    - [src/db/database.py]: the [videos] table, [add_video],
      [get_video_by_path], [get_video_tags];
    - [src/ui/main_window.py]: [_load_videos_async] and the file filter of
      [load_videos_in_folder].

    And of what surrounds them:

    - [src/utils/video_utils.py]: [format_file_size], [format_duration];
    - [src/db/database.py]: [add_tag], [add_video_tag], [remove_video_tag],
      [save_note], [get_note], [update_watched_status];
    - [src/ui/video_grid.py]: the items of the grid and their updates;
    - [src/ui/main_window.py]: the three slots of the loader's signals,
      [mark_video_watched], [show_video_details], [toggle_video_tag];
    - [src/utils/settings.py]: [add_recent_folder];
    - [src/ui/folder_browser.py]: the navigation history.

    Conventions.  A Python [str] is a [string] of characters below 256;
    [int] is [Z]; a finite [float] is the rational it denotes ([Q],
    arithmetic is exact); [None] is [option]'s [None]; a Python exception
    is the [Raise] constructor of [outcome].  [os.path] is [posixpath],
    except where a flavour is passed.  Module-level dictionaries are
    [gmap]s threaded through the functions that read and write them, and
    a call into [video_utils] is one step: it runs to its end before
    another call touches the same dictionary. *)

From Stdlib Require Import ZArith QArith Ascii String List Bool Lia Sorted.
From Stdlib Require Import Decimal DecimalString DecimalZ DecimalPos Permutation.
From Stdlib Require Import Qround Qabs Lqa.
From stdpp Require Import gmap strings list pretty.

Local Open Scope string_scope.
Local Open Scope list_scope.
Local Open Scope Z_scope.

(** ** Python results *)

Inductive outcome (A : Type) : Type :=
| Ok (a : A)
| Raise.
Arguments Ok {A} a.
Arguments Raise {A}.

(** [int(x)] on a finite float: truncation towards zero. *)
Definition py_int (x : Q) : Z := Z.quot (Qnum x) (Z.pos (Qden x)).

Definition Qlt_bool (a b : Q) : bool := negb (Qle_bool b a).

(** ** [os.path] *)

Module OsPath.

(** [p.rfind(c)]: the highest index of [c] in [p], or [-1]. *)
Fixpoint rfind_from (c : ascii) (p : string) (i acc : Z) : Z :=
  match p with
  | EmptyString => acc
  | String a p' => rfind_from c p' (i + 1) (if Ascii.eqb a c then i else acc)
  end.

Definition rfind (p : string) (c : ascii) : Z := rfind_from c p 0 (-1).

(** [p[:n]] and [p[n:]] for [0 <= n]. *)
Fixpoint take (n : nat) (p : string) : string :=
  match n, p with
  | S n', String a p' => String a (take n' p')
  | _, _ => EmptyString
  end.

Fixpoint drop (n : nat) (p : string) : string :=
  match n, p with
  | S n', String _ p' => drop n' p'
  | _, _ => p
  end.

(** The loop of [genericpath._splitext] that skips leading dots:
    [while filenameIndex < dotIndex], with [n] the number of iterations
    left; [true] when it reaches a character that is not [extsep] (the
    loop's [return p[:dotIndex], p[dotIndex:]]). *)
Fixpoint skip_leading_dots (p : string) (extsep : ascii)
         (filenameIndex : Z) (n : nat) : bool :=
  match n with
  | O => false
  | S n' =>
      match String.get (Z.to_nat filenameIndex) p with
      | Some a =>
          if Ascii.eqb a extsep
          then skip_leading_dots p extsep (filenameIndex + 1) n'
          else true
      | None => true
      end
  end.

(** [genericpath._splitext(p, sep, altsep, extsep)]. *)
Definition _splitext (p : string) (sep : ascii) (altsep : option ascii)
           (extsep : ascii) : string * string :=
  let sepIndex := rfind p sep in
  let sepIndex :=
    match altsep with
    | Some a => Z.max sepIndex (rfind p a)
    | None => sepIndex
    end in
  let dotIndex := rfind p extsep in
  if (sepIndex <? dotIndex)
     && skip_leading_dots p extsep (sepIndex + 1)
                          (Z.to_nat (dotIndex - (sepIndex + 1)))
  then (take (Z.to_nat dotIndex) p, drop (Z.to_nat dotIndex) p)
  else (p, EmptyString).

(** The two implementations of [os.path]: [posixpath] and [ntpath]. *)
Inductive flavour : Type := Posix | Nt.

Definition splitext (fl : flavour) (p : string) : string * string :=
  match fl with
  | Posix => _splitext p "/" None "."
  | Nt => _splitext p "\" (Some "/"%char) "."
  end.

Definition startswith (p : string) (c : ascii) : bool :=
  match p with
  | String a _ => Ascii.eqb a c
  | EmptyString => false
  end.

Fixpoint endswith (p : string) (c : ascii) : bool :=
  match p with
  | EmptyString => false
  | String a EmptyString => Ascii.eqb a c
  | String _ p' => endswith p' c
  end.

(** [posixpath.join(a, b)]. *)
Definition join (a b : string) : string :=
  if startswith b "/" then b
  else if (String.eqb a EmptyString) || endswith a "/" then a +:+ b
  else a +:+ "/" +:+ b.

End OsPath.

(** [str.lower()] on one character below 256: the letters [A]..[Z] move
    to [a]..[z], and the capital letters of Latin-1 (192..214 and
    216..222) to their small forms. *)
Definition lower_char (c : ascii) : ascii :=
  let n := N_of_ascii c in
  if ((65 <=? n) && (n <=? 90) || (192 <=? n) && (n <=? 214)
      || (216 <=? n) && (n <=? 222))%N
  then ascii_of_N (n + 32) else c.

Fixpoint lower (s : string) : string :=
  match s with
  | EmptyString => EmptyString
  | String c s' => String (lower_char c) (lower s')
  end.

(** The exception monad of a [try] body. *)
Definition outcome_bind {A B : Type} (m : outcome A) (k : A -> outcome B) : outcome B :=
  match m with
  | Ok a => k a
  | Raise => Raise
  end.

#[global] Instance outcome_ret : MRet outcome := fun _ a => Ok a.
#[global] Instance outcome_mbind : MBind outcome := fun _ _ k m => outcome_bind m k.

(** [a / b] on numbers: [ZeroDivisionError] when [b] is zero. *)
Definition py_truediv (a b : Q) : outcome Q :=
  if Qeq_bool b 0 then Raise else Ok (a / b)%Q.

(** ** The world outside the program: filesystem, OpenCV, Qt *)

(** What [os.stat] reports for a file. *)
Record FileStat : Type := {
  st_size : Z;
  st_mtime : Z;
  st_ctime : Z
}.

(** The string [time.ctime(t)], kept as the timestamp it renders. *)
Inductive timestr : Type := ctime (t : Z).

(** A decoded BGR/RGB frame: [frame.shape = (height, width, 3)]. *)
Record Frame : Type := {
  frame_height : Z;
  frame_width : Z
}.

(** The two seeks of [extract_thumbnail]:
    [cap.set(CAP_PROP_POS_MSEC, ms)] and [cap.set(CAP_PROP_POS_FRAMES, n)]. *)
Inductive Seek : Type :=
| CAP_PROP_POS_MSEC (ms : Q)
| CAP_PROP_POS_FRAMES (frame : Z).

Inductive ApiPreference : Type := CAP_ANY | CAP_FFMPEG.

(** A [cv2.VideoCapture] object as the program observes it: the four
    properties it reads with [cap.get], and what [cap.read()] returns after
    a seek ([(ret, frame)], or an exception). *)
Record VideoCapture : Type := {
  isOpened : bool;
  CAP_PROP_FRAME_WIDTH : Q;
  CAP_PROP_FRAME_HEIGHT : Q;
  CAP_PROP_FPS : Q;
  CAP_PROP_FRAME_COUNT : Q;
  cap_read : Seek -> outcome (bool * option Frame)
}.

(** The filesystem and the media files at the time of one call. *)
Record World : Type := {
  files : gmap string FileStat;
  cv2_VideoCapture : string -> ApiPreference -> outcome VideoCapture
}.

Definition os_path_exists (w : World) (p : string) : bool :=
  bool_decide (is_Some (files w !! p)).

Definition os_stat {A : Type} (field : FileStat -> A) (w : World) (p : string) : outcome A :=
  match files w !! p with
  | Some st => Ok (field st)
  | None => Raise
  end.

Definition os_path_getsize : World -> string -> outcome Z := os_stat st_size.
Definition os_path_getmtime : World -> string -> outcome Z := os_stat st_mtime.
Definition os_path_getctime : World -> string -> outcome Z := os_stat st_ctime.

(** [cv2.resize(frame, (w, h))]: an error unless the source is non-empty and
    the destination size is positive. *)
Definition cv2_resize (frame : Frame) (new_width new_height : Z) : outcome Frame :=
  if (0 <? frame_width frame) && (0 <? frame_height frame)
     && (0 <? new_width) && (0 <? new_height)
  then Ok {| frame_height := new_height; frame_width := new_width |}
  else Raise.

Record QSize : Type := {
  width : Z;
  height : Z
}.

Inductive QColor : Type := darkGray.

(** A [QPixmap], by the way it was made. *)
Inductive QPixmap : Type :=
| NullPixmap
| Blank (w h : Z)
| Filled (w h : Z) (c : QColor)
| FromImage (frame : Frame)
| Scaled (src : QPixmap) (to : QSize).

(** [QPixmap(size)]: a null pixmap unless both dimensions are positive. *)
Definition QPixmap_new (size : QSize) : QPixmap :=
  if (0 <? width size) && (0 <? height size)
  then Blank (width size) (height size)
  else NullPixmap.

(** [QSize::scaled(s, Qt::KeepAspectRatio)]. *)
Definition QSize_scaled (this s : QSize) : QSize :=
  if (width this =? 0) || (height this =? 0) then s
  else
    let rw := Z.quot (height s * width this) (height this) in
    if rw <=? width s
    then {| width := rw; height := height s |}
    else {| width := width s;
            height := Z.quot (width s * height this) (width this) |}.

(** [pixmap.size()]. *)
Fixpoint pixmap_size (pm : QPixmap) : QSize :=
  match pm with
  | NullPixmap => {| width := 0; height := 0 |}
  | Blank w h | Filled w h _ => {| width := w; height := h |}
  | FromImage frame => {| width := frame_width frame; height := frame_height frame |}
  | Scaled src to =>
      let from := pixmap_size src in
      if (width from <? 1) || (height from <? 1)
         || (width to <? 1) || (height to <? 1)
      then {| width := 0; height := 0 |}
      else
        let s := QSize_scaled from to in
        {| width := Z.max (width s) 1; height := Z.max (height s) 1 |}
  end.

(** [pixmap.fill(c)]: nothing to fill in a null pixmap. *)
Definition fill (pm : QPixmap) (c : QColor) : QPixmap :=
  match pm with
  | NullPixmap => NullPixmap
  | _ => Filled (width (pixmap_size pm)) (height (pixmap_size pm)) c
  end.

#[global] Instance Q_eq_dec : EqDecision Q.
Proof. solve_decision. Defined.

#[global] Instance Q_countable : Countable Q :=
  inj_countable' (fun q => (Qnum q, Qden q)) (fun p => Qmake (fst p) (snd p))
                 (fun q => match q with Qmake _ _ => eq_refl end).

(** ** [src/utils/video_utils.py] *)

Module VideoUtils.

Definition _CACHE_SIZE_LIMIT : nat := 100.

Definition SUPPORTED_VIDEO_EXTENSIONS : list string :=
  [".mp4"; ".mkv"; ".avi"; ".mov"; ".wmv"; ".flv"; ".webm"; ".m4v";
   ".mpeg"; ".mpg"; ".3gp"; ".3g2"].

(** [x in xs] on a list of strings. *)
Definition py_in (x : string) (xs : list string) : bool :=
  existsb (String.eqb x) xs.

Definition is_video_file (fl : OsPath.flavour) (file_path : string) : bool :=
  let ext := snd (OsPath.splitext fl file_path) in
  py_in (lower ext) SUPPORTED_VIDEO_EXTENSIONS.

(** The dictionary [get_video_metadata] returns. *)
Record Metadata : Type := {
  md_width : Z;
  md_height : Z;
  md_fps : Q;
  md_duration : Q;
  md_size : Z;
  md_date_modified : timestr;
  md_date_created : timestr
}.

(** The module state behind [get_video_metadata]: the dictionary
    [_metadata_cache] and the entries of the [functools.lru_cache]
    wrapper, most recently used first. *)
Record MetaState : Type := {
  _metadata_cache : gmap string Metadata;
  lru_entries : list (string * option Metadata)
}.

(** [if len(cache) >= _CACHE_SIZE_LIMIT: cache.clear()] and then
    [cache[key] = value] (lines 75-78 and 166-169). *)
Definition store_limited {K V : Type} `{Countable K}
           (key : K) (value : V) (cache : gmap K V) : gmap K V :=
  let cache := if (_CACHE_SIZE_LIMIT <=? size cache)%nat then ∅ else cache in
  <[key := value]> cache.

(** The [try] body of [get_video_metadata] (lines 35-80): the value
    returned and the cache afterwards, or the exception. *)
Definition get_video_metadata_try (w : World) (file_path : string)
           (cache : gmap string Metadata)
  : outcome (option Metadata * gmap string Metadata) :=
  cap ← cv2_VideoCapture w file_path CAP_ANY;
  cap ← (if isOpened cap then Ok cap
         else cv2_VideoCapture w file_path CAP_FFMPEG);
  if negb (isOpened cap) then Ok (None, cache)
  else
    let width := py_int (CAP_PROP_FRAME_WIDTH cap) in
    let height := py_int (CAP_PROP_FRAME_HEIGHT cap) in
    let fps := CAP_PROP_FPS cap in
    let frame_count := py_int (CAP_PROP_FRAME_COUNT cap) in
    let duration := if Qlt_bool 0 fps then (inject_Z frame_count / fps)%Q else 0%Q in
    '(width, height, duration) ←
      (if (width <=? 0) || (height <=? 0) || Qle_bool duration 0 then
         file_size ← os_path_getsize w file_path;
         if 0 <? file_size then
           Ok (if 0 <? width then width else 1280,
               if 0 <? height then height else 720,
               if Qlt_bool 0 duration then duration else 60%Q)
         else Ok (width, height, duration)
       else Ok (width, height, duration));
    file_size ← os_path_getsize w file_path;
    mtime ← os_path_getmtime w file_path;
    ctime_ ← os_path_getctime w file_path;
    let result :=
      {| md_width := width; md_height := height; md_fps := fps;
         md_duration := duration; md_size := file_size;
         md_date_modified := ctime mtime;
         md_date_created := ctime ctime_ |} in
    Ok (Some result, store_limited file_path result cache).

(** The [except Exception] handler of [get_video_metadata] (lines 82-94). *)
Definition get_video_metadata_except (w : World) (file_path : string)
  : outcome (option Metadata) :=
  file_size ← (if os_path_exists w file_path
               then os_path_getsize w file_path else Ok 0);
  mtime ← os_path_getmtime w file_path;
  ctime_ ← os_path_getctime w file_path;
  Ok (Some {| md_width := 1280; md_height := 720; md_fps := 30%Q;
              md_duration := 60%Q; md_size := file_size;
              md_date_modified := ctime mtime;
              md_date_created := ctime ctime_ |}).

(** The undecorated function: lines 27-94. *)
Definition get_video_metadata_body (w : World) (file_path : string)
           (cache : gmap string Metadata)
  : outcome (option Metadata) * gmap string Metadata :=
  if negb (os_path_exists w file_path) then (Ok None, cache)
  else
    match cache !! file_path with
    | Some result => (Ok (Some result), cache)
    | None =>
        match get_video_metadata_try w file_path cache with
        | Ok (result, cache') => (Ok result, cache')
        | Raise => (get_video_metadata_except w file_path, cache)
        end
    end.

(** [functools.lru_cache(maxsize)]: a hit returns the remembered result
    and makes the entry the most recent one; a miss calls the function
    and remembers what it returns (an exception is not remembered),
    dropping the least recently used entry when full. *)
Fixpoint lru_lookup {V : Type} (key : string) (entries : list (string * V)) : option V :=
  match entries with
  | [] => None
  | (k, v) :: rest => if String.eqb k key then Some v else lru_lookup key rest
  end.

Definition lru_remove {V : Type} (key : string) (entries : list (string * V))
  : list (string * V) :=
  List.filter (fun e => negb (String.eqb (fst e) key)) entries.

Definition lru_touch {V : Type} (maxsize : nat) (key : string) (v : V)
           (entries : list (string * V)) : list (string * V) :=
  firstn maxsize ((key, v) :: lru_remove key entries).

(** [get_video_metadata] as callers see it: line 26 on top of the body. *)
Definition get_video_metadata (w : World) (file_path : string) (st : MetaState)
  : outcome (option Metadata) * MetaState :=
  match lru_lookup file_path (lru_entries st) with
  | Some result =>
      (Ok result,
       {| _metadata_cache := _metadata_cache st;
          lru_entries := lru_touch 100 file_path result (lru_entries st) |})
  | None =>
      match get_video_metadata_body w file_path (_metadata_cache st) with
      | (Ok result, cache') =>
          (Ok result,
           {| _metadata_cache := cache';
              lru_entries := lru_touch 100 file_path result (lru_entries st) |})
      | (Raise, cache') =>
          (Raise, {| _metadata_cache := cache'; lru_entries := lru_entries st |})
      end
  end.

(** The key [f"{file_path}_{position}_{size.width()}x{size.height()}"]
    of the thumbnail cache, kept as its four components; the float is
    printed from its value, hence [Qred]. *)
Definition ThumbKey : Type := string * Q * Z * Z.

Definition cache_key (file_path : string) (position : Q) (size : QSize) : ThumbKey :=
  (file_path, Qred position, width size, height size).

(** [pixmap = QPixmap(size); pixmap.fill(Qt.darkGray)]. *)
Definition placeholder (size : QSize) : QPixmap :=
  fill (QPixmap_new size) darkGray.

(** Lines 129-131: the frame [extract_thumbnail] seeks to when the frame
    count is known. *)
Definition target_frame (total_frames : Z) (position : Q) : Z :=
  let target_frame := py_int (inject_Z total_frames * position) in
  if target_frame <=? 0 then 1 else target_frame.

(** Lines 114-132: where the capture is positioned before the read. *)
Definition seek_target (w : World) (cap : VideoCapture) (file_path : string)
           (position : Q) : outcome Seek :=
  let total_frames := py_int (CAP_PROP_FRAME_COUNT cap) in
  if total_frames <=? 0 then
    let fps := CAP_PROP_FPS cap in
    let fps := if Qle_bool fps 0 then 25%Q else fps in
    file_size ← os_path_getsize w file_path;
    let seek_pos := if 10000000 <? file_size then 5%Q else 1%Q in
    Ok (CAP_PROP_POS_MSEC (seek_pos * 1000)%Q)
  else
    Ok (CAP_PROP_POS_FRAMES (target_frame total_frames position)).

(** Lines 143-164: from the frame read to the pixmap ([cv2.cvtColor]
    reorders the channels and keeps the shape). *)
Definition render (frame : Frame) (size : QSize) : outcome QPixmap :=
  let height_ := frame_height frame in
  let width_ := frame_width frame in
  aspect_ratio ← py_truediv (inject_Z width_) (inject_Z height_);
  '(new_width, new_height) ←
    (if height_ <? width_ then
       let new_width := width size in
       h ← py_truediv (inject_Z new_width) aspect_ratio;
       Ok (new_width, py_int h)
     else
       let new_height := height size in
       Ok (py_int (inject_Z new_height * aspect_ratio), new_height));
  frame ← cv2_resize frame new_width new_height;
  let pixmap := FromImage frame in
  Ok (if negb (width (pixmap_size pixmap) =? width size)
         || negb (height (pixmap_size pixmap) =? height size)
      then Scaled pixmap size
      else pixmap).

(** The [try] body of [extract_thumbnail] (lines 106-171). *)
Definition extract_thumbnail_try (w : World) (file_path : string) (position : Q)
           (size : QSize) (cache : gmap ThumbKey QPixmap)
  : outcome (QPixmap * gmap ThumbKey QPixmap) :=
  cap ← cv2_VideoCapture w file_path CAP_FFMPEG;
  if negb (isOpened cap) then Ok (placeholder size, cache)
  else
    seek ← seek_target w cap file_path position;
    r ← cap_read cap seek;
    match r with
    | (true, Some frame) =>
        pixmap ← render frame size;
        Ok (pixmap, store_limited (cache_key file_path position size) pixmap cache)
    | _ => Ok (placeholder size, cache)
    end.

(** [extract_thumbnail] (lines 96-177). *)
Definition extract_thumbnail (w : World) (file_path : string) (position : Q)
           (size : QSize) (cache : gmap ThumbKey QPixmap)
  : outcome (option QPixmap) * gmap ThumbKey QPixmap :=
  if negb (os_path_exists w file_path) then (Ok None, cache)
  else
    match cache !! cache_key file_path position size with
    | Some pixmap => (Ok (Some pixmap), cache)
    | None =>
        match extract_thumbnail_try w file_path position size cache with
        | Ok (pixmap, cache') => (Ok (Some pixmap), cache')
        | Raise => (Ok (Some (placeholder size)), cache)
        end
    end.

(** The defaults of [extract_thumbnail] and [extract_thumbnail_async]:
    [position=0.1], [size=QSize(320, 180)]. *)
Definition default_position : Q := (1 # 10)%Q.
Definition default_size : QSize := {| width := 320; height := 180 |}.

(** [clear_caches]: both dictionaries are emptied; the [lru_cache]
    wrapper of [get_video_metadata] is not touched. *)
Definition clear_caches (st : MetaState) (thumbs : gmap ThumbKey QPixmap)
  : MetaState * gmap ThumbKey QPixmap :=
  ({| _metadata_cache := ∅; lru_entries := lru_entries st |}, ∅).

End VideoUtils.

(** ** [src/db/database.py] *)

Module Database.

(** A row of the [videos] table (lines 19-33). *)
Record Video : Type := {
  id : Z;
  file_path : string;
  file_name : string;
  folder_path : string;
  size : Z;
  duration : Q;
  watched : Z;
  last_watched : option string;
  last_position : Z;
  date_added : timestr;
  date_modified : timestr
}.

(** The tables the loader reads and writes; the [sqlite3] calls are
    taken to succeed. [videos] is in rowid order; [videos_seq] is the
    [sqlite_sequence] counter that [AUTOINCREMENT] keeps for [videos];
    [tags] holds [(id, name)] and [video_tags] holds [(video_id,
    tag_id)]. *)
Record Db : Type := {
  videos : list Video;
  videos_seq : Z;
  tags : list (Z * string);
  video_tags : list (Z * Z)
}.

(** The state [_init_db] leaves on a new database file. *)
Definition empty : Db :=
  {| videos := []; videos_seq := 0; tags := []; video_tags := [] |}.

Definition largest_rowid (rows : list Video) : Z :=
  fold_right Z.max 0 (map id rows).

Definition has_path (p : string) (v : Video) : bool := String.eqb (file_path v) p.

(** [add_video] (lines 74-89).  [INSERT OR REPLACE] on a table whose
    [id] is [INTEGER PRIMARY KEY AUTOINCREMENT] and whose [file_path] is
    [UNIQUE]: the new rowid is one more than the largest rowid the table
    ever had, the row that holds the same [file_path] is deleted, and the
    new row takes the column defaults for the columns the statement does
    not list.  Returns [cursor.lastrowid]. *)
Definition add_video (db : Db) (file_path_ file_name_ folder_path_ : string)
           (size_ : Z) (duration_ : Q) (date_added_ date_modified_ : timestr)
  : Z * Db :=
  let video_id := Z.max (videos_seq db) (largest_rowid (videos db)) + 1 in
  let row :=
    {| id := video_id; file_path := file_path_; file_name := file_name_;
       folder_path := folder_path_; size := size_; duration := duration_;
       watched := 0; last_watched := None; last_position := 0;
       date_added := date_added_; date_modified := date_modified_ |} in
  (video_id,
   {| videos := List.filter (fun v => negb (has_path file_path_ v)) (videos db) ++ [row];
      videos_seq := video_id;
      tags := tags db;
      video_tags := video_tags db |}).

(** [get_video_by_path] (lines 91-101): [fetchone] of the rows with this
    path. *)
Definition get_video_by_path (db : Db) (file_path_ : string) : option Video :=
  List.find (has_path file_path_) (videos db).

(** [update_watched_status] (lines 103-114). *)
Definition update_watched_status (db : Db) (video_id : Z) (watched_ : bool)
           (last_position_ : Z) (last_watched_ : option string) : Db :=
  {| videos :=
       map (fun v =>
              if id v =? video_id
              then {| id := id v; file_path := file_path v;
                      file_name := file_name v; folder_path := folder_path v;
                      size := size v; duration := duration v;
                      watched := if watched_ then 1 else 0;
                      last_watched := last_watched_;
                      last_position := last_position_;
                      date_added := date_added v;
                      date_modified := date_modified v |}
              else v)
           (videos db);
     videos_seq := videos_seq db;
     tags := tags db;
     video_tags := video_tags db |}.

(** [get_video_tags] (lines 149-164): the join of [tags] and
    [video_tags] for one video, as [(id, name)] pairs; a tag comes once,
    [(video_id, tag_id)] being the primary key of [video_tags]. *)
Definition get_video_tags (db : Db) (video_id : Z) : list (Z * string) :=
  List.filter
    (fun t => existsb (fun vt => (fst vt =? video_id) && (snd vt =? fst t))
                      (video_tags db))
    (tags db).

End Database.

(** ** [src/ui/main_window.py]: the loader *)

Module MainWindow.
Import VideoUtils.

(** The three signals of [MainWindow] (lines 34-36), by what they carry.
    Emitting a signal is taken to succeed. *)
Inductive Event : Type :=
| video_loaded (file_path file_name : string) (thumbnail : option QPixmap)
               (size : Z) (duration : Q) (watched : bool) (tags : list string)
| thumbnail_loaded (file_path : string) (pixmap : option QPixmap)
| load_progress (current total : Z).

(** What the loading thread does that other threads can see: it emits a
    signal, or hands a file to [extract_thumbnail_async], which submits
    the extraction to the thread pool. *)
Inductive Action : Type :=
| Emit (e : Event)
| Submit (file_path : string).

(** What the loading thread reads and writes: the catalog and the state
    behind [get_video_metadata]. *)
Record LoaderState : Type := {
  db : Database.Db;
  meta : MetaState
}.

(** The body of the [for] loop of [_load_videos_async] up to the progress
    signal (lines 317-373). *)
Definition load_one (w : World) (folder_path file_name : string) (st : LoaderState)
  : outcome (list Action) * LoaderState :=
  let file_path := OsPath.join folder_path file_name in
  match Database.get_video_by_path (db st) file_path with
  | None =>
      match get_video_metadata w file_path (meta st) with
      | (Raise, meta') => (Raise, {| db := db st; meta := meta' |})
      | (Ok None, meta') => (Ok [], {| db := db st; meta := meta' |})
      | (Ok (Some metadata), meta') =>
          let '(video_id, db') :=
            Database.add_video (db st) file_path file_name folder_path
                               (md_size metadata) (md_duration metadata)
                               (md_date_created metadata)
                               (md_date_modified metadata) in
          (Ok [Emit (video_loaded file_path file_name None
                                  (md_size metadata) (md_duration metadata)
                                  false []);
               Submit file_path],
           {| db := db'; meta := meta' |})
      end
  | Some video_data =>
      let tags :=
        map snd (Database.get_video_tags (db st) (Database.id video_data)) in
      (Ok [Emit (video_loaded file_path file_name None
                              (Database.size video_data)
                              (Database.duration video_data)
                              (negb (Database.watched video_data =? 0))
                              tags);
           Submit file_path],
       st)
  end.

(** How the [for] loop ended. *)
Inductive LoopExit : Type :=
| Exhausted
| Break
| Raised.

(** The [for] loop (lines 312-376).  [canceled k] is what the [k]-th read
    of [self._loading_canceled] by this thread returns; [i] is the index
    of the next file, which is also the number of reads so far.  Returns
    what the thread did, the state, how the loop ended and the number of
    reads of the flag. *)
Fixpoint for_loop (w : World) (folder_path : string) (canceled : nat -> bool)
         (total_files : Z) (i : nat) (video_files : list string)
         (st : LoaderState) : list Action * LoaderState * LoopExit * nat :=
  match video_files with
  | [] => ([], st, Exhausted, i)
  | file_name :: rest =>
      if canceled i then ([], st, Break, S i)
      else
        match load_one w folder_path file_name st with
        | (Raise, st') => ([], st', Raised, S i)
        | (Ok acts, st') =>
            let '(more, st'', ex, reads) :=
              for_loop w folder_path canceled total_files (S i) rest st' in
            (acts ++ Emit (load_progress (Z.of_nat i + 1) total_files) :: more,
             st'', ex, reads)
        end
  end.

(** [_load_videos_async] (lines 304-385). *)
Definition _load_videos_async (w : World) (folder_path : string)
           (video_files : list string) (canceled : nat -> bool)
           (st : LoaderState) : list Action * LoaderState :=
  let total_files := Z.of_nat (length video_files) in
  let '(acts, st', ex, reads) :=
    for_loop w folder_path canceled total_files 0 video_files st in
  let last :=
    match ex with
    | Raised => []
    | Exhausted | Break =>
        if canceled reads then []
        else [Emit (load_progress total_files total_files)]
    end in
  (Emit (load_progress 0 total_files) :: acts ++ last, st').

(** The filter of [load_videos_in_folder] (line 427). *)
Definition video_files_of (folder_path : string)
           (files : list string) : list string :=
  List.filter (fun f => is_video_file OsPath.Posix (OsPath.join folder_path f)) files.

(** *** The loading thread and the thumbnail pool running together *)

(** [main_thread]: what the loading thread still has to do;
    [thread_pool]: the extractions submitted and not finished;
    [_thumbnail_cache]: the dictionary the extractions share;
    [signals]: the signals emitted so far, oldest first. *)
Record System : Type := {
  main_thread : list Action;
  thread_pool : list string;
  _thumbnail_cache : gmap ThumbKey QPixmap;
  signals : list Event
}.

(** [_extract_and_callback] (lines 180-185) with the callback of
    [_load_videos_async]: the signal it emits, if any, and the cache. *)
Definition _extract_and_callback (w : World) (file_path : string)
           (cache : gmap ThumbKey QPixmap)
  : list Event * gmap ThumbKey QPixmap :=
  match extract_thumbnail w file_path default_position default_size cache with
  | (Ok thumbnail, cache') => ([thumbnail_loaded file_path thumbnail], cache')
  | (Raise, cache') => ([], cache')
  end.

(** One step of the program: the loading thread performs its next
    action, or a pool worker finishes one of the submitted extractions
    (any of them, in the world as it is at that moment). *)
Inductive step : System -> System -> Prop :=
| step_emit e rest pool cache sigs :
    step {| main_thread := Emit e :: rest; thread_pool := pool;
            _thumbnail_cache := cache; signals := sigs |}
         {| main_thread := rest; thread_pool := pool;
            _thumbnail_cache := cache; signals := sigs ++ [e] |}
| step_submit p rest pool cache sigs :
    step {| main_thread := Submit p :: rest; thread_pool := pool;
            _thumbnail_cache := cache; signals := sigs |}
         {| main_thread := rest; thread_pool := pool ++ [p];
            _thumbnail_cache := cache; signals := sigs |}
| step_worker w main before p after cache sigs :
    step {| main_thread := main; thread_pool := before ++ p :: after;
            _thumbnail_cache := cache; signals := sigs |}
         {| main_thread := main; thread_pool := before ++ after;
            _thumbnail_cache := snd (_extract_and_callback w p cache);
            signals := sigs ++ fst (_extract_and_callback w p cache) |}.

Inductive steps : System -> System -> Prop :=
| steps_refl s : steps s s
| steps_more s1 s2 s3 : steps s1 s2 -> step s2 s3 -> steps s1 s3.

(** The system when the loading thread is started. *)
Definition start (program : list Action) (cache : gmap ThumbKey QPixmap) : System :=
  {| main_thread := program; thread_pool := [];
     _thumbnail_cache := cache; signals := [] |}.

(** The signals a list of actions emits, and the progress counters among
    a list of signals. *)
Definition emitted (acts : list Action) : list Event :=
  flat_map (fun a => match a with Emit e => [e] | Submit _ => [] end) acts.

Definition progress_of (sigs : list Event) : list (Z * Z) :=
  flat_map (fun e => match e with
                     | load_progress current total => [(current, total)]
                     | _ => []
                     end) sigs.

End MainWindow.

(** * Properties *)

(** ** Vocabulary of the statements *)

(** The capital form of a small letter (of ASCII or Latin-1), and "[x] is
    [e] written in some letter case" for an [e] without capitals: position
    by position, the same character or its capital form. *)
Definition upper_char (c : ascii) : ascii :=
  let n := N_of_ascii c in
  if ((97 <=? n) && (n <=? 122) || (224 <=? n) && (n <=? 246)
      || (248 <=? n) && (n <=? 254))%N
  then ascii_of_N (n - 32) else c.

Definition is_upper (c : ascii) : bool :=
  let n := N_of_ascii c in
  ((65 <=? n) && (n <=? 90) || (192 <=? n) && (n <=? 214)
   || (216 <=? n) && (n <=? 222))%N.

Fixpoint no_upper (s : string) : bool :=
  match s with
  | EmptyString => true
  | String c s' => negb (is_upper c) && no_upper s'
  end.

Fixpoint same_up_to_case (x e : string) : Prop :=
  match x, e with
  | EmptyString, EmptyString => True
  | String a x', String b e' => (a = b \/ a = upper_char b) /\ same_up_to_case x' e'
  | _, _ => False
  end.

Definition all_ascii : list ascii := map ascii_of_nat (seq 0 256).

Definition lower_char_test (a b : ascii) : bool :=
  implb (negb (is_upper b))
        (Bool.eqb (Ascii.eqb (lower_char a) b)
                  (Ascii.eqb a b || Ascii.eqb a (upper_char b))).


(** The container of [file_path] cannot be opened: neither backend gives
    an opened capture. *)
Definition cannot_open (w : World) (file_path : string) : Prop :=
  exists cap1 cap2,
    cv2_VideoCapture w file_path CAP_ANY = Ok cap1 /\ isOpened cap1 = false /\
    cv2_VideoCapture w file_path CAP_FFMPEG = Ok cap2 /\ isOpened cap2 = false.

(** Opening the container of [file_path] raises an exception, at the first
    attempt or at the second. *)
Definition open_raises (w : World) (file_path : string) : Prop :=
  cv2_VideoCapture w file_path CAP_ANY = Raise \/
  exists cap1,
    cv2_VideoCapture w file_path CAP_ANY = Ok cap1 /\ isOpened cap1 = false /\
    cv2_VideoCapture w file_path CAP_FFMPEG = Raise.

(** The record [get_video_metadata] falls back to. *)
Definition fallback_metadata (st : FileStat) : VideoUtils.Metadata :=
  {| VideoUtils.md_width := 1280; VideoUtils.md_height := 720;
     VideoUtils.md_fps := 30%Q; VideoUtils.md_duration := 60%Q;
     VideoUtils.md_size := st_size st;
     VideoUtils.md_date_modified := ctime (st_mtime st);
     VideoUtils.md_date_created := ctime (st_ctime st) |}.

(** Thumbnail extraction fails: the FFmpeg capture cannot be constructed or
    is not opened, or the read after the seek raises, reports failure or
    gives no frame. *)
Definition extraction_fails (w : World) (file_path : string) (position : Q) : Prop :=
  cv2_VideoCapture w file_path CAP_FFMPEG = Raise \/
  exists cap,
    cv2_VideoCapture w file_path CAP_FFMPEG = Ok cap /\
    (isOpened cap = false \/
     exists seek,
       VideoUtils.seek_target w cap file_path position = Ok seek /\
       (cap_read cap seek = Raise \/
        (exists frame, cap_read cap seek = Ok (false, frame)) \/
        (exists ret, cap_read cap seek = Ok (ret, None)))).

(** ** Worlds and states used in the examples *)

Module Examples.
Import VideoUtils.

Definition a_stat : FileStat :=
  {| st_size := 5000; st_mtime := 1700000000; st_ctime := 1690000000 |}.

Definition a_frame : Frame := {| frame_height := 1080; frame_width := 1920 |}.

(** A capture that could not open its file. *)
Definition closed_cap : VideoCapture :=
  {| isOpened := false;
     CAP_PROP_FRAME_WIDTH := 0; CAP_PROP_FRAME_HEIGHT := 0;
     CAP_PROP_FPS := 0; CAP_PROP_FRAME_COUNT := 0;
     cap_read := fun _ => Ok (false, None) |}.

(** A ten-second clip: 300 frames of 1920 x 1080 at 30 fps. *)
Definition open_cap : VideoCapture :=
  {| isOpened := true;
     CAP_PROP_FRAME_WIDTH := 1920; CAP_PROP_FRAME_HEIGHT := 1080;
     CAP_PROP_FPS := 30; CAP_PROP_FRAME_COUNT := 300;
     cap_read := fun _ => Ok (true, Some a_frame) |}.


Definition a_path : string := "/videos/a.mp4".
Definition b_path : string := "/videos/b.mkv".

(** No file at all. *)
Definition world_without_files : World :=
  {| files := ∅; cv2_VideoCapture := fun _ _ => Ok closed_cap |}.

(** [a.mp4] exists and neither backend can open it. *)
Definition world_unreadable : World :=
  {| files := {[ a_path := a_stat ]};
     cv2_VideoCapture := fun _ _ => Ok closed_cap |}.

(** [a.mp4] exists and OpenCV raises on it. *)
Definition world_raising : World :=
  {| files := {[ a_path := a_stat ]};
     cv2_VideoCapture := fun _ _ => Raise |}.

(** [a.mp4] and [b.mkv] exist and are sound. *)
Definition world_sound : World :=
  {| files := {[ a_path := a_stat; b_path := a_stat ]};
     cv2_VideoCapture := fun _ _ => Ok open_cap |}.

(** The module state at import, and the metadata of the sound clip. *)
Definition fresh : MetaState := {| _metadata_cache := ∅; lru_entries := [] |}.

Definition a_metadata : Metadata :=
  {| md_width := 1920; md_height := 1080; md_fps := 30;
     md_duration := (300 # 1) / 30; md_size := 5000;
     md_date_modified := ctime 1700000000;
     md_date_created := ctime 1690000000 |}.

(** A metadata cache at its limit: a hundred older entries. *)
Definition hundred_paths : list string :=
  map (fun n : nat => "/old/" +:+ pretty n +:+ ".mp4") (seq 0 100).

Definition full_cache : gmap string Metadata :=
  list_to_map (map (fun p => (p, a_metadata)) hundred_paths).

End Examples.

(** ** Calls into [video_utils] *)

(** Any use of the two caches is a sequence of these calls, each in the
    world as it is when the call is made, starting from the empty
    dictionaries of a newly imported module. *)
Inductive Call : Type :=
| call_get_video_metadata (w : World) (file_path : string)
| call_extract_thumbnail (w : World) (file_path : string) (position : Q) (size : QSize)
| call_clear_caches.

Definition run_call (s : VideoUtils.MetaState * gmap VideoUtils.ThumbKey QPixmap)
           (c : Call) : VideoUtils.MetaState * gmap VideoUtils.ThumbKey QPixmap :=
  match c with
  | call_get_video_metadata w file_path =>
      (snd (VideoUtils.get_video_metadata w file_path (fst s)), snd s)
  | call_extract_thumbnail w file_path position size =>
      (fst s, snd (VideoUtils.extract_thumbnail w file_path position size (snd s)))
  | call_clear_caches => VideoUtils.clear_caches (fst s) (snd s)
  end.

Definition run_calls (calls : list Call)
  : VideoUtils.MetaState * gmap VideoUtils.ThumbKey QPixmap :=
  fold_left run_call calls (Examples.fresh, ∅).

(** ** Orders of signals *)

(** In [sigs], every [thumbnail_loaded] signal of a file comes after a
    [video_loaded] signal of the same file. *)
Definition item_before_thumbnail (sigs : list MainWindow.Event) : Prop :=
  forall before file_path pixmap after,
    sigs = before ++ MainWindow.thumbnail_loaded file_path pixmap :: after ->
    exists file_name size duration watched tags,
      In (MainWindow.video_loaded file_path file_name None size duration watched tags)
         before.

Definition is_video_loaded (p : string) (e : MainWindow.Event) : bool :=
  match e with
  | MainWindow.video_loaded q _ None _ _ _ _ => String.eqb q p
  | _ => false
  end.

(** A program of the loading thread: it emits [video_loaded] and
    [load_progress] signals only, and it submits a file only after it has
    emitted the file's [video_loaded] signal.  [seen] are the signals
    emitted before [acts]. *)
Fixpoint loader_program (seen : list MainWindow.Event)
         (acts : list MainWindow.Action) : Prop :=
  match acts with
  | [] => True
  | MainWindow.Emit (MainWindow.thumbnail_loaded _ _) :: _ => False
  | MainWindow.Emit e :: rest => loader_program (seen ++ [e]) rest
  | MainWindow.Submit p :: rest =>
      existsb (is_video_loaded p) seen = true /\ loader_program seen rest
  end.

(** The number of files the loop gets through: [canceled] is read once
    before each file, [i] reads having been made already. *)
Fixpoint files_done (canceled : nat -> bool) (i n : nat) : nat :=
  match n with
  | O => O
  | S n' => if canceled i then O else S (files_done canceled (S i) n')
  end.

(** The progress pairs sent after the files [i], [i+1], ..., [i+k-1]. *)
Definition per_file_progress (total : Z) (i k : nat) : list (Z * Z) :=
  map (fun j => (Z.of_nat j + 1, total)) (seq i k).

(** What holds in every state the program reaches. *)
Definition signals_invariant (s : MainWindow.System) : Prop :=
  item_before_thumbnail (MainWindow.signals s) /\
  List.Forall (fun p => existsb (is_video_loaded p) (MainWindow.signals s) = true)
              (MainWindow.thread_pool s) /\
  loader_program (MainWindow.signals s) (MainWindow.main_thread s).

(** *** Schedules *)

(** A schedule picks, step by step, the loading thread or the [n]-th
    extraction waiting in the pool (run in world [w]). *)
Inductive Choice : Type :=
| run_main
| run_worker (w : World) (n : nat).

Definition schedule_step (s : MainWindow.System) (c : Choice) : option MainWindow.System :=
  match c with
  | run_main =>
      match MainWindow.main_thread s with
      | MainWindow.Emit e :: rest =>
          Some {| MainWindow.main_thread := rest;
                  MainWindow.thread_pool := MainWindow.thread_pool s;
                  MainWindow._thumbnail_cache := MainWindow._thumbnail_cache s;
                  MainWindow.signals := MainWindow.signals s ++ [e] |}
      | MainWindow.Submit p :: rest =>
          Some {| MainWindow.main_thread := rest;
                  MainWindow.thread_pool := MainWindow.thread_pool s ++ [p];
                  MainWindow._thumbnail_cache := MainWindow._thumbnail_cache s;
                  MainWindow.signals := MainWindow.signals s |}
      | [] => None
      end
  | run_worker w n =>
      match List.nth_error (MainWindow.thread_pool s) n with
      | Some p =>
          let r := MainWindow._extract_and_callback w p (MainWindow._thumbnail_cache s) in
          Some {| MainWindow.main_thread := MainWindow.main_thread s;
                  MainWindow.thread_pool :=
                    firstn n (MainWindow.thread_pool s)
                    ++ skipn (S n) (MainWindow.thread_pool s);
                  MainWindow._thumbnail_cache := snd r;
                  MainWindow.signals := MainWindow.signals s ++ fst r |}
      | None => None
      end
  end.

Fixpoint schedule_run (s : MainWindow.System) (cs : list Choice) : option MainWindow.System :=
  match cs with
  | [] => Some s
  | c :: cs' =>
      match schedule_step s c with
      | Some s' => schedule_run s' cs'
      | None => None
      end
  end.

(** ** Catalogs and runs used in the examples *)

Module Runs.
Import VideoUtils MainWindow Examples.

(** A catalog where [a.mp4] was added, tagged and watched. *)
Definition catalog_with_a : Database.Db :=
  let db1 :=
    snd (Database.add_video Database.empty a_path "a.mp4" "/videos" 5000 10
                            (ctime 1690000000) (ctime 1700000000)) in
  let db2 :=
    Database.update_watched_status db1 1 true 42 (Some "2024-05-01T20:15:00") in
  {| Database.videos := Database.videos db2;
     Database.videos_seq := Database.videos_seq db2;
     Database.tags := [(1, "holiday"); (2, "family")];
     Database.video_tags := [(1, 2)] |}.

Definition empty_loader : LoaderState := {| db := Database.empty; meta := fresh |}.

Definition never_canceled : nat -> bool := fun _ => false.

(** The request for [/videos] with [a.mp4] and [b.mkv], on an empty
    catalog. *)
Definition two_files_program : list Action :=
  fst (_load_videos_async world_sound "/videos" ["a.mp4"; "b.mkv"]
                          never_canceled empty_loader).

(** The loading thread runs up to the submission of [b.mkv]; then the
    thumbnail of [b.mkv] is ready, the loading thread finishes, and the
    thumbnail of [a.mp4] is ready last. *)
Definition interleaved_schedule : list Choice :=
  [run_main; run_main; run_main; run_main; run_main; run_main; run_main;
   run_worker world_sound 1; run_main; run_worker world_sound 0].

Definition interleaved_run : System :=
  match schedule_run (start two_files_program ∅) interleaved_schedule with
  | Some s => s
  | None => start [] ∅
  end.

End Runs.

(** * The surrounding code *)

(** ** [src/utils/video_utils.py]: the two formatters *)

Module Format.







End Format.

(** ** [src/db/database.py]: tags and notes *)

Module Catalog.

(** The catalog with the two pieces of state [Database.Db] leaves out: the
    [sqlite_sequence] counter of [tags], and the [notes] table, whose
    primary key is [video_id].  Foreign keys are declared and not switched
    on, so no statement cascades. *)
Record Store : Type := {
  tables : Database.Db;
  tags_seq : Z;
  notes : gmap Z string
}.

(** The state [_init_db] leaves on a new database file. *)
Definition empty : Store :=
  {| tables := Database.empty; tags_seq := 0; notes := ∅ |}.

Definition with_tables (st : Store) (tables_ : Database.Db) : Store :=
  {| tables := tables_; tags_seq := tags_seq st; notes := notes st |}.

Definition tag_named (name : string) (t : Z * string) : bool := String.eqb (snd t) name.

Definition links (video_id tag_id : Z) (vt : Z * Z) : bool :=
  (fst vt =? video_id) && (snd vt =? tag_id).

Definition largest_tag_id (rows : list (Z * string)) : Z :=
  fold_right Z.max 0 (map fst rows).

(** [add_tag] (lines 116-127).  [INSERT OR IGNORE] on [tags], whose [id]
    is [AUTOINCREMENT] and whose [name] is [UNIQUE]; then
    [fetchone()[0]] of the rows with this name, which raises when there
    is none, before the commit. *)
Definition add_tag (st : Store) (name : string) : outcome Z * Store :=
  let db := tables st in
  let st' :=
    match List.find (tag_named name) (Database.tags db) with
    | Some _ => st
    | None =>
        let tag_id := Z.max (tags_seq st) (largest_tag_id (Database.tags db)) + 1 in
        {| tables :=
             {| Database.videos := Database.videos db;
                Database.videos_seq := Database.videos_seq db;
                Database.tags := Database.tags db ++ [(tag_id, name)];
                Database.video_tags := Database.video_tags db |};
           tags_seq := tag_id;
           notes := notes st |}
    end in
  match List.find (tag_named name) (Database.tags (tables st')) with
  | Some t => (Ok (fst t), st')
  | None => (Raise, st)
  end.

(** [add_video_tag] (lines 129-137): [INSERT OR IGNORE] on [video_tags],
    whose primary key is the pair. *)
Definition add_video_tag (st : Store) (video_id tag_id : Z) : Store :=
  let db := tables st in
  if existsb (links video_id tag_id) (Database.video_tags db) then st
  else
    with_tables st
      {| Database.videos := Database.videos db;
         Database.videos_seq := Database.videos_seq db;
         Database.tags := Database.tags db;
         Database.video_tags := Database.video_tags db ++ [(video_id, tag_id)] |}.

(** [remove_video_tag] (lines 139-147). *)
Definition remove_video_tag (st : Store) (video_id tag_id : Z) : Store :=
  let db := tables st in
  with_tables st
    {| Database.videos := Database.videos db;
       Database.videos_seq := Database.videos_seq db;
       Database.tags := Database.tags db;
       Database.video_tags :=
         List.filter (fun vt => negb (links video_id tag_id vt)) (Database.video_tags db) |}.

(** [save_note] (lines 166-176) and [get_note] (lines 178-187). *)
Definition save_note (st : Store) (video_id : Z) (content : string) : Store :=
  {| tables := tables st; tags_seq := tags_seq st;
     notes := <[video_id := content]> (notes st) |}.

Definition get_note (st : Store) (video_id : Z) : string :=
  match notes st !! video_id with
  | Some content => content
  | None => ""
  end.

End Catalog.

(** ** [src/ui/video_grid.py]: the items of the grid *)

Module VideoGrid.

(** The [thumbnail] attribute of an item: the gray box [__init__] makes
    when it is given no thumbnail ([QPixmap(320, 180)] filled with
    [Qt.gray]), or what was handed to the item. *)
Inductive Thumbnail : Type :=
| gray_box
| given (pixmap : option QPixmap).

Record VideoItem : Type := {
  file_path : string;
  file_name : string;
  thumbnail : Thumbnail;
  size : Z;
  duration : Q;
  watched : bool;
  tags : list string;
  video_data : option Database.Video
}.

(** [VideoItem.__init__] (lines 13-41). *)
Definition VideoItem_init (file_path_ file_name_ : string) (thumbnail_ : option QPixmap)
           (size_ : Z) (duration_ : Q) (watched_ : bool) (tags_ : list string)
  : VideoItem :=
  {| file_path := file_path_; file_name := file_name_;
     thumbnail := match thumbnail_ with
                  | None => gray_box
                  | Some pixmap => given (Some pixmap)
                  end;
     size := size_; duration := duration_; watched := watched_; tags := tags_;
     video_data := None |}.

(** The loops of the form [for i in range(rowCount()): item = model.item(i);
    if item and <test>: <update>; break]: the first item that passes the
    test is updated. *)
Fixpoint update_first (test : VideoItem -> bool) (update : VideoItem -> VideoItem)
         (model : list VideoItem) : list VideoItem :=
  match model with
  | [] => []
  | item :: rest =>
      if test item then update item :: rest
      else item :: update_first test update rest
  end.

Definition has_path (p : string) (item : VideoItem) : bool := String.eqb (file_path item) p.

(** [update_video_watched] (lines 274-279). *)
Definition update_video_watched (model : list VideoItem) (file_path_ : string)
           (watched_ : bool) : list VideoItem :=
  update_first (has_path file_path_)
    (fun item =>
       {| file_path := file_path item; file_name := file_name item;
          thumbnail := thumbnail item; size := size item; duration := duration item;
          watched := watched_; tags := tags item; video_data := video_data item |})
    model.

(** [add_video] (lines 281-294): the model with the new row; the new item
    is its last one. *)
Definition add_video (model : list VideoItem) (file_path_ file_name_ : string)
           (thumbnail_ : option QPixmap) (size_ : Z) (duration_ : Q)
           (watched_ : bool) (tags_ : list string) : list VideoItem :=
  model ++ [VideoItem_init file_path_ file_name_ thumbnail_ size_ duration_ watched_ tags_].

(** [update_video_tags] (lines 310-318). *)
Definition update_video_tags (model : list VideoItem) (file_path_ : string)
           (tags_ : list string) : list VideoItem :=
  update_first (has_path file_path_)
    (fun item =>
       {| file_path := file_path item; file_name := file_name item;
          thumbnail := thumbnail item; size := size item; duration := duration item;
          watched := watched item; tags := tags_; video_data := video_data item |})
    model.

End VideoGrid.

(** ** [src/ui/main_window.py]: the slots and the actions on one video *)

Module MainWindowUi.

(** [add_video_to_grid] (lines 443-454), the slot of [video_loaded_signal]:
    the catalog is read when the slot runs; the item appended to the model
    is the object whose [video_data] is then set. *)
Definition add_video_to_grid (db : Database.Db) (model : list VideoGrid.VideoItem)
           (file_path file_name : string) (thumbnail : option QPixmap)
           (size : Z) (duration : Q) (watched : bool) (tags : list string)
  : list VideoGrid.VideoItem :=
  let video_data := Database.get_video_by_path db file_path in
  let video_item :=
    VideoGrid.VideoItem_init file_path file_name thumbnail size duration watched tags in
  model ++
    [match video_data with
     | Some _ =>
         {| VideoGrid.file_path := VideoGrid.file_path video_item;
            VideoGrid.file_name := VideoGrid.file_name video_item;
            VideoGrid.thumbnail := VideoGrid.thumbnail video_item;
            VideoGrid.size := VideoGrid.size video_item;
            VideoGrid.duration := VideoGrid.duration video_item;
            VideoGrid.watched := VideoGrid.watched video_item;
            VideoGrid.tags := VideoGrid.tags video_item;
            VideoGrid.video_data := video_data |}
     | None => video_item
     end].

(** [update_video_thumbnail] (lines 456-465), the slot of
    [thumbnail_loaded_signal]. *)
Definition update_video_thumbnail (model : list VideoGrid.VideoItem)
           (file_path : string) (thumbnail : option QPixmap)
  : list VideoGrid.VideoItem :=
  VideoGrid.update_first (VideoGrid.has_path file_path)
    (fun item =>
       {| VideoGrid.file_path := VideoGrid.file_path item;
          VideoGrid.file_name := VideoGrid.file_name item;
          VideoGrid.thumbnail := VideoGrid.given thumbnail;
          VideoGrid.size := VideoGrid.size item;
          VideoGrid.duration := VideoGrid.duration item;
          VideoGrid.watched := VideoGrid.watched item;
          VideoGrid.tags := VideoGrid.tags item;
          VideoGrid.video_data := VideoGrid.video_data item |})
    model.

(** [update_load_progress] (lines 467-484), the slot of
    [load_progress_signal]: what it does to the progress bar. *)
Inductive BarUpdate : Type :=
| hide
| setValue (percent : Z).

Definition update_load_progress (current total : Z) : BarUpdate :=
  if total =? 0 then hide
  else setValue ((current * 100) / total).

(** The slot a signal is connected to (lines 258-260), on the model of
    the grid. *)
Definition slot (db : Database.Db) (model : list VideoGrid.VideoItem)
           (e : MainWindow.Event) : list VideoGrid.VideoItem :=
  match e with
  | MainWindow.video_loaded file_path file_name thumbnail size duration watched tags =>
      add_video_to_grid db model file_path file_name thumbnail size duration watched tags
  | MainWindow.thumbnail_loaded file_path pixmap =>
      update_video_thumbnail model file_path pixmap
  | MainWindow.load_progress _ _ => model
  end.

(** The thread of the window runs the slots one after the other, in the
    order the signals were emitted; [db_at k] is the catalog when the slot
    of the [k]-th signal runs. *)
Fixpoint deliver (db_at : nat -> Database.Db) (k : nat) (sigs : list MainWindow.Event)
         (model : list VideoGrid.VideoItem) : list VideoGrid.VideoItem :=
  match sigs with
  | [] => model
  | e :: rest => deliver db_at (S k) rest (slot (db_at k) model e)
  end.


(** The two loops of [show_video_details] over tags (lines 692-698). *)
Definition remove_tags (st : Catalog.Store) (video_id : Z)
           (current_tags : list (Z * string)) : Catalog.Store :=
  fold_left (fun st tag => Catalog.remove_video_tag st video_id (fst tag)) current_tags st.

Fixpoint add_tags (st : Catalog.Store) (video_id : Z) (new_tags : list string)
  : outcome unit * Catalog.Store :=
  match new_tags with
  | [] => (Ok tt, st)
  | tag_name :: rest =>
      match Catalog.add_tag st tag_name with
      | (Ok tag_id, st) => add_tags (Catalog.add_video_tag st video_id tag_id) video_id rest
      | (Raise, st) => (Raise, st)
      end
  end.

(** [show_video_details] (lines 650-711) from the moment the dialog is
    accepted; [new_watched], [new_notes] and [new_tags] are what the
    dialog returns.  An exception ends the function in its handler; what
    was committed before stays. *)
Definition show_video_details (st : Catalog.Store) (model : list VideoGrid.VideoItem)
           (file_path : string) (new_watched : bool) (new_notes : string)
           (new_tags : list string) (now : string)
  : outcome unit * Catalog.Store * list VideoGrid.VideoItem :=
  match Database.get_video_by_path (Catalog.tables st) file_path with
  | None => (Ok tt, st, model)
  | Some video_data =>
      let video_id := Database.id video_data in
      let '(st, model) :=
        if negb (Bool.eqb new_watched (negb (Database.watched video_data =? 0)))
        then
          (Catalog.with_tables st
             (Database.update_watched_status (Catalog.tables st) video_id
                new_watched 0 (if new_watched then Some now else None)),
           VideoGrid.update_video_watched model file_path new_watched)
        else (st, model) in
      let st := Catalog.save_note st video_id new_notes in
      let current_tags := Database.get_video_tags (Catalog.tables st) video_id in
      let st := remove_tags st video_id current_tags in
      match add_tags st video_id new_tags with
      | (Ok _, st) => (Ok tt, st, VideoGrid.update_video_tags model file_path new_tags)
      | (Raise, st) => (Raise, st, model)
      end
  end.

(** [toggle_video_tag] (lines 1015-1035): the item refreshed is the first
    one whose [video_data] has this id, unless its path is the empty
    string. *)
Definition shows_video (video_id : Z) (item : VideoGrid.VideoItem) : bool :=
  match VideoGrid.video_data item with
  | Some video_data => Database.id video_data =? video_id
  | None => false
  end.

Definition toggle_video_tag (st : Catalog.Store) (model : list VideoGrid.VideoItem)
           (video_id : Z) (tag : Z * string) (is_checked : bool)
  : Catalog.Store * list VideoGrid.VideoItem :=
  let st :=
    if is_checked then Catalog.add_video_tag st video_id (fst tag)
    else Catalog.remove_video_tag st video_id (fst tag) in
  match List.find (shows_video video_id) model with
  | Some item =>
      if String.eqb (VideoGrid.file_path item) "" then (st, model)
      else
        let current_tags :=
          map snd (Database.get_video_tags (Catalog.tables st) video_id) in
        (st, VideoGrid.update_video_tags model (VideoGrid.file_path item) current_tags)
  | None => (st, model)
  end.

End MainWindowUi.

(** ** [src/utils/settings.py]: the recent folders *)

Module Settings.

(** [recent.remove(folder_path)]: the first occurrence goes. *)
Fixpoint list_remove (x : string) (l : list string) : list string :=
  match l with
  | [] => []
  | y :: rest => if String.eqb y x then rest else y :: list_remove x rest
  end.

(** [add_recent_folder] (lines 45-57), on the list kept under
    ["recent_folders"]. *)
Definition add_recent_folder (recent : list string) (folder_path : string) : list string :=
  let recent :=
    if VideoUtils.py_in folder_path recent then list_remove folder_path recent
    else recent in
  let recent := folder_path :: recent in
  if (10 <? length recent)%nat then firstn 10 recent else recent.

End Settings.

(** ** [src/ui/main_window.py]: opening a folder *)

Module LoadFolder.




End LoadFolder.

(** ** [src/ui/folder_browser.py]: the navigation history *)

Module FolderBrowser.

(** The three attributes navigation works on (lines 95-98). *)
Record State : Type := {
  current_path : string;
  history : list string;
  current_history_index : Z
}.

(** The attributes before [__init__] opens the home folder. *)
Definition initial (home : string) : State :=
  {| current_path := home; history := []; current_history_index := -1 |}.

(** [l[i]]: a negative index counts from the end; [IndexError] out of
    range. *)
Definition py_getitem {A : Type} (l : list A) (i : Z) : outcome A :=
  let n := Z.of_nat (length l) in
  let j := if i <? 0 then i + n else i in
  if (0 <=? j) && (j <? n) then
    match nth_error l (Z.to_nat j) with
    | Some x => Ok x
    | None => Raise
    end
  else Raise.

(** [l[:stop]] and [l[-20:]]. *)
Definition py_slice_to {A : Type} (l : list A) (stop : Z) : list A :=
  let n := Z.of_nat (length l) in
  let stop := if stop <? 0 then Z.max (stop + n) 0 else Z.min stop n in
  firstn (Z.to_nat stop) l.

Definition py_last_20 {A : Type} (l : list A) : list A := skipn (length l - 20) l.

(** [add_to_history] (lines 177-190). *)
Definition add_to_history (s : State) (path : string) : outcome State :=
  is_current ←
    (match history s with
     | [] => Ok false
     | _ :: _ =>
         entry ← py_getitem (history s) (current_history_index s);
         Ok (String.eqb entry path)
     end);
  if (is_current : bool) then Ok s
  else
    let history_ :=
      if current_history_index s <? Z.of_nat (length (history s)) - 1
      then py_slice_to (history s) (current_history_index s + 1)
      else history s in
    let history_ := history_ ++ [path] in
    let index := Z.of_nat (length history_) - 1 in
    if (20 <? length history_)%nat then
      let history_ := py_last_20 history_ in
      Ok {| current_path := current_path s; history := history_;
            current_history_index := Z.of_nat (length history_) - 1 |}
    else
      Ok {| current_path := current_path s; history := history_;
            current_history_index := index |}.

(** [set_root_path] (lines 101-115); [isdir] is what [os.path.isdir(path)]
    answers at the call.  The calls into the Qt model and the widgets are
    taken to succeed. *)
Definition set_root_path (isdir : bool) (s : State) (path : string)
  : outcome (bool * State) :=
  if String.eqb path "" || negb isdir then Ok (false, s)
  else
    s ← add_to_history {| current_path := path; history := history s;
                          current_history_index := current_history_index s |} path;
    Ok (true, s).

(** [go_back] (lines 131-143): the history and the index are put back
    after [set_root_path]. *)
Definition go_back (isdir : bool) (s : State) : outcome State :=
  if 0 <? current_history_index s then
    let index := current_history_index s - 1 in
    path ← py_getitem (history s) index;
    let old_history := history s in
    let old_index := index in
    r ← set_root_path isdir
          {| current_path := current_path s; history := history s;
             current_history_index := index |} path;
    Ok {| current_path := current_path (snd r); history := old_history;
          current_history_index := old_index |}
  else Ok s.

End FolderBrowser.

(** ** Reading a formatted duration back *)






(** ** Thumbnails *)

(** A pixmap made from a decoded frame: the resized frame, or the resized
    frame scaled once more. *)
Definition from_frame (pm : QPixmap) : bool :=
  match pm with
  | FromImage _ | Scaled (FromImage _) _ => true
  | _ => false
  end.

(** A pixmap that is not empty and lies within a box. *)
Definition fits (pm : QPixmap) (box : QSize) : Prop :=
  1 <= width (pixmap_size pm) <= width box /\
  1 <= height (pixmap_size pm) <= height box.

(** What every entry of the thumbnail cache satisfies: it was made from a
    frame, and it fits the box its key names when that box is not empty. *)
Definition thumbnails_ok (cache : gmap VideoUtils.ThumbKey QPixmap) : Prop :=
  forall file_path position w h pm,
    cache !! (file_path, position, w, h) = Some pm ->
    from_frame pm = true /\
    (0 < w -> 0 < h -> fits pm {| width := w; height := h |}).

(** ** The memory of the probe *)

(** The paths remembered more recently than [file_path]: the keys of the
    entries before its entry, or all keys when it has none. *)
Fixpoint ahead {V : Type} (file_path : string) (entries : list (string * V)) : list string :=
  match entries with
  | [] => []
  | (k, _) :: rest => if String.eqb k file_path then [] else k :: ahead file_path rest
  end.

(** The paths probed by a list of calls. *)
Definition probed (calls : list Call) : list string :=
  flat_map (fun c => match c with
                     | call_get_video_metadata _ file_path => [file_path]
                     | _ => []
                     end) calls.

(** ** The loader and the catalog *)


(** What the progress signals among [sigs] do to the progress bar, in
    order. *)
Definition bar_updates (sigs : list MainWindow.Event) : list MainWindowUi.BarUpdate :=
  map (fun p => MainWindowUi.update_load_progress (fst p) (snd p))
      (MainWindow.progress_of sigs).

(** ** Signals and the grid *)

(** The paths announced by the [video_loaded] signals among [sigs], the
    paths of the [thumbnail_loaded] signals, and the paths a list of
    actions announces and submits, all in order. *)
Definition announced_paths (sigs : list MainWindow.Event) : list string :=
  flat_map (fun e => match e with
                     | MainWindow.video_loaded p _ _ _ _ _ _ => [p]
                     | _ => []
                     end) sigs.

Definition thumbnail_paths (sigs : list MainWindow.Event) : list string :=
  flat_map (fun e => match e with
                     | MainWindow.thumbnail_loaded p _ => [p]
                     | _ => []
                     end) sigs.

Definition submitted (acts : list MainWindow.Action) : list string :=
  flat_map (fun a => match a with
                     | MainWindow.Submit p => [p]
                     | MainWindow.Emit _ => []
                     end) acts.

(** The shape of what the loading thread does: progress signals, and
    announcements without thumbnail, each followed at once by the
    submission of the same file. *)
Fixpoint paired (acts : list MainWindow.Action) : Prop :=
  match acts with
  | [] => True
  | MainWindow.Emit (MainWindow.load_progress _ _) :: rest => paired rest
  | MainWindow.Emit (MainWindow.video_loaded p _ None _ _ _ _)
      :: MainWindow.Submit q :: rest => p = q /\ paired rest
  | _ => False
  end.

(** The loading thread is between two turns, or between an announcement
    and its submission. *)
Definition main_shape (acts : list MainWindow.Action) : Prop :=
  paired acts \/ exists p rest, acts = MainWindow.Submit p :: rest /\ paired rest.

(** Every submission is accounted for: it waits in the program, waits in
    the pool, or has given its signal. *)
Definition accounted (s : MainWindow.System) : Prop :=
  main_shape (MainWindow.main_thread s) /\
  Permutation
    (thumbnail_paths (MainWindow.signals s) ++ MainWindow.thread_pool s
       ++ submitted (MainWindow.main_thread s))
    (announced_paths (MainWindow.signals s)
       ++ announced_paths (MainWindow.emitted (MainWindow.main_thread s))).

(** The grid after the slots of [sigs] have run: one item for each
    announcement, in order; an item shows the gray box as long as no
    thumbnail signal of its file has come, and otherwise a thumbnail that
    a signal of its file delivered. *)
Definition grid_follows (sigs : list MainWindow.Event)
           (model : list VideoGrid.VideoItem) : Prop :=
  map VideoGrid.file_path model = announced_paths sigs /\
  forall item, In item model ->
    match VideoGrid.thumbnail item with
    | VideoGrid.gray_box => ~ In (VideoGrid.file_path item) (thumbnail_paths sigs)
    | VideoGrid.given pixmap =>
        In (MainWindow.thumbnail_loaded (VideoGrid.file_path item) pixmap) sigs
    end.

(** ** Catalogs that the program can reach *)

(** The calls that write to the catalog. *)
Inductive CatalogOp : Type :=
| op_add_video (file_path file_name folder_path : string) (size : Z) (duration : Q)
               (date_added date_modified : timestr)
| op_update_watched_status (video_id : Z) (watched : bool) (last_position : Z)
                           (last_watched : option string)
| op_add_tag (name : string)
| op_add_video_tag (video_id tag_id : Z)
| op_remove_video_tag (video_id tag_id : Z)
| op_save_note (video_id : Z) (content : string).

Definition run_op (st : Catalog.Store) (op : CatalogOp) : Catalog.Store :=
  match op with
  | op_add_video file_path file_name folder_path size duration date_added date_modified =>
      Catalog.with_tables st
        (snd (Database.add_video (Catalog.tables st) file_path file_name folder_path
                                 size duration date_added date_modified))
  | op_update_watched_status video_id watched last_position last_watched =>
      Catalog.with_tables st
        (Database.update_watched_status (Catalog.tables st) video_id watched
                                        last_position last_watched)
  | op_add_tag name => snd (Catalog.add_tag st name)
  | op_add_video_tag video_id tag_id => Catalog.add_video_tag st video_id tag_id
  | op_remove_video_tag video_id tag_id => Catalog.remove_video_tag st video_id tag_id
  | op_save_note video_id content => Catalog.save_note st video_id content
  end.

Definition run_ops (ops : list CatalogOp) : Catalog.Store :=
  fold_left run_op ops Catalog.empty.

(** What the schema declares (lines 19-58): [file_path] and the tag
    [name] are [UNIQUE], the two [id] columns and the pair of [video_tags]
    are primary keys; and what [AUTOINCREMENT] keeps: an id is positive
    and not above the counter of its table. *)
Definition constraints (st : Catalog.Store) : Prop :=
  let d := Catalog.tables st in
  List.NoDup (map Database.file_path (Database.videos d)) /\
  List.NoDup (map Database.id (Database.videos d)) /\
  (forall v, In v (Database.videos d) -> 0 < Database.id v <= Database.videos_seq d) /\
  List.NoDup (map fst (Database.tags d)) /\
  List.NoDup (map snd (Database.tags d)) /\
  (forall t, In t (Database.tags d) -> 0 < fst t <= Catalog.tags_seq st) /\
  List.NoDup (Database.video_tags d).

(** ** Recent folders *)

(** The list under ["recent_folders"] after the folders [folders] were
    opened one after the other, on settings that had none. *)
Definition open_folders (folders : list string) : list string :=
  fold_left Settings.add_recent_folder folders [].

Definition is_not (x : string) (y : string) : bool := negb (String.eqb y x).

(** ** Navigation *)

(** What the user does to the folder browser, as far as the history is
    concerned: a folder is opened ([go_up], [go_home], the path field, the
    folder dialog and the recent folders all end in [set_root_path]), or
    the back button is pressed. *)
Inductive Nav : Type :=
| nav_set_root_path (isdir : bool) (path : string)
| nav_go_back (isdir : bool).

Definition navigate (s : FolderBrowser.State) (n : Nav) : outcome FolderBrowser.State :=
  match n with
  | nav_set_root_path isdir path =>
      r ← FolderBrowser.set_root_path isdir s path; Ok (snd r)
  | nav_go_back isdir => FolderBrowser.go_back isdir s
  end.

Fixpoint navigate_all (s : FolderBrowser.State) (navs : list Nav)
  : outcome FolderBrowser.State :=
  match navs with
  | [] => Ok s
  | n :: rest => s ← navigate s n; navigate_all s rest
  end.

(** No entry of the list is followed by an equal one. *)
Fixpoint no_repeat (l : list string) : Prop :=
  match l with
  | x :: (y :: _) as rest => x <> y /\ no_repeat rest
  | _ => True
  end.

(** The history is empty and the index is -1, or the index points into a
    history of at most twenty entries. *)
Definition history_ok (s : FolderBrowser.State) : Prop :=
  let n := Z.of_nat (length (FolderBrowser.history s)) in
  (n = 0 /\ FolderBrowser.current_history_index s = -1 \/
   0 <= FolderBrowser.current_history_index s < n /\ n <= 20) /\
  no_repeat (FolderBrowser.history s).

(** * Proofs *)

(** ** Strings and paths *)

Lemma in_all_ascii (c : ascii) : In c all_ascii.
Proof.
  unfold all_ascii. rewrite <- (ascii_nat_embedding c).
  apply in_map, in_seq. pose proof (nat_ascii_bounded c). lia.
Qed.

Lemma lower_char_test_all :
  forallb (fun a => forallb (lower_char_test a) all_ascii) all_ascii = true.
Proof. vm_compute. reflexivity. Qed.

Lemma lower_char_spec (a b : ascii) :
  is_upper b = false -> lower_char a = b <-> (a = b \/ a = upper_char b).
Proof.
  intros Hb.
  pose proof lower_char_test_all as H.
  rewrite forallb_forall in H. specialize (H a (in_all_ascii a)).
  rewrite forallb_forall in H. specialize (H b (in_all_ascii b)).
  unfold lower_char_test in H. rewrite Hb in H. simpl in H.
  apply Bool.eqb_prop in H.
  rewrite <- Ascii.eqb_eq, H, orb_true_iff, !Ascii.eqb_eq. reflexivity.
Qed.

Lemma lower_spec (x e : string) :
  no_upper e = true -> lower x = e <-> same_up_to_case x e.
Proof.
  revert e. induction x as [|a x IH]; intros [|b e] He; simpl in *;
    try (split; [discriminate | tauto]).
  - tauto.
  - apply andb_true_iff in He as [Hb He]. apply negb_true_iff in Hb.
    rewrite <- (IH e He), <- (lower_char_spec a b Hb).
    split; [intros [= -> ->]; auto | intros [-> ->]; reflexivity].
Qed.

Lemma supported_no_upper :
  forallb no_upper VideoUtils.SUPPORTED_VIDEO_EXTENSIONS = true.
Proof. reflexivity. Qed.

Lemma py_in_spec (x : string) (xs : list string) :
  VideoUtils.py_in x xs = true <-> In x xs.
Proof.
  unfold VideoUtils.py_in. rewrite existsb_exists. split.
  - intros [e [He Heq]]. apply String.eqb_eq in Heq. subst. exact He.
  - intros Hx. exists x. split; [exact Hx | apply String.eqb_refl].
Qed.

Lemma is_video_file_spec (fl : OsPath.flavour) (file_path : string) :
  VideoUtils.is_video_file fl file_path = true <->
  exists e, In e VideoUtils.SUPPORTED_VIDEO_EXTENSIONS /\
            same_up_to_case (snd (OsPath.splitext fl file_path)) e.
Proof.
  unfold VideoUtils.is_video_file. rewrite py_in_spec. split.
  - intros Hin. exists (lower (snd (OsPath.splitext fl file_path))). split; [exact Hin|].
    apply lower_spec; [|reflexivity].
    pose proof supported_no_upper as H. rewrite forallb_forall in H. auto.
  - intros [e [Hin Hsame]].
    pose proof supported_no_upper as H. rewrite forallb_forall in H.
    apply lower_spec in Hsame; [|auto]. rewrite Hsame. exact Hin.
Qed.

Lemma rfind_from_shift (c : ascii) (s : string) (i acc : Z) :
  OsPath.rfind_from c s i acc =
  if OsPath.rfind s c <? 0 then acc else i + OsPath.rfind s c.
Proof.
  unfold OsPath.rfind. revert i acc.
  induction s as [|a s IH]; intros i acc; simpl; [reflexivity|].
  rewrite (IH (i + 1)), (IH (0 + 1)).
  destruct (OsPath.rfind_from c s 0 (-1) <? 0) eqn:E.
  - destruct (Ascii.eqb a c); simpl; [f_equal; lia | reflexivity].
  - apply Z.ltb_ge in E.
    destruct (0 + 1 + OsPath.rfind_from c s 0 (-1) <? 0) eqn:E'; [lia | lia].
Qed.

Lemma rfind_from_app (c : ascii) (p s : string) (i acc : Z) :
  OsPath.rfind_from c (p +:+ s) i acc =
  OsPath.rfind_from c s (i + Z.of_nat (String.length p)) (OsPath.rfind_from c p i acc).
Proof.
  revert i acc. induction p as [|a p IH]; intros i acc; simpl.
  - f_equal. lia.
  - rewrite IH. f_equal. lia.
Qed.

Lemma rfind_from_bound (c : ascii) (p : string) (i acc : Z) :
  acc < i -> OsPath.rfind_from c p i acc < i + Z.of_nat (String.length p).
Proof.
  revert i acc. induction p as [|a p IH]; intros i acc H; simpl.
  - lia.
  - specialize (IH (i + 1) (if Ascii.eqb a c then i else acc)).
    destruct (Ascii.eqb a c); lia.
Qed.

Lemma rfind_app (c : ascii) (p s : string) :
  OsPath.rfind (p +:+ s) c =
  if OsPath.rfind s c <? 0 then OsPath.rfind p c
  else Z.of_nat (String.length p) + OsPath.rfind s c.
Proof.
  unfold OsPath.rfind at 1. rewrite rfind_from_app, rfind_from_shift. reflexivity.
Qed.

Lemma rfind_bound (c : ascii) (p : string) :
  OsPath.rfind p c < Z.of_nat (String.length p).
Proof. apply (rfind_from_bound c p 0 (-1)). lia. Qed.

Lemma get_app_length (p : string) (a : ascii) (s : string) :
  String.get (String.length p) (p +:+ String a s) = Some a.
Proof. induction p; simpl; auto. Qed.

Lemma drop_app_length (p s : string) (n : nat) :
  OsPath.drop (String.length p + n) (p +:+ s) = OsPath.drop n s.
Proof. induction p; simpl; auto. Qed.

(** The loop finds a character that is not a dot if there is one between
    its start and the last dot. *)
Lemma skip_leading_dots_found (p : string) (extsep a : ascii) (j : nat) (n : nat) (start : Z) :
  String.get j p = Some a -> a <> extsep ->
  0 <= start <= Z.of_nat j -> Z.of_nat j < start + Z.of_nat n ->
  OsPath.skip_leading_dots p extsep start n = true.
Proof.
  revert start. induction n as [|n IH]; intros start Hget Ha Hlo Hhi; [lia|].
  simpl. destruct (String.get (Z.to_nat start) p) as [b|] eqn:Hb; [|reflexivity].
  destruct (Ascii.eqb_spec b extsep) as [->|]; [|reflexivity].
  apply IH; auto; try lia.
  destruct (Z.eq_dec start (Z.of_nat j)) as [->|]; [|lia].
  rewrite Nat2Z.id in Hb. congruence.
Qed.

(** The extension of [prefix + name] is the extension of [name], when
    [name] has no separator, starts with a character other than a dot and
    has a dot further on. *)
Lemma splitext_prefix (fl : OsPath.flavour) (pre : string) (a : ascii) (rest : string) :
  a <> "."%char ->
  OsPath.rfind (String a rest) "/" = -1 -> OsPath.rfind (String a rest) "\" = -1 ->
  0 < OsPath.rfind (String a rest) "." ->
  snd (OsPath.splitext fl (pre +:+ String a rest)) =
  OsPath.drop (Z.to_nat (OsPath.rfind (String a rest) ".")) (String a rest).
Proof.
  intros Ha Hs Hb Hd. set (name := String a rest) in *.
  pose proof (rfind_bound "/" pre) as B1. pose proof (rfind_bound "\" pre) as B2.
  assert (Hdot : OsPath.rfind (pre +:+ name) "." =
                 Z.of_nat (String.length pre) + OsPath.rfind name ".").
  { rewrite rfind_app. destruct (OsPath.rfind name "." <? 0) eqn:E; [lia | reflexivity]. }
  assert (Hsl : OsPath.rfind (pre +:+ name) "/" = OsPath.rfind pre "/").
  { rewrite rfind_app, Hs. reflexivity. }
  assert (Hbs : OsPath.rfind (pre +:+ name) "\" = OsPath.rfind pre "\").
  { rewrite rfind_app, Hb. reflexivity. }
  assert (L1 : -1 <= OsPath.rfind pre "/").
  { unfold OsPath.rfind. rewrite rfind_from_shift.
    destruct (OsPath.rfind pre "/" <? 0) eqn:E; [lia|]. apply Z.ltb_ge in E. lia. }
  assert (L2 : -1 <= OsPath.rfind pre "\").
  { unfold OsPath.rfind. rewrite rfind_from_shift.
    destruct (OsPath.rfind pre "\" <? 0) eqn:E; [lia|]. apply Z.ltb_ge in E. lia. }
  assert (Hgen : forall sepIndex, -1 <= sepIndex < Z.of_nat (String.length pre) ->
     snd (if (sepIndex <? OsPath.rfind (pre +:+ name) ".")
             && OsPath.skip_leading_dots (pre +:+ name) "." (sepIndex + 1)
                  (Z.to_nat (OsPath.rfind (pre +:+ name) "." - (sepIndex + 1)))
          then (OsPath.take (Z.to_nat (OsPath.rfind (pre +:+ name) ".")) (pre +:+ name),
                OsPath.drop (Z.to_nat (OsPath.rfind (pre +:+ name) ".")) (pre +:+ name))
          else (pre +:+ name, EmptyString))
     = OsPath.drop (Z.to_nat (OsPath.rfind name ".")) name).
  { intros k Hk. rewrite Hdot.
    replace (k <? _) with true by (symmetry; apply Z.ltb_lt; lia).
    rewrite (skip_leading_dots_found _ _ a (String.length pre));
      [| apply get_app_length | exact Ha | lia | lia ].
    simpl snd.
    replace (Z.to_nat (Z.of_nat (String.length pre) + OsPath.rfind name "."))
      with (String.length pre + Z.to_nat (OsPath.rfind name "."))%nat by lia.
    apply drop_app_length. }
  destruct fl; unfold OsPath.splitext, OsPath._splitext.
  - rewrite Hsl. apply Hgen. lia.
  - rewrite Hsl, Hbs. apply Hgen. lia.
Qed.

Lemma join_is_prefix (a b : string) :
  OsPath.startswith b "/" = false -> exists pre, OsPath.join a b = pre +:+ b.
Proof.
  intros H. unfold OsPath.join. rewrite H.
  destruct (String.eqb a "" || OsPath.endswith a "/").
  - exists a. reflexivity.
  - exists (a +:+ "/"). 
    assert (App : forall x y z : string, (x +:+ y) +:+ z = x +:+ (y +:+ z)).
    { induction x as [|c x IHx]; intros y z; [reflexivity|].
      change (String c ((x +:+ y) +:+ z) = String c (x +:+ (y +:+ z))).
      rewrite IHx. reflexivity. }
    rewrite App. reflexivity.
Qed.

Lemma listing_example_raw (folder : string) :
  MainWindow.video_files_of folder ["a.mp4"; "b.txt"; "c.mkv"] = ["a.mp4"; "c.mkv"].
Proof.
  unfold MainWindow.video_files_of. cbn [List.filter].
  unfold VideoUtils.is_video_file.
  destruct (join_is_prefix folder "a.mp4" eq_refl) as [p1 ->].
  destruct (join_is_prefix folder "b.txt" eq_refl) as [p2 ->].
  destruct (join_is_prefix folder "c.mkv" eq_refl) as [p3 ->].
  rewrite !splitext_prefix by (vm_compute; congruence).
  reflexivity.
Qed.

(** ** The metadata probe *)

Import VideoUtils.

Lemma exists_stat (w : World) (p : string) :
  os_path_exists w p = true -> exists st, files w !! p = Some st.
Proof.
  unfold os_path_exists. intros H. apply bool_decide_eq_true in H.
  destruct H as [st H]. exists st. exact H.
Qed.

Lemma not_exists_stat (w : World) (p : string) :
  os_path_exists w p = false -> files w !! p = None.
Proof.
  unfold os_path_exists. intros H. apply bool_decide_eq_false in H.
  destruct (files w !! p) eqn:E; [|reflexivity]. exfalso. apply H. eauto.
Qed.

(** The handler builds the fallback record from the file's [stat]. *)
Lemma get_video_metadata_except_ok (w : World) (p : string) (st : FileStat) :
  files w !! p = Some st ->
  get_video_metadata_except w p = Ok (Some (fallback_metadata st)).
Proof.
  intros H. unfold get_video_metadata_except, os_path_exists,
    os_path_getsize, os_path_getmtime, os_path_getctime, os_stat.
  rewrite H. rewrite bool_decide_eq_true_2 by eauto. reflexivity.
Qed.

Lemma get_video_metadata_body_never_raises (w : World) (p : string)
      (cache : gmap string Metadata) :
  exists r, fst (get_video_metadata_body w p cache) = Ok r.
Proof.
  unfold get_video_metadata_body.
  destruct (os_path_exists w p) eqn:E; simpl; [|eauto].
  destruct (cache !! p); simpl; [eauto|].
  destruct (get_video_metadata_try w p cache) as [[r c]|]; simpl; [eauto|].
  destruct (exists_stat _ _ E) as [st Hst].
  rewrite (get_video_metadata_except_ok _ _ _ Hst). eauto.
Qed.

Lemma get_video_metadata_never_raises (w : World) (p : string) (st : MetaState) :
  exists r, fst (get_video_metadata w p st) = Ok r.
Proof.
  unfold get_video_metadata.
  destruct (lru_lookup p (lru_entries st)); simpl; [eauto|].
  destruct (get_video_metadata_body_never_raises w p (_metadata_cache st)) as [r Hr].
  destruct (get_video_metadata_body w p (_metadata_cache st)) as [[r'|] c]; simpl in *;
    [eauto | discriminate].
Qed.

Lemma try_cannot_open (w : World) (p : string) (cache : gmap string Metadata) :
  cannot_open w p -> get_video_metadata_try w p cache = Ok (None, cache).
Proof.
  intros (cap1 & cap2 & H1 & O1 & H2 & O2).
  unfold get_video_metadata_try. rewrite H1. cbn. rewrite O1, H2. cbn.
  rewrite O2. reflexivity.
Qed.

Lemma try_open_raises (w : World) (p : string) (cache : gmap string Metadata) :
  open_raises w p -> get_video_metadata_try w p cache = Raise.
Proof.
  intros [H1 | (cap1 & H1 & O1 & H2)]; unfold get_video_metadata_try; rewrite H1; cbn.
  - reflexivity.
  - rewrite O1, H2. reflexivity.
Qed.

(** C2, as the code has it.  On a probe that the [lru_cache] wrapper does
    not answer from memory: a path that does not exist gives [None]; a
    path that exists and whose container neither backend can open gives
    [None] too (line 43), not the fallback record; the fallback record
    (1280 x 720, 30 fps, 60 s, with the file's size and dates) is what an
    existing path gets when opening the container raises an exception.  In
    no case does the probe raise. *)
Theorem probe_fails_soft (w : World) (file_path : string) (st : MetaState) :
  lru_lookup file_path (lru_entries st) = None ->
  (exists r, fst (get_video_metadata w file_path st) = Ok r) /\
  (os_path_exists w file_path = false ->
   fst (get_video_metadata w file_path st) = Ok None) /\
  (forall stat, files w !! file_path = Some stat ->
     _metadata_cache st !! file_path = None ->
     (cannot_open w file_path ->
      fst (get_video_metadata w file_path st) = Ok None) /\
     (open_raises w file_path ->
      fst (get_video_metadata w file_path st) = Ok (Some (fallback_metadata stat)) /\
      md_width (fallback_metadata stat) = 1280 /\
      md_height (fallback_metadata stat) = 720 /\
      md_fps (fallback_metadata stat) = 30%Q /\
      md_duration (fallback_metadata stat) = 60%Q)).
Proof.
  intros Hlru. split; [apply get_video_metadata_never_raises|].
  unfold get_video_metadata. rewrite Hlru. unfold get_video_metadata_body.
  split.
  - intros ->. reflexivity.
  - intros stat Hstat Hmiss.
    assert (E : os_path_exists w file_path = true).
    { unfold os_path_exists. apply bool_decide_eq_true_2. eauto. }
    rewrite E, Hmiss. cbn [negb]. split.
    + intros H. rewrite (try_cannot_open _ _ _ H). reflexivity.
    + intros H. rewrite (try_open_raises _ _ _ H).
      rewrite (get_video_metadata_except_ok _ _ _ Hstat). repeat split.
Qed.

(** ** The thumbnail extractor *)

Lemma placeholder_size (size : QSize) :
  0 < width size -> 0 < height size -> pixmap_size (placeholder size) = size.
Proof.
  intros Hw Hh. unfold placeholder, QPixmap_new.
  apply Z.ltb_lt in Hw, Hh. rewrite Hw, Hh. destruct size; reflexivity.
Qed.

Lemma extract_thumbnail_try_fails (w : World) (p : string) (position : Q)
      (size : QSize) (cache : gmap ThumbKey QPixmap) :
  extraction_fails w p position ->
  extract_thumbnail_try w p position size cache = Raise \/
  extract_thumbnail_try w p position size cache = Ok (placeholder size, cache).
Proof.
  unfold extract_thumbnail_try.
  intros [H | (cap & H & [O | (seek & Hs & Hr)])]; rewrite H; cbn.
  - left; reflexivity.
  - rewrite O. right; reflexivity.
  - destruct (isOpened cap); cbn; [|right; reflexivity].
    rewrite Hs. cbn.
    destruct Hr as [Hr | [[frame Hr] | [ret Hr]]]; rewrite Hr; cbn.
    + left; reflexivity.
    + right; reflexivity.
    + right. destruct ret; reflexivity.
Qed.

(** C1, as the code has it.  [extract_thumbnail] never raises.  For a path
    that does not exist it returns [None] (line 98); for a path that
    exists it returns a pixmap.  When the path exists, the result is not
    in the thumbnail cache and extraction fails, the pixmap returned is
    the dark gray placeholder, nothing is cached, and for a target size
    with positive width and height the placeholder has exactly that
    size. *)
Theorem extract_thumbnail_placeholder (w : World) (file_path : string)
        (position : Q) (size : QSize) (cache : gmap ThumbKey QPixmap) :
  (exists r, fst (extract_thumbnail w file_path position size cache) = Ok r) /\
  (os_path_exists w file_path = false ->
   extract_thumbnail w file_path position size cache = (Ok None, cache)) /\
  (os_path_exists w file_path = true ->
   exists pixmap,
     fst (extract_thumbnail w file_path position size cache) = Ok (Some pixmap)) /\
  (os_path_exists w file_path = true ->
   cache !! cache_key file_path position size = None ->
   extraction_fails w file_path position ->
   extract_thumbnail w file_path position size cache
     = (Ok (Some (placeholder size)), cache) /\
   (0 < width size -> 0 < height size ->
    pixmap_size (placeholder size) = size)).
Proof.
  unfold extract_thumbnail. repeat split.
  - destruct (os_path_exists w file_path); cbn; [|eauto].
    destruct (cache !! _); cbn; [eauto|].
    destruct (extract_thumbnail_try _ _ _ _ _) as [[pm c]|]; cbn; eauto.
  - intros ->. reflexivity.
  - intros ->. cbn.
    destruct (cache !! _); cbn; [eauto|].
    destruct (extract_thumbnail_try _ _ _ _ _) as [[pm c]|]; cbn; eauto.
  - rewrite H, H0. cbn.
    destruct (extract_thumbnail_try_fails w file_path position size cache H1)
      as [-> | ->]; reflexivity.
  - apply placeholder_size; assumption.
Qed.

(** ** The frame a thumbnail is taken from *)




(** ** The two result caches *)




Lemma bind_Ok {A B : Type} (m : outcome A) (k : A -> outcome B) (b : B) :
  m ≫= k = Ok b -> exists a, m = Ok a /\ k a = Ok b.
Proof. destruct m as [a|]; [eauto | discriminate]. Qed.




Lemma lru_touch_bound {V : Type} (key : string) (v : V) (entries : list (string * V)) :
  (length (lru_touch 100 key v entries) <= 100)%nat.
Proof. unfold lru_touch. apply firstn_le_length. Qed.

Lemma get_video_metadata_lru_bound (w : World) (p : string) (st : MetaState) :
  (length (lru_entries st) <= 100)%nat ->
  (length (lru_entries (snd (get_video_metadata w p st))) <= 100)%nat.
Proof.
  intros H. unfold get_video_metadata.
  destruct (lru_lookup p (lru_entries st)); [apply lru_touch_bound|].
  destruct (get_video_metadata_body w p (_metadata_cache st)) as [[r|] c];
    [apply lru_touch_bound | exact H].
Qed.


(** ** The catalog *)

Lemma largest_rowid_bound (rows : list Database.Video) (v : Database.Video) :
  In v rows -> Database.id v <= Database.largest_rowid rows.
Proof.
  unfold Database.largest_rowid. induction rows as [|r rows IH]; simpl; [tauto|].
  intros [-> | H]; [lia | specialize (IH H); lia].
Qed.

Lemma has_path_refl (p : string) (v : Database.Video) :
  Database.file_path v = p -> Database.has_path p v = true.
Proof. intros <-. apply String.eqb_refl. Qed.

Lemma filter_has_path_removed (p : string) (rows : list Database.Video) :
  List.filter (Database.has_path p)
              (List.filter (fun v => negb (Database.has_path p v)) rows) = [].
Proof.
  induction rows as [|r rows IH]; simpl; [reflexivity|].
  destruct (Database.has_path p r) eqn:E; simpl; [exact IH | rewrite E; exact IH].
Qed.

Lemma find_has_path_removed (p : string) (rows : list Database.Video) :
  List.find (Database.has_path p)
            (List.filter (fun v => negb (Database.has_path p v)) rows) = None.
Proof.
  induction rows as [|r rows IH]; simpl; [reflexivity|].
  destruct (Database.has_path p r) eqn:E; simpl; [exact IH | rewrite E; exact IH].
Qed.

Lemma find_app_None {A : Type} (f : A -> bool) (l1 l2 : list A) :
  List.find f l1 = None -> List.find f (l1 ++ l2) = List.find f l2.
Proof.
  induction l1 as [|a l1 IH]; simpl; [reflexivity|].
  destruct (f a); [discriminate | exact IH].
Qed.



(** C10.  [add_video] on a path that is already in [videos]: afterwards
    the table has exactly one row with that path, and it is a new row, not
    the old one updated: its id is the value returned, larger than the id
    of every row the table had (the old row's among them), and its
    [watched], [last_watched] and [last_position] are the column defaults
    [0], [NULL] and [0], whatever the old row held.  Rows of other paths
    stay as they are. *)
Theorem add_video_replaces_row (db : Database.Db) (file_path file_name folder_path : string)
        (size : Z) (duration : Q) (date_added date_modified : timestr)
        (old : Database.Video) :
  Database.get_video_by_path db file_path = Some old ->
  let video_id :=
    fst (Database.add_video db file_path file_name folder_path size duration
                            date_added date_modified) in
  let db' :=
    snd (Database.add_video db file_path file_name folder_path size duration
                            date_added date_modified) in
  exists new,
    List.filter (Database.has_path file_path) (Database.videos db') = [new] /\
    Database.get_video_by_path db' file_path = Some new /\
    Database.id new = video_id /\
    Database.id old < Database.id new /\
    (forall v, In v (Database.videos db) -> Database.id v < Database.id new) /\
    ~ In old (Database.videos db') /\
    Database.watched new = 0 /\
    Database.last_watched new = None /\
    Database.last_position new = 0 /\
    Database.size new = size /\
    Database.duration new = duration /\
    (forall v, Database.file_path v <> file_path ->
               (In v (Database.videos db') <-> In v (Database.videos db))).
Proof.
  intros Hold video_id db'. unfold Database.get_video_by_path in *.
  pose proof (find_some _ _ Hold) as [Hin Hp].
  subst video_id db'. unfold Database.add_video. simpl.
  match goal with |- context [_ ++ [?r]] => set (row := r) end.
  assert (Hnew : Database.has_path file_path row = true).
  { apply has_path_refl. reflexivity. }
  exists row.
  split_and!; try reflexivity.
  - rewrite List.filter_app, filter_has_path_removed. simpl. rewrite Hnew. reflexivity.
  - rewrite find_app_None by apply find_has_path_removed. simpl. rewrite Hnew. reflexivity.
  - simpl. pose proof (largest_rowid_bound _ _ Hin). lia.
  - intros v Hv. simpl. pose proof (largest_rowid_bound _ _ Hv). lia.
  - intros H. apply in_app_or in H as [H | [H | []]].
    + apply filter_In in H as [_ H]. rewrite Hp in H. discriminate.
    + pose proof (largest_rowid_bound _ _ Hin) as B. rewrite <- H in B. simpl in B. lia.
  - intros v Hv. split.
    + intros H. apply in_app_or in H as [H | [H | []]].
      * apply filter_In in H. tauto.
      * subst v. simpl in *. congruence.
    + intros H. apply in_or_app. left. apply filter_In. split; [exact H|].
      apply negb_true_iff. unfold Database.has_path.
      apply String.eqb_neq. assumption.
Qed.

(** ** The loader *)

Import MainWindow.


(** What one turn of the loop does: nothing (the probe gave [None]), or
    the [video_loaded] signal of the file followed by the submission of
    its thumbnail.  It never raises. *)
Lemma load_one_shape (w : World) (folder_path file_name : string) (st : LoaderState) :
  fst (load_one w folder_path file_name st) = Ok [] \/
  exists size duration watched tags,
    fst (load_one w folder_path file_name st)
    = Ok [Emit (video_loaded (OsPath.join folder_path file_name) file_name None
                             size duration watched tags);
          Submit (OsPath.join folder_path file_name)].
Proof.
  unfold load_one.
  destruct (Database.get_video_by_path _ _) as [v|]; [right; simpl; eauto 10|].
  destruct (get_video_metadata_never_raises w (OsPath.join folder_path file_name) (meta st))
    as [r Hr].
  destruct (get_video_metadata w (OsPath.join folder_path file_name) (meta st))
    as [[[m|]|] meta']; simpl in *; try discriminate.
  - right. eauto 10.
  - left. reflexivity.
Qed.


Lemma emitted_app (a b : list Action) : emitted (a ++ b) = emitted a ++ emitted b.
Proof. apply flat_map_app. Qed.

Lemma progress_of_app (a b : list Event) : progress_of (a ++ b) = progress_of a ++ progress_of b.
Proof. apply flat_map_app. Qed.

Lemma load_one_no_progress (w : World) (folder_path file_name : string)
      (st : LoaderState) (acts : list Action) :
  fst (load_one w folder_path file_name st) = Ok acts ->
  progress_of (emitted acts) = [].
Proof.
  destruct (load_one_shape w folder_path file_name st) as [H | (? & ? & ? & ? & H)];
    rewrite H; intros [= <-]; reflexivity.
Qed.

(** The loop: the progress pairs it sends, how it ends, and how many times
    it has read the flag by then. *)
Lemma for_loop_progress (w : World) (folder_path : string) (canceled : nat -> bool)
      (total : Z) (video_files : list string) :
  forall (i : nat) (st : LoaderState),
    let r := for_loop w folder_path canceled total i video_files st in
    let k := files_done canceled i (length video_files) in
    progress_of (emitted (fst (fst (fst r)))) = per_file_progress total i k /\
    (snd (fst r) = Exhausted /\ k = length video_files /\ snd r = (i + k)%nat \/
     snd (fst r) = Break /\ (k < length video_files)%nat /\ snd r = S (i + k)).
Proof.
  induction video_files as [|f rest IH]; intros i st; simpl.
  - split; [reflexivity|]. left. repeat split. lia.
  - destruct (canceled i) eqn:C; simpl.
    + split; [reflexivity|]. right. repeat split; lia.
    + destruct (load_one_shape w folder_path f st) as [H | (? & ? & ? & ? & H)];
        destruct (load_one w folder_path f st) as [[acts|] st1]; simpl in H;
        try discriminate; injection H as ->;
        specialize (IH (S i) st1);
        destruct (for_loop w folder_path canceled total (S i) rest st1)
          as [[[more st2] ex] reads]; simpl in *;
        destruct IH as [IH1 IH2]; (split;
          [ unfold per_file_progress in *; simpl; rewrite IH1; reflexivity
          | destruct IH2 as [(-> & E & ->) | (-> & E & ->)];
            [left | right]; repeat split; lia ]).
Qed.

Lemma loader_program_mono (acts : list Action) :
  forall seen seen' : list Event,
    (forall p, existsb (is_video_loaded p) seen = true ->
               existsb (is_video_loaded p) seen' = true) ->
    loader_program seen acts -> loader_program seen' acts.
Proof.
  induction acts as [|[e|p] acts IH]; intros seen seen' Hsub; simpl; [tauto| |].
  - assert (Hsub' : forall p, existsb (is_video_loaded p) (seen ++ [e]) = true ->
                              existsb (is_video_loaded p) (seen' ++ [e]) = true).
    { intros p. rewrite !existsb_app, !orb_true_iff. intros [H|H]; auto. }
    destruct e; [apply (IH _ _ Hsub') | tauto | apply (IH _ _ Hsub')].
  - intros [H1 H2]. split; [auto | apply (IH _ _ Hsub H2)].
Qed.

Lemma loader_program_snoc (acts : list Action) (current total : Z) :
  forall seen, loader_program seen acts ->
               loader_program seen (acts ++ [Emit (load_progress current total)]).
Proof.
  induction acts as [|[e|p] acts IH]; intros seen; simpl; [tauto| |].
  - destruct e; auto.
  - intros [H1 H2]. auto.
Qed.

Lemma for_loop_program (w : World) (folder_path : string) (canceled : nat -> bool)
      (total : Z) (video_files : list string) :
  forall (i : nat) (st : LoaderState) (seen : list Event),
    loader_program seen
      (fst (fst (fst (for_loop w folder_path canceled total i video_files st)))).
Proof.
  induction video_files as [|f rest IH]; intros i st seen; simpl; [exact I|].
  destruct (canceled i); simpl; [exact I|].
  destruct (load_one_shape w folder_path f st) as [H | (? & ? & ? & ? & H)];
    destruct (load_one w folder_path f st) as [[acts|] st1]; simpl in H;
    try discriminate; injection H as ->;
    specialize (IH (S i) st1);
    destruct (for_loop w folder_path canceled total (S i) rest st1)
      as [[[more st2] ex] reads]; simpl in *.
  - apply IH.
  - split; [|apply IH].
    rewrite existsb_app. simpl. rewrite String.eqb_refl. apply orb_true_r.
Qed.

Lemma _load_videos_async_program (w : World) (folder_path : string)
      (video_files : list string) (canceled : nat -> bool) (st : LoaderState) :
  loader_program [] (fst (_load_videos_async w folder_path video_files canceled st)).
Proof.
  unfold _load_videos_async.
  pose proof (for_loop_program w folder_path canceled (Z.of_nat (length video_files))
                               video_files 0 st) as P.
  destruct (for_loop w folder_path canceled _ 0 video_files st)
    as [[[acts st'] ex] reads]; simpl in *.
  assert (G : forall last, last = [] \/ (exists c t, last = [Emit (load_progress c t)]) ->
              loader_program ([] ++ [load_progress 0 (Z.of_nat (length video_files))])
                             (acts ++ last)).
  { intros last [-> | (c & t & ->)].
    - rewrite app_nil_r. apply P.
    - apply loader_program_snoc, P. }
  apply G. destruct ex; [| |left; reflexivity];
    (destruct (canceled reads); [left; reflexivity | right; eauto]).
Qed.

Lemma files_done_le (canceled : nat -> bool) (n : nat) :
  forall i, (files_done canceled i n <= n)%nat.
Proof.
  induction n as [|n IH]; intros i; simpl; [lia|].
  destruct (canceled i); [lia | specialize (IH (S i)); lia].
Qed.

Lemma files_done_never_canceled (canceled : nat -> bool) (n : nat) :
  (forall j, canceled j = false) -> forall i, files_done canceled i n = n.
Proof.
  intros H. induction n as [|n IH]; intros i; simpl; [reflexivity|].
  rewrite H, IH. reflexivity.
Qed.

Lemma per_file_progress_sorted (total : Z) (k : nat) :
  forall (i : nat) (last : list (Z * Z)),
    Sorted Z.le (map fst last) ->
    (forall x, In x (map fst last) -> Z.of_nat (i + k) <= x) ->
    Sorted Z.le (map fst (per_file_progress total i k ++ last)).
Proof.
  unfold per_file_progress.
  induction k as [|k IH]; intros i last Hs Hl; simpl; [exact Hs|].
  constructor.
  - apply IH; [exact Hs|]. intros x Hx. specialize (Hl x Hx). lia.
  - destruct k as [|k]; simpl.
    + destruct last as [|[c t] last]; simpl; constructor.
      simpl in Hl. specialize (Hl c (or_introl eq_refl)). lia.
    + constructor. lia.
Qed.

Lemma per_file_progress_increasing (total : Z) (k : nat) :
  forall i, StronglySorted Z.lt (map fst (per_file_progress total i k)).
Proof.
  unfold per_file_progress.
  induction k as [|k IH]; intros i; simpl; constructor; [apply IH|].
  apply List.Forall_forall. intros x Hx.
  rewrite map_map in Hx. apply in_map_iff in Hx as (j & <- & Hj).
  apply in_seq in Hj. simpl. lia.
Qed.

Lemma per_file_progress_nth (total : Z) (k j : nat) :
  (j < k)%nat ->
  nth_error (per_file_progress total 0 k) j = Some (Z.of_nat j + 1, total).
Proof.
  intros H. unfold per_file_progress.
  rewrite nth_error_map, nth_error_seq.
  destruct (Nat.ltb_spec j k); [reflexivity | lia].
Qed.

(** What the loading thread has emitted so far is a beginning of what its
    program emits; thumbnail workers add no progress signal. *)
Lemma steps_progress (program : list Action) (cache : gmap ThumbKey QPixmap)
      (s : System) :
  steps (start program cache) s ->
  exists done,
    program = done ++ main_thread s /\
    progress_of (signals s) = progress_of (emitted done).
Proof.
  intros H. remember (start program cache) as s0 eqn:E.
  induction H as [s | s1 s2 s3 H12 IH H23].
  - subst s. exists []. split; reflexivity.
  - specialize (IH E). destruct IH as (done & Hp & Hs).
    destruct H23 as [e rest pool c sigs | p rest pool c sigs | w main before p after c sigs];
      simpl in *.
    + exists (done ++ [Emit e]). rewrite <- app_assoc. split; [exact Hp|].
      rewrite emitted_app, !progress_of_app, Hs. reflexivity.
    + exists (done ++ [Submit p]). rewrite <- app_assoc. split; [exact Hp|].
      rewrite emitted_app, progress_of_app, Hs. simpl. rewrite app_nil_r. reflexivity.
    + exists done. split; [exact Hp|].
      rewrite progress_of_app, Hs. unfold _extract_and_callback.
      destruct (extract_thumbnail w p default_position default_size c) as [[t|] c'];
        simpl; apply app_nil_r.
Qed.

(** C5.  The progress signals of one request, in the order the loading
    thread emits them, are: [(0, total)]; then [(1, total)], [(2, total)],
    ... one for each file the loop got through, in the order of the
    files; then, when the flag is clear at the last read, [(total, total)].
    The counter never decreases along the whole sequence and increases
    strictly along the per-file signals.  When the flag is never set, there
    is one per-file signal for each file of the list and the sequence ends
    with [(total, total)].  Whatever the thumbnail workers do meanwhile,
    the progress signals emitted so far are a beginning of this sequence,
    and all of it once the loading thread has finished. *)
Theorem progress_signals_in_order (w : World) (folder_path : string)
        (video_files : list string) (canceled : nat -> bool) (st : LoaderState) :
  let total := Z.of_nat (length video_files) in
  let program := fst (_load_videos_async w folder_path video_files canceled st) in
  let progress := progress_of (emitted program) in
  let k := files_done canceled 0 (length video_files) in
  (exists last,
     progress = (0, total) :: per_file_progress total 0 k ++ last /\
     (last = [] \/ last = [(total, total)])) /\
  (k <= length video_files)%nat /\
  (forall j, (j < k)%nat ->
             nth_error (per_file_progress total 0 k) j = Some (Z.of_nat j + 1, total)) /\
  StronglySorted Z.lt (map fst (per_file_progress total 0 k)) /\
  Sorted Z.le (map fst progress) /\
  ((forall j, canceled j = false) ->
   progress = (0, total) :: per_file_progress total 0 (length video_files)
                ++ [(total, total)]) /\
  (forall cache s,
     steps (start program cache) s ->
     exists rest,
       progress = progress_of (signals s) ++ rest /\
       (main_thread s = [] -> rest = [])).
Proof.
  intros total program progress k.
  assert (Hk : (k <= length video_files)%nat) by apply files_done_le.
  assert (Hshape : exists last,
             progress = (0, total) :: per_file_progress total 0 k ++ last /\
             (last = [] \/ last = [(total, total)]) /\
             ((forall j, canceled j = false) -> last = [(total, total)])).
  { subst progress program. unfold _load_videos_async. fold total.
    pose proof (for_loop_progress w folder_path canceled total video_files 0 st) as P.
    simpl in P. fold k in P.
    destruct (for_loop w folder_path canceled total 0 video_files st)
      as [[[acts st'] ex] reads]; simpl in *.
    destruct P as [P1 P2].
    assert (Hex : ex <> Raised) by (destruct P2 as [(-> & _) | (-> & _)]; discriminate).
    rewrite emitted_app, progress_of_app, P1.
    destruct ex; [| |congruence];
      (destruct (canceled reads) eqn:C; simpl;
       [ exists []; split; [reflexivity|]; split; [left; reflexivity|];
         intros Hn; rewrite Hn in C; discriminate
       | exists [(total, total)]; split; [reflexivity|]; split; [right|]; reflexivity ]). }
  destruct Hshape as (last & Hp & Hlast & Hnever).
  split_and!.
  - exists last. split; assumption.
  - exact Hk.
  - intros j Hj. apply per_file_progress_nth. exact Hj.
  - apply per_file_progress_increasing.
  - rewrite Hp. simpl. constructor.
    + apply per_file_progress_sorted.
      * destruct Hlast as [-> | ->]; simpl; repeat constructor.
      * destruct Hlast as [-> | ->]; simpl; [tauto|]. intros x [<- | []].
        subst total. lia.
    + destruct k as [|k']; simpl.
      * destruct Hlast as [-> | ->]; simpl; constructor. subst total. lia.
      * constructor. lia.
  - intros Hn. rewrite Hp, (Hnever Hn).
    subst k. rewrite (files_done_never_canceled _ _ Hn). reflexivity.
  - intros cache s Hs.
    destruct (steps_progress _ _ _ Hs) as (done & Hd & Hsig).
    exists (progress_of (emitted (main_thread s))). split.
    + subst progress. rewrite Hd at 1. rewrite emitted_app, progress_of_app, Hsig.
      reflexivity.
    + intros ->. reflexivity.
Qed.





(** ** Signals of one file *)

Lemma is_video_loaded_In (p : string) (sigs : list Event) :
  existsb (is_video_loaded p) sigs = true ->
  exists file_name size duration watched tags,
    In (video_loaded p file_name None size duration watched tags) sigs.
Proof.
  rewrite existsb_exists. intros (e & He & Hp).
  destruct e as [q name [t|] sz du wa tg | |]; simpl in Hp; try discriminate.
  apply String.eqb_eq in Hp. subst q. eauto 10.
Qed.

Lemma item_before_thumbnail_snoc (sigs : list Event) (e : Event) :
  item_before_thumbnail sigs ->
  (forall p pixmap, e = thumbnail_loaded p pixmap ->
                    existsb (is_video_loaded p) sigs = true) ->
  item_before_thumbnail (sigs ++ [e]).
Proof.
  intros Hinv He before p pixmap after Heq.
  destruct after as [|x after' _] using rev_ind.
  - apply app_inj_tail in Heq as [Hb Hl]. subst before e.
    apply is_video_loaded_In. apply (He p pixmap). reflexivity.
  - rewrite app_comm_cons, app_assoc in Heq.
    apply app_inj_tail in Heq as [Heq _].
    apply (Hinv before p pixmap after'). exact Heq.
Qed.

Lemma _extract_and_callback_signal (w : World) (p : string)
      (cache : gmap ThumbKey QPixmap) :
  fst (_extract_and_callback w p cache) = [] \/
  exists pixmap, fst (_extract_and_callback w p cache) = [thumbnail_loaded p pixmap].
Proof.
  unfold _extract_and_callback.
  destruct (extract_thumbnail w p default_position default_size cache) as [[t|] c];
    simpl; eauto.
Qed.

Lemma existsb_snoc_mono (p : string) (sigs more : list Event) :
  existsb (is_video_loaded p) sigs = true ->
  existsb (is_video_loaded p) (sigs ++ more) = true.
Proof. intros H. rewrite existsb_app, H. reflexivity. Qed.

Lemma step_keeps_invariant (s s' : System) :
  step s s' -> signals_invariant s -> signals_invariant s'.
Proof.
  unfold signals_invariant.
  intros [e rest pool c sigs | p rest pool c sigs | w main before p after c sigs];
    simpl; intros (Hi & Hpool & Hmain).
  - split_and!.
    + apply item_before_thumbnail_snoc; [exact Hi|].
      intros q pm ->. simpl in Hmain. contradiction.
    + eapply List.Forall_impl; [|exact Hpool]. intros q. apply existsb_snoc_mono.
    + destruct e; simpl in Hmain; [exact Hmain | contradiction | exact Hmain].
  - destruct Hmain as [Hp Hrest]. split_and!; [exact Hi | | exact Hrest].
    apply List.Forall_app. split; [exact Hpool | constructor; [exact Hp | constructor]].
  - apply List.Forall_app in Hpool as [Hb Ha].
    apply List.Forall_cons_iff in Ha as [Hp Ha].
    assert (Hmono : forall q, existsb (is_video_loaded q) sigs = true ->
              existsb (is_video_loaded q)
                      (sigs ++ fst (_extract_and_callback w p c)) = true).
    { intros q. apply existsb_snoc_mono. }
    split_and!.
    + destruct (_extract_and_callback_signal w p c) as [-> | [pm ->]].
      * rewrite app_nil_r. exact Hi.
      * apply item_before_thumbnail_snoc; [exact Hi|]. intros q pm' [= -> _]. exact Hp.
    + apply List.Forall_app.
      split; [apply (List.Forall_impl _ Hmono Hb) | apply (List.Forall_impl _ Hmono Ha)].
    + eapply loader_program_mono; [exact Hmono | exact Hmain].
Qed.

(** C3.  In every state that one request can reach, with the thumbnail
    workers finishing in any order and at any moment, each
    [thumbnail_loaded] signal of a file is preceded by a [video_loaded]
    signal of that file.  The catalog the request starts from is
    arbitrary, so this covers files that get a new entry and files that
    have one. *)
Theorem item_ready_before_thumbnail_ready (w : World) (folder_path : string)
        (video_files : list string) (canceled : nat -> bool) (st : LoaderState)
        (cache : gmap ThumbKey QPixmap) (s : System) :
  steps (start (fst (_load_videos_async w folder_path video_files canceled st)) cache) s ->
  item_before_thumbnail (signals s).
Proof.
  intros H.
  assert (Hinv : signals_invariant s); [|exact (proj1 Hinv)].
  remember (start _ cache) as s0 eqn:E.
  induction H as [s | s1 s2 s3 H12 IH H23].
  - subst s. unfold signals_invariant, start. simpl. split_and!.
    + intros [|x before] p pm after Heq; discriminate.
    + constructor.
    + apply _load_videos_async_program.
  - apply (step_keeps_invariant s2 s3 H23). apply IH. exact E.
Qed.

Lemma nth_error_cut {A : Type} (l : list A) :
  forall (n : nat) (a : A),
    nth_error l n = Some a -> l = firstn n l ++ a :: skipn (S n) l.
Proof.
  induction l as [|x l IH]; intros [|n] a; simpl; try discriminate.
  - intros [= ->]. reflexivity.
  - intros H. f_equal. apply IH. exact H.
Qed.

(** A schedule that runs is a run of the program. *)
Lemma schedule_step_sound (s s' : System) (c : Choice) :
  schedule_step s c = Some s' -> step s s'.
Proof.
  destruct s as [main pool cache sigs]. destruct c as [|w n]; simpl.
  - destruct main as [|[e|p] rest]; intros [= <-]; constructor.
  - destruct (nth_error pool n) as [p|] eqn:E; intros [= <-].
    pose proof (nth_error_cut pool n p E) as Hcut.
    set (before := firstn n pool) in *. set (after := skipn (S n) pool) in *.
    clearbody before after. subst pool. constructor.
Qed.

Lemma schedule_run_sound (cs : list Choice) :
  forall s s', schedule_run s cs = Some s' -> steps s s'.
Proof.
  assert (G : forall s0 s s', steps s0 s -> schedule_run s cs = Some s' -> steps s0 s').
  { induction cs as [|c cs IH]; intros s0 s s' H0; simpl.
    - intros [= <-]. exact H0.
    - destruct (schedule_step s c) as [s1|] eqn:E; [|discriminate].
      apply IH. econstructor; [exact H0 | apply (schedule_step_sound _ _ _ E)]. }
  intros s s'. apply G. constructor.
Qed.

(** ** Instances *)

Import Examples Runs.

(** The placeholder for the unreadable [a.mp4]. *)
Lemma extract_thumbnail_placeholder_witness :
  extract_thumbnail world_unreadable a_path default_position default_size ∅
  = (Ok (Some (Filled 320 180 darkGray)), ∅) /\
  pixmap_size (placeholder default_size) = default_size.
Proof.
  destruct (extract_thumbnail_placeholder world_unreadable a_path default_position
                                          default_size ∅) as (_ & _ & _ & H).
  destruct H as [H1 H2].
  - vm_compute. reflexivity.
  - vm_compute. reflexivity.
  - right. exists closed_cap. split; [reflexivity | left; reflexivity].
  - split; [exact H1 | apply H2; reflexivity].
Defined.

(** C1 as stated fails: [b.mkv] does not exist in this world, its
    container cannot be opened, and [extract_thumbnail] returns [None]. *)
Lemma extract_thumbnail_of_missing_file_is_None :
  os_path_exists world_unreadable b_path = false /\
  fst (extract_thumbnail world_unreadable b_path default_position default_size ∅)
  = Ok None.
Proof. split; vm_compute; reflexivity. Qed.

(** The fallback record for [a.mp4] when OpenCV raises. *)
Lemma probe_fails_soft_witness :
  fst (get_video_metadata world_raising a_path fresh)
  = Ok (Some {| md_width := 1280; md_height := 720; md_fps := 30; md_duration := 60;
                md_size := 5000; md_date_modified := ctime 1700000000;
                md_date_created := ctime 1690000000 |}).
Proof.
  destruct (probe_fails_soft world_raising a_path fresh eq_refl) as (_ & _ & H).
  destruct (H a_stat) as [_ H2].
  - vm_compute. reflexivity.
  - vm_compute. reflexivity.
  - destruct H2 as [H2 _]; [left; reflexivity | exact H2].
Defined.

(** C2 as stated fails: [a.mp4] exists, neither backend opens it, and the
    probe returns [None], not the fallback record. *)
Lemma unopenable_file_probe_gives_None :
  os_path_exists world_unreadable a_path = true /\
  cannot_open world_unreadable a_path /\
  fst (get_video_metadata world_unreadable a_path fresh) = Ok None.
Proof.
  split; [vm_compute; reflexivity|]. split; [|vm_compute; reflexivity].
  exists closed_cap, closed_cap. repeat split.
Qed.

(** C6, which the code does not meet. The [lru_cache] wrapper remembers
    what the probe returned for a path, [None] included, and answers later
    calls from memory. Probed while [a.mp4] does not exist, the path gives
    [None] and the wrapper remembers it; probed again once the file exists
    and is sound, the path still gives [None], although a first probe in
    that world gives the metadata. Symmetrically, metadata remembered
    while the file existed is returned after the file is gone. *)
Theorem missing_path_probe_is_remembered :
  let st1 := snd (get_video_metadata world_without_files a_path fresh) in
  let st2 := snd (get_video_metadata world_sound a_path fresh) in
  os_path_exists world_without_files a_path = false /\
  fst (get_video_metadata world_without_files a_path fresh) = Ok None /\
  lru_lookup a_path (lru_entries st1) = Some None /\
  os_path_exists world_sound a_path = true /\
  fst (get_video_metadata world_sound a_path st1) = Ok None /\
  fst (get_video_metadata world_sound a_path fresh) = Ok (Some a_metadata) /\
  fst (get_video_metadata world_without_files a_path st2) = Ok (Some a_metadata) /\
  fst (get_video_metadata world_without_files a_path
         (fst (clear_caches st2 ∅))) = Ok (Some a_metadata).
Proof. repeat split; vm_compute; reflexivity. Qed.

(** A probe that finds [_metadata_cache] with a hundred entries leaves
    the new entry alone in it. *)
Lemma full_cache_is_cleared :
  size full_cache = 100%nat /\
  _metadata_cache
    (snd (get_video_metadata world_sound a_path
            {| _metadata_cache := full_cache; lru_entries := [] |}))
  = {[ a_path := a_metadata ]}.
Proof. split; vm_compute; reflexivity. Qed.



(** [a.mp4] added again: row 1, watched at position 42, gives way to row 2
    with the defaults. *)
Lemma add_video_replaces_row_witness :
  exists old new,
    Database.videos catalog_with_a = [old] /\
    Database.id old = 1 /\ Database.watched old = 1 /\ Database.last_position old = 42 /\
    Database.videos
      (snd (Database.add_video catalog_with_a a_path "a.mp4" "/videos" 5000 10
                               (ctime 1690000000) (ctime 1700000000))) = [new] /\
    Database.id new = 2 /\ Database.watched new = 0 /\
    Database.last_watched new = None /\ Database.last_position new = 0.
Proof.
  eexists. 
  destruct (add_video_replaces_row catalog_with_a a_path "a.mp4" "/videos" 5000 10
              (ctime 1690000000) (ctime 1700000000) _ eq_refl)
    as (new & Hf & _ & Hid & _ & _ & _ & Hw & Hl & Hp & _).
  exists new. split_and!; try reflexivity; assumption.
Defined.


(** The signals of the interleaved run: the thumbnail of [b.mkv] arrives
    before the one of [a.mp4], each after the [video_loaded] signal of its
    file. *)
Lemma interleaved_run_signals :
  main_thread interleaved_run = [] /\
  thread_pool interleaved_run = [] /\
  signals interleaved_run
  = [load_progress 0 2;
     video_loaded a_path "a.mp4" None 5000 (300 # 30) false [];
     load_progress 1 2;
     video_loaded b_path "b.mkv" None 5000 (300 # 30) false [];
     load_progress 2 2;
     thumbnail_loaded b_path
       (Some (FromImage {| frame_height := 180; frame_width := 320 |}));
     load_progress 2 2;
     thumbnail_loaded a_path
       (Some (FromImage {| frame_height := 180; frame_width := 320 |}))].
Proof. repeat split; vm_compute; reflexivity. Qed.

Lemma item_ready_before_thumbnail_ready_witness :
  item_before_thumbnail (signals interleaved_run).
Proof.
  apply (item_ready_before_thumbnail_ready world_sound "/videos" ["a.mp4"; "b.mkv"]
           never_canceled empty_loader ∅ interleaved_run).
  apply (schedule_run_sound interleaved_schedule).
  vm_compute. reflexivity.
Defined.

(** The progress signals of the request for two files. *)
Lemma two_files_progress :
  progress_of (emitted two_files_program) = [(0, 2); (1, 2); (2, 2); (2, 2)].
Proof. vm_compute. reflexivity. Qed.

(** C8.  [is_video_file] answers [True] exactly for the paths whose
    extension ([os.path.splitext], POSIX or Windows) is one of the twelve
    entries of [SUPPORTED_VIDEO_EXTENSIONS] written in some letter case,
    and [False] for every other path; the filter of
    [load_videos_in_folder] keeps [a.mp4] and [c.mkv] and drops [b.txt],
    in whatever folder they are. *)
Theorem is_video_file_supported_extensions :
  length SUPPORTED_VIDEO_EXTENSIONS = 12%nat /\
  (forall (fl : OsPath.flavour) (file_path : string),
     is_video_file fl file_path = true <->
     exists e, In e SUPPORTED_VIDEO_EXTENSIONS /\
               same_up_to_case (snd (OsPath.splitext fl file_path)) e) /\
  (forall (fl : OsPath.flavour) (file_path : string),
     is_video_file fl file_path = false <->
     ~ exists e, In e SUPPORTED_VIDEO_EXTENSIONS /\
                 same_up_to_case (snd (OsPath.splitext fl file_path)) e) /\
  (forall folder_path : string,
     video_files_of folder_path ["a.mp4"; "b.txt"; "c.mkv"] = ["a.mp4"; "c.mkv"]).
Proof.
  split; [reflexivity|]. split; [apply is_video_file_spec|]. split.
  - intros fl p. rewrite <- is_video_file_spec.
    destruct (is_video_file fl p); split; congruence.
  - apply listing_example_raw.
Qed.

(** Extensions in upper and mixed case, a leading-dot name and a text
    file. *)
Lemma is_video_file_examples :
  is_video_file OsPath.Posix "/videos/Trip.MP4" = true /\
  is_video_file OsPath.Nt "C:\videos\clip.WebM" = true /\
  is_video_file OsPath.Posix "/videos/notes.txt" = false /\
  is_video_file OsPath.Posix "/videos/.mp4" = false /\
  is_video_file OsPath.Posix "/videos.mp4/readme" = false.
Proof. repeat split; vm_compute; reflexivity. Qed.

(** * Proofs about the surrounding code *)

(** ** The formatters *)

Import Format.













(** ** More on the metadata probe *)




Lemma store_limited_lookup {K V : Type} `{Countable K} (key : K) (value : V)
      (cache : gmap K V) :
  store_limited key value cache !! key = Some value.
Proof. unfold store_limited. apply lookup_insert_eq. Qed.

Lemma store_limited_lookup_other {K V : Type} `{Countable K} (key k : K) (value v : V)
      (cache : gmap K V) :
  k <> key -> store_limited key value cache !! k = Some v -> cache !! k = Some v.
Proof.
  unfold store_limited. intros Hne. rewrite lookup_insert_ne by congruence.
  destruct (_CACHE_SIZE_LIMIT <=? size cache)%nat; [|tauto].
  rewrite lookup_empty. discriminate.
Qed.




(** ** The memory of [functools.lru_cache] *)

Lemma lru_lookup_firstn {V : Type} (key : string) (v : V) (entries : list (string * V)) :
  forall n m : nat,
    (n <= m)%nat ->
    lru_lookup key (firstn n entries) = Some v ->
    lru_lookup key (firstn m entries) = Some v.
Proof.
  induction entries as [|[k x] rest IH]; intros n m Hnm E.
  - rewrite firstn_nil in E. discriminate.
  - destruct n as [|n]; [discriminate|]. destruct m as [|m]; [lia|].
    cbn [firstn lru_lookup] in *.
    destruct (String.eqb k key); [exact E|]. apply (IH n m); [lia | exact E].
Qed.

Lemma lru_lookup_prefix {V : Type} (key : string) (v : V) (entries : list (string * V))
      (n : nat) :
  lru_lookup key (firstn n entries) = Some v -> lru_lookup key entries = Some v.
Proof.
  intros E. rewrite <- (firstn_all entries).
  destruct (Nat.le_gt_cases n (length entries)) as [Hle | Hgt].
  - apply (lru_lookup_firstn key v entries n _ Hle E).
  - rewrite firstn_all. rewrite firstn_all2 in E by lia. exact E.
Qed.

Lemma lru_lookup_remove {V : Type} (key other : string) (v : V)
      (entries : list (string * V)) :
  other <> key ->
  forall n : nat,
    lru_lookup key (firstn n entries) = Some v ->
    lru_lookup key (firstn n (lru_remove other entries)) = Some v.
Proof.
  intros Hne. induction entries as [|[k x] rest IH]; intros n E.
  - rewrite firstn_nil in E. discriminate.
  - destruct n as [|n]; [discriminate|].
    cbn [firstn lru_lookup] in E. unfold lru_remove in *. cbn [List.filter fst].
    destruct (String.eqb k other) eqn:Eo; cbn [negb].
    + apply String.eqb_eq in Eo. subst k.
      destruct (String.eqb other key) eqn:Ek;
        [apply String.eqb_eq in Ek; congruence|].
      apply (lru_lookup_firstn key v _ n (S n)); [lia|]. apply IH, E.
    + cbn [firstn lru_lookup].
      destruct (String.eqb k key); [exact E|]. apply IH, E.
Qed.

Lemma lru_touch_first {V : Type} (key : string) (v : V) (entries : list (string * V)) :
  lru_lookup key (firstn 1 (lru_touch 100 key v entries)) = Some v.
Proof.
  unfold lru_touch. cbn [firstn lru_lookup]. rewrite String.eqb_refl. reflexivity.
Qed.

Lemma lru_touch_other {V : Type} (key other : string) (v x : V)
      (entries : list (string * V)) (n : nat) :
  other <> key -> (S n < 100)%nat ->
  lru_lookup key (firstn (S n) entries) = Some v ->
  lru_lookup key (firstn (S (S n)) (lru_touch 100 other x entries)) = Some v.
Proof.
  intros Hne Hn E. unfold lru_touch.
  rewrite firstn_firstn. replace (Init.Nat.min (S (S n)) 100) with (S (S n)) by lia.
  cbn [firstn lru_lookup].
  destruct (String.eqb other key) eqn:Ek; [apply String.eqb_eq in Ek; congruence|].
  apply lru_lookup_remove; assumption.
Qed.

(** One more call keeps a remembered answer within reach. *)
Lemma run_call_keeps_answer (p : string) (r : option Metadata) (c : Call)
      (s : MetaState * gmap ThumbKey QPixmap) (n : nat) :
  (S n < 100)%nat ->
  lru_lookup p (firstn (S n) (lru_entries (fst s))) = Some r ->
  lru_lookup p (firstn (S (S n)) (lru_entries (fst (run_call s c)))) = Some r.
Proof.
  intros Hn E.
  assert (Keep : lru_lookup p (firstn (S (S n)) (lru_entries (fst s))) = Some r)
    by (apply (lru_lookup_firstn p r _ (S n)); [lia | exact E]).
  destruct c as [w q | w q position size_ |]; cbn [run_call fst snd]; try exact Keep.
  unfold get_video_metadata.
  destruct (String.eqb q p) eqn:Eq.
  - apply String.eqb_eq in Eq. subst q.
    rewrite (lru_lookup_prefix p r _ _ E). cbn [snd lru_entries].
    apply (lru_lookup_firstn p r _ 1%nat); [lia | apply lru_touch_first].
  - assert (q <> p) by (intros ->; rewrite String.eqb_refl in Eq; discriminate).
    destruct (lru_lookup q (lru_entries (fst s))) as [x|]; cbn [snd lru_entries].
    + apply lru_touch_other; assumption.
    + destruct (get_video_metadata_body w q (_metadata_cache (fst s))) as [[x|] cache'];
        cbn [snd lru_entries]; [apply lru_touch_other; assumption | exact Keep].
Qed.

Lemma run_calls_keep_answer (p : string) (r : option Metadata) (calls : list Call) :
  forall (s : MetaState * gmap ThumbKey QPixmap) (n : nat),
    (n + length calls < 100)%nat ->
    lru_lookup p (firstn (S n) (lru_entries (fst s))) = Some r ->
    lru_lookup p (lru_entries (fst (fold_left run_call calls s))) = Some r.
Proof.
  induction calls as [|c calls IH]; intros s n Hn E; cbn [fold_left].
  - apply (lru_lookup_prefix p r _ _ E).
  - cbn [length] in Hn. apply (IH _ (S n)); [lia|].
    apply run_call_keeps_answer; [lia | exact E].
Qed.

(** X4. The answer of a probe is kept through the next 99 calls into
    [video_utils], whatever they are and whatever happens to the file:
    asked again, [get_video_metadata] gives the same answer without
    looking at the file system, also after [clear_caches]. *)
Theorem probe_answer_is_kept (w w' : World) (file_path : string) (st : MetaState)
        (thumbs : gmap ThumbKey QPixmap) (calls : list Call) :
  (length calls <= 99)%nat ->
  let after := fold_left run_call calls (snd (get_video_metadata w file_path st), thumbs) in
  fst (get_video_metadata w' file_path (fst after))
  = fst (get_video_metadata w file_path st).
Proof.
  intros Hn after.
  destruct (get_video_metadata_never_raises w file_path st) as [r Hr].
  rewrite Hr.
  assert (E : lru_lookup file_path
                (firstn 1 (lru_entries (snd (get_video_metadata w file_path st))))
              = Some r).
  { revert Hr. unfold get_video_metadata.
    destruct (lru_lookup file_path (lru_entries st)) as [x|]; cbn [fst snd lru_entries].
    - intros [= ->]. apply lru_touch_first.
    - destruct (get_video_metadata_body w file_path (_metadata_cache st))
        as [[x|] cache']; cbn [fst snd lru_entries]; [|discriminate].
      intros [= ->]. apply lru_touch_first. }
  assert (L : lru_lookup file_path (lru_entries (fst after)) = Some r).
  { apply (run_calls_keep_answer file_path r calls _ 0%nat); [lia | exact E]. }
  unfold get_video_metadata at 1. rewrite L. reflexivity.
Qed.

Lemma probe_answer_is_kept_witness :
  fst (get_video_metadata world_without_files a_path
         (fst (fold_left run_call
                 [call_get_video_metadata world_sound b_path; call_clear_caches]
                 (snd (get_video_metadata world_sound a_path fresh), ∅))))
  = Ok (Some a_metadata).
Proof.
  rewrite (probe_answer_is_kept world_sound world_without_files a_path fresh ∅
             [call_get_video_metadata world_sound b_path; call_clear_caches]).
  - vm_compute. reflexivity.
  - cbn [length]. lia.
Defined.

Lemma ahead_shorter {V : Type} (p : string) (entries : list (string * V)) (r : V) :
  lru_lookup p entries = Some r -> (length (ahead p entries) < length entries)%nat.
Proof.
  induction entries as [|[k x] rest IH]; cbn; [discriminate|].
  destruct (String.eqb k p); cbn; [lia|]. intros E. specialize (IH E). lia.
Qed.

Lemma ahead_firstn {V : Type} (p : string) (entries : list (string * V)) (r : V) :
  forall n : nat,
    lru_lookup p (firstn n entries) = Some r ->
    ahead p (firstn n entries) = ahead p entries.
Proof.
  induction entries as [|[k x] rest IH]; intros n E.
  - rewrite firstn_nil. reflexivity.
  - destruct n as [|n]; [discriminate|]. cbn [firstn lru_lookup ahead] in *.
    destruct (String.eqb k p); [reflexivity|]. f_equal. apply IH, E.
Qed.

Lemma ahead_remove {V : Type} (p other q : string) (entries : list (string * V)) :
  q <> other -> In q (ahead p entries) -> In q (ahead p (lru_remove other entries)).
Proof.
  intros Hne. induction entries as [|[k x] rest IH]; cbn; [tauto|].
  unfold lru_remove in *. cbn [List.filter fst].
  destruct (String.eqb k p) eqn:Ep; [intros []|].
  intros [-> | Hin].
  - replace (String.eqb q other) with false by (symmetry; apply String.eqb_neq, Hne).
    cbn [negb ahead]. rewrite Ep. left. reflexivity.
  - destruct (String.eqb k other); cbn [negb ahead]; [apply IH, Hin|].
    rewrite Ep. right. apply IH, Hin.
Qed.

Lemma lru_lookup_remove_same {V : Type} (p : string) (entries : list (string * V)) :
  lru_lookup p (lru_remove p entries) = None.
Proof.
  unfold lru_remove. induction entries as [|[k x] rest IH]; cbn; [reflexivity|].
  destruct (String.eqb k p) eqn:Ek; cbn; [exact IH|]. rewrite Ek. exact IH.
Qed.

Lemma lru_lookup_remove_inv {V : Type} (p other : string) (entries : list (string * V))
      (r : V) :
  lru_lookup p (lru_remove other entries) = Some r -> lru_lookup p entries = Some r.
Proof.
  destruct (String.eqb other p) eqn:Eop.
  { apply String.eqb_eq in Eop. subst other. rewrite lru_lookup_remove_same. discriminate. }
  induction entries as [|[k x] rest IH]; cbn; [discriminate|].
  unfold lru_remove in *. cbn [List.filter fst].
  destruct (String.eqb k other) eqn:Eo; cbn [negb].
  - apply String.eqb_eq in Eo. subst k. rewrite Eop. exact IH.
  - cbn [lru_lookup]. destruct (String.eqb k p); [tauto | exact IH].
Qed.

(** A probe of another path puts that path ahead, and keeps ahead what
    was ahead, as long as the entry of [p] is kept. *)
Lemma lru_touch_ahead {V : Type} (p other : string) (x r : V)
      (entries : list (string * V)) :
  other <> p ->
  lru_lookup p (lru_touch 100 other x entries) = Some r ->
  lru_lookup p entries = Some r /\
  forall q, q = other \/ In q (ahead p entries) ->
            In q (ahead p (lru_touch 100 other x entries)).
Proof.
  intros Hne E. unfold lru_touch in *.
  rewrite (ahead_firstn p _ r 100 E).
  apply lru_lookup_prefix in E. cbn [lru_lookup ahead] in *.
  replace (String.eqb other p) with false in * by (symmetry; apply String.eqb_neq, Hne).
  split; [apply (lru_lookup_remove_inv p other), E|].
  intros q [-> | Hq]; [left; reflexivity|].
  destruct (String.eqb q other) eqn:Eq.
  - apply String.eqb_eq in Eq. left. congruence.
  - right. apply ahead_remove; [apply String.eqb_neq, Eq | exact Hq].
Qed.

Lemma run_calls_ahead (p : string) (calls : list Call) :
  ~ In p (probed calls) ->
  forall (s : MetaState * gmap ThumbKey QPixmap) (seen : list string) (r : option Metadata),
    (forall r0, lru_lookup p (lru_entries (fst s)) = Some r0 ->
                forall q, In q seen -> In q (ahead p (lru_entries (fst s)))) ->
    lru_lookup p (lru_entries (fst (fold_left run_call calls s))) = Some r ->
    forall q, In q seen \/ In q (probed calls) ->
              In q (ahead p (lru_entries (fst (fold_left run_call calls s)))).
Proof.
  induction calls as [|c calls IH]; intros Hp s seen r Hseen E q Hq; cbn [fold_left] in *.
  - destruct Hq as [Hq | []]. apply (Hseen r E q Hq).
  - destruct c as [w q' | w q' position size_ |].
    + cbn [probed flat_map app In] in Hp, Hq.
      assert (Hne : q' <> p) by tauto.
      apply (IH ltac:(tauto) _ (q' :: seen) r); [|exact E |cbn [In]; tauto].
      intros r0 E0 q0 Hq0. cbn [run_call fst snd] in *.
      destruct (get_video_metadata_never_raises w q' (fst s)) as [x Hx].
      revert E0 Hx. unfold get_video_metadata.
      destruct (lru_lookup q' (lru_entries (fst s))) as [y|]; cbn [fst snd lru_entries].
      * intros E0 _. destruct (lru_touch_ahead p q' y r0 _ Hne E0) as [E1 Hah].
        apply Hah. destruct Hq0 as [<- | Hq0]; [left; reflexivity|].
        right. apply (Hseen r0 E1 q0 Hq0).
      * destruct (get_video_metadata_body w q' (_metadata_cache (fst s)))
          as [[y|] cache']; cbn [fst snd lru_entries]; [|discriminate].
        intros E0 _. destruct (lru_touch_ahead p q' y r0 _ Hne E0) as [E1 Hah].
        apply Hah. destruct Hq0 as [<- | Hq0]; [left; reflexivity|].
        right. apply (Hseen r0 E1 q0 Hq0).
    + apply (IH Hp _ seen r); [exact Hseen | exact E | exact Hq].
    + apply (IH Hp _ seen r); [exact Hseen | exact E | exact Hq].
Qed.

Lemma run_call_lru_bound (s : MetaState * gmap ThumbKey QPixmap) (c : Call) :
  (length (lru_entries (fst s)) <= 100)%nat ->
  (length (lru_entries (fst (run_call s c))) <= 100)%nat.
Proof.
  intros H. destruct c as [w q | w q position size_ |]; cbn [run_call fst snd].
  - apply get_video_metadata_lru_bound, H.
  - exact H.
  - exact H.
Qed.

Lemma run_calls_lru_bound (calls : list Call) :
  forall s : MetaState * gmap ThumbKey QPixmap,
    (length (lru_entries (fst s)) <= 100)%nat ->
    (length (lru_entries (fst (fold_left run_call calls s))) <= 100)%nat.
Proof.
  induction calls as [|c calls IH]; intros s Hs; cbn [fold_left]; [exact Hs|].
  apply IH, run_call_lru_bound, Hs.
Qed.

(** X19. The memory of the probe is bounded in time as well: once a
    hundred other paths, all different, have been probed after the answer
    for a path was given, and the path itself has not been asked for
    again, its answer is forgotten; the next call for it examines the
    file again, and its result is that of the undecorated function. *)
Theorem stale_answer_expires (w' : World) (file_path : string) (st : MetaState)
        (thumbs : gmap ThumbKey QPixmap) (calls : list Call) (others : list string) :
  (length (lru_entries st) <= 100)%nat ->
  List.NoDup others -> length others = 100%nat ->
  (forall q, In q others -> In q (probed calls)) ->
  ~ In file_path (probed calls) ->
  let after := fst (fold_left run_call calls (st, thumbs)) in
  lru_lookup file_path (lru_entries after) = None /\
  fst (get_video_metadata w' file_path after)
  = fst (get_video_metadata_body w' file_path (_metadata_cache after)).
Proof.
  intros Hlen Hnd H100 Hall Hp after.
  assert (Hnone : lru_lookup file_path (lru_entries after) = None).
  { destruct (lru_lookup file_path (lru_entries after)) as [r|] eqn:E; [|reflexivity].
    exfalso.
    assert (Hin : incl others (ahead file_path (lru_entries after))).
    { intros q Hq. subst after.
      apply (run_calls_ahead file_path calls Hp (st, thumbs) [] r);
        [intros _ _ q0 [] | exact E | right; apply Hall, Hq]. }
    apply (NoDup_incl_length Hnd) in Hin.
    pose proof (ahead_shorter _ _ _ E).
    assert ((length (lru_entries after) <= 100)%nat); [|lia].
    subst after. apply run_calls_lru_bound. exact Hlen. }
  split; [exact Hnone|].
  unfold get_video_metadata. rewrite Hnone.
  destruct (get_video_metadata_body w' file_path (_metadata_cache after)) as [[r|] c];
    reflexivity.
Qed.

Lemma probed_map (w : World) (paths : list string) :
  probed (map (call_get_video_metadata w) paths) = paths.
Proof.
  induction paths as [|q paths IH]; cbn; [reflexivity|]. f_equal. exact IH.
Qed.

Lemma stale_answer_expires_witness :
  fst (get_video_metadata world_without_files a_path
         (fst (fold_left run_call
                 (map (call_get_video_metadata world_without_files) hundred_paths)
                 (snd (get_video_metadata world_sound a_path fresh), ∅))))
  = Ok None.
Proof.
  destruct (stale_answer_expires world_without_files a_path
              (snd (get_video_metadata world_sound a_path fresh)) ∅
              (map (call_get_video_metadata world_without_files) hundred_paths)
              hundred_paths) as [_ H].
  - vm_compute. lia.
  - apply NoDup_ListNoDup. apply (bool_decide_unpack _). vm_compute. reflexivity.
  - reflexivity.
  - intros q Hq. rewrite probed_map. exact Hq.
  - rewrite probed_map. intros Hin. apply list_elem_of_In in Hin. revert Hin.
    apply (bool_decide_unpack _). vm_compute. reflexivity.
  - rewrite H. unfold get_video_metadata_body.
    change (os_path_exists world_without_files a_path) with false. reflexivity.
Defined.

(** ** More on thumbnails *)

Lemma run_calls_invariant (P : MetaState * gmap ThumbKey QPixmap -> Prop) :
  P (fresh, ∅) ->
  (forall s c, P s -> P (run_call s c)) ->
  forall calls, P (run_calls calls).
Proof.
  intros H0 Hstep calls. unfold run_calls.
  generalize (fresh, ∅ : gmap ThumbKey QPixmap) H0.
  induction calls as [|c calls IH]; intros s Hs; cbn [fold_left]; [exact Hs|].
  apply IH, Hstep, Hs.
Qed.

(** [QSize::scaled] with [KeepAspectRatio] stays within the box. *)
Lemma QSize_scaled_within (from to : QSize) :
  1 <= width from -> 1 <= height from -> 1 <= width to -> 1 <= height to ->
  0 <= width (QSize_scaled from to) <= width to /\
  0 <= height (QSize_scaled from to) <= height to.
Proof.
  intros Hfw Hfh Htw Hth. unfold QSize_scaled.
  replace (width from =? 0) with false by (symmetry; apply Z.eqb_neq; lia).
  replace (height from =? 0) with false by (symmetry; apply Z.eqb_neq; lia).
  cbn [orb].
  rewrite !Z.quot_div_nonneg by nia.
  destruct (height to * width from / height from <=? width to) eqn:E;
    cbn [width height].
  - apply Z.leb_le in E.
    pose proof (Z.div_pos (height to * width from) (height from) ltac:(nia) ltac:(lia)).
    lia.
  - apply Z.leb_gt in E.
    pose proof (Z.div_pos (width to * height from) (width from) ltac:(nia) ltac:(lia)).
    assert (width to * height from / width from <= height to); [|lia].
    apply Z.div_le_upper_bound; [lia|].
    assert (width to * height from < height to * width from); [|nia].
    destruct (Z.lt_ge_cases (width to * height from) (height to * width from))
      as [?|Hge]; [assumption|].
    exfalso.
    assert (height to * width from / height from <= width to); [|lia].
    apply Z.div_le_upper_bound; [lia | nia].
Qed.

(** What [render] makes of a frame. *)
Lemma render_from_frame (frame : Frame) (size_ : QSize) (pm : QPixmap) :
  render frame size_ = Ok pm ->
  from_frame pm = true /\
  (0 < width size_ -> 0 < height size_ -> fits pm size_).
Proof.
  unfold render. intros E.
  apply bind_Ok in E as (aspect_ratio & _ & E).
  apply bind_Ok in E as ([new_width new_height] & _ & E).
  apply bind_Ok in E as (resized & Er & E).
  unfold cv2_resize in Er.
  destruct ((0 <? frame_width frame) && (0 <? frame_height frame)
            && (0 <? new_width) && (0 <? new_height)) eqn:Epos; [|discriminate].
  injection Er as <-.
  apply andb_true_iff in Epos as [Epos Eh]. apply andb_true_iff in Epos as [_ Ew].
  apply Z.ltb_lt in Ew, Eh.
  cbn [pixmap_size width height frame_width frame_height] in E.
  destruct (negb (new_width =? width size_) || negb (new_height =? height size_)) eqn:Ne;
    injection E as <-.
  - split; [reflexivity|]. intros Hw Hh. unfold fits.
    cbn [pixmap_size width height frame_width frame_height].
    replace ((new_width <? 1) || (new_height <? 1)
             || (width size_ <? 1) || (height size_ <? 1)) with false.
    + pose proof (QSize_scaled_within
                    {| width := new_width; height := new_height |} size_
                    ltac:(cbn; lia) ltac:(cbn; lia) ltac:(lia) ltac:(lia)).
      cbn [width height]. lia.
    + symmetry. rewrite !orb_false_iff, !Z.ltb_ge. lia.
  - split; [reflexivity|]. intros Hw Hh. unfold fits.
    apply orb_false_iff in Ne as [N1 N2].
    apply negb_false_iff, Z.eqb_eq in N1, N2.
    cbn [pixmap_size width height frame_width frame_height]. lia.
Qed.

(** What the [try] body of [extract_thumbnail] returns and stores. *)
Lemma extract_thumbnail_try_result (w : World) (p : string) (position : Q)
      (size_ : QSize) (cache cache' : gmap ThumbKey QPixmap) (pm : QPixmap) :
  extract_thumbnail_try w p position size_ cache = Ok (pm, cache') ->
  pm = placeholder size_ /\ cache' = cache \/
  (exists frame, render frame size_ = Ok pm) /\
  cache' = store_limited (cache_key p position size_) pm cache.
Proof.
  unfold extract_thumbnail_try. intros E.
  apply bind_Ok in E as (cap & _ & E).
  destruct (negb (isOpened cap)); [injection E as <- <-; left; split; reflexivity|].
  apply bind_Ok in E as (seek & _ & E).
  apply bind_Ok in E as ([ret frame] & _ & E).
  destruct ret; [|injection E as <- <-; left; split; reflexivity].
  destruct frame as [frame|]; [|injection E as <- <-; left; split; reflexivity].
  apply bind_Ok in E as (pixmap & Er & E).
  injection E as <- <-. right. split; [exists frame; exact Er | reflexivity].
Qed.

Lemma extract_thumbnail_keeps_ok (w : World) (p : string) (position : Q)
      (size_ : QSize) (cache : gmap ThumbKey QPixmap) :
  thumbnails_ok cache ->
  thumbnails_ok (snd (extract_thumbnail w p position size_ cache)).
Proof.
  intros Hok. unfold extract_thumbnail.
  destruct (negb (os_path_exists w p)); [exact Hok|].
  destruct (cache !! cache_key p position size_); [exact Hok|].
  destruct (extract_thumbnail_try w p position size_ cache) as [[pm cache']|] eqn:E;
    [|exact Hok].
  cbn [snd].
  apply extract_thumbnail_try_result in E as [[_ ->] | [[frame Er] ->]]; [exact Hok|].
  apply render_from_frame in Er as [Hf Hfit].
  intros q pos' w' h' pm' L.
  destruct (decide ((q, pos', w', h') = cache_key p position size_)) as [Heq | Hne].
  - rewrite Heq, store_limited_lookup in L. injection L as <-.
    unfold cache_key in Heq. injection Heq as _ _ -> ->.
    split; [exact Hf|]. intros Hw Hh. destruct size_ as [sw sh]. apply Hfit; assumption.
  - apply store_limited_lookup_other in L; [|exact Hne]. apply (Hok _ _ _ _ _ L).
Qed.

Lemma run_call_keeps_ok (s : MetaState * gmap ThumbKey QPixmap) (c : Call) :
  thumbnails_ok (snd s) -> thumbnails_ok (snd (run_call s c)).
Proof.
  intros Hok. destruct c as [w q | w q position size_ |]; cbn [run_call snd].
  - exact Hok.
  - apply extract_thumbnail_keeps_ok, Hok.
  - intros q pos' w' h' pm' L. unfold clear_caches in L. cbn [snd] in L.
    rewrite lookup_empty in L. discriminate.
Qed.

Lemma run_calls_thumbnails_ok (calls : list Call) : thumbnails_ok (snd (run_calls calls)).
Proof.
  apply (run_calls_invariant (fun s => thumbnails_ok (snd s))).
  - intros q pos' w' h' pm' L. cbn [snd] in L. rewrite lookup_empty in L. discriminate.
  - intros s c. apply run_call_keeps_ok.
Qed.



(** X6. A thumbnail asked for with a box of positive width and height is
    never empty and never larger than the box, in either dimension: this
    holds for a freshly extracted one, for the placeholder and for one
    served from the cache, after any earlier calls. *)
Theorem thumbnail_fits_its_box (calls : list Call) (w : World) (file_path : string)
        (position : Q) (size_ : QSize) (pm : QPixmap) :
  0 < width size_ -> 0 < height size_ ->
  fst (extract_thumbnail w file_path position size_ (snd (run_calls calls)))
  = Ok (Some pm) ->
  fits pm size_.
Proof.
  intros Hw Hh. unfold extract_thumbnail.
  pose proof (run_calls_thumbnails_ok calls) as Hok.
  set (cache := snd (run_calls calls)) in *. clearbody cache.
  destruct (negb (os_path_exists w file_path)); [discriminate|].
  assert (Hp : fits (placeholder size_) size_).
  { unfold fits. rewrite placeholder_size by assumption. lia. }
  destruct (cache !! cache_key file_path position size_) as [cached|] eqn:L.
  - intros [= <-]. unfold cache_key in L.
    destruct (Hok _ _ _ _ _ L) as [_ Hfit]. destruct size_ as [sw sh].
    apply Hfit; assumption.
  - destruct (extract_thumbnail_try w file_path position size_ cache)
      as [[pixmap cache']|] eqn:E; cbn [fst]; intros [= <-]; [|exact Hp].
    apply extract_thumbnail_try_result in E as [[-> _] | [[frame Er] _]]; [exact Hp|].
    apply render_from_frame in Er as [_ Hfit]. apply Hfit; assumption.
Qed.

Lemma thumbnail_fits_its_box_witness :
  fits (FromImage {| frame_height := 180; frame_width := 320 |}) default_size.
Proof.
  apply (thumbnail_fits_its_box [] world_sound a_path default_position).
  - reflexivity.
  - reflexivity.
  - vm_compute. reflexivity.
Defined.




(** ** More on the loader *)











(** ** The progress bar *)

(** The progress signals of one request. *)
Lemma _load_videos_async_progress (w : World) (folder_path : string)
      (video_files : list string) (canceled : nat -> bool) (st : LoaderState) :
  let total := Z.of_nat (length video_files) in
  let k := files_done canceled 0 (length video_files) in
  exists last,
    progress_of (emitted (fst (_load_videos_async w folder_path video_files canceled st)))
    = (0, total) :: per_file_progress total 0 k ++ last /\
    (last = [] \/ last = [(total, total)]) /\
    ((forall j, canceled j = false) -> last = [(total, total)]).
Proof.
  intros total k. unfold _load_videos_async. fold total.
  pose proof (for_loop_progress w folder_path canceled total video_files 0 st) as P.
  cbn zeta in P. fold k in P.
  destruct (for_loop w folder_path canceled total 0 video_files st)
    as [[[acts st'] ex] reads]; cbn [fst snd] in *.
  destruct P as [P1 P2].
  assert (Hex : ex <> Raised) by (destruct P2 as [(-> & _) | (-> & _)]; discriminate).
  change (emitted (Emit (load_progress 0 total) :: ?l))
    with (load_progress 0 total :: emitted l).
  change (progress_of (load_progress 0 total :: ?l)) with ((0, total) :: progress_of l).
  rewrite emitted_app, progress_of_app, P1.
  destruct ex; [| |congruence];
    (destruct (canceled reads) eqn:C;
     [ exists []; split; [reflexivity|]; split; [left; reflexivity|];
       intros Hn; rewrite Hn in C; discriminate
     | exists [(total, total)]; split; [reflexivity|]; split; [right|]; reflexivity ]).
Qed.

Lemma per_file_progress_bounds (total : Z) (i k : nat) (c t : Z) :
  In (c, t) (per_file_progress total i k) ->
  Z.of_nat i < c <= Z.of_nat (i + k) /\ t = total.
Proof.
  unfold per_file_progress. intros Hin. apply in_map_iff in Hin as (j & [= <- <-] & Hj).
  apply in_seq in Hj. lia.
Qed.

Lemma Sorted_map_percent (total : Z) (l : list Z) :
  0 < total -> Sorted Z.le l -> Sorted Z.le (map (fun c => c * 100 / total) l).
Proof.
  intros Ht. induction 1 as [|a l Hs IH Hhd]; cbn [map]; constructor; [exact IH|].
  destruct Hhd as [|b l Hab]; cbn [map]; constructor.
  apply Z.div_le_mono; lia.
Qed.

(** X9. For a request with at least one file, every progress signal sets
    the progress bar to a percentage between 0 and 100; the first sets it
    to 0; along the request the bar never goes back; and when the request
    is not cancelled, the last signal sets it to 100. *)
Theorem progress_bar_never_goes_back (w : World) (folder_path : string)
        (video_files : list string) (canceled : nat -> bool) (st : LoaderState) :
  video_files <> [] ->
  let program := fst (_load_videos_async w folder_path video_files canceled st) in
  exists percents,
    bar_updates (emitted program) = map MainWindowUi.setValue percents /\
    hd_error percents = Some 0 /\
    List.Forall (fun v => 0 <= v <= 100) percents /\
    Sorted Z.le percents /\
    ((forall j, canceled j = false) -> List.last percents 0 = 100).
Proof.
  intros Hne program. subst program.
  set (total := Z.of_nat (length video_files)).
  assert (Ht : 0 < total) by (destruct video_files; [congruence | subst total; cbn; lia]).
  destruct (_load_videos_async_progress w folder_path video_files canceled st)
    as (last & Hp & Hlast & Hnever).
  fold total in Hp, Hlast, Hnever.
  set (k := files_done canceled 0 (length video_files)) in *.
  assert (Hk : (k <= length video_files)%nat) by apply files_done_le.
  set (progress := progress_of (emitted (fst (_load_videos_async w folder_path
                                               video_files canceled st)))) in *.
  assert (Hall : forall c t, In (c, t) progress -> 0 <= c <= total /\ t = total).
  { intros c t. rewrite Hp. intros [[= <- <-] | Hin]; [lia|].
    apply in_app_or in Hin as [Hin | Hin].
    - apply per_file_progress_bounds in Hin. subst total. lia.
    - destruct Hlast as [-> | ->]; [destruct Hin|].
      destruct Hin as [[= <- <-] | []]. lia. }
  assert (Hsorted : Sorted Z.le (map fst progress)).
  { rewrite Hp. cbn [map fst]. constructor.
    - apply per_file_progress_sorted.
      + destruct Hlast as [-> | ->]; cbn; repeat constructor.
      + destruct Hlast as [-> | ->]; cbn; [tauto|]. intros x [<- | []].
        subst total. lia.
    - destruct k as [|k']; cbn.
      + destruct Hlast as [-> | ->]; cbn; constructor. lia.
      + constructor. lia. }
  exists (map (fun c => c * 100 / total) (map fst progress)).
  split_and!.
  - unfold bar_updates. fold progress. rewrite !map_map.
    apply map_ext_in. intros [c t] Hin. destruct (Hall c t Hin) as [_ ->].
    cbn [fst snd]. unfold MainWindowUi.update_load_progress.
    replace (total =? 0) with false by (symmetry; apply Z.eqb_neq; lia). reflexivity.
  - rewrite Hp. reflexivity.
  - apply List.Forall_forall. intros v Hv.
    apply in_map_iff in Hv as (c & <- & Hc). apply in_map_iff in Hc as ([c' t] & <- & Hin).
    destruct (Hall c' t Hin) as [Hc _]. cbn [fst]. split.
    + apply Z.div_pos; lia.
    + apply Z.div_le_upper_bound; lia.
  - apply Sorted_map_percent; assumption.
  - intros Hn. rewrite Hp, (Hnever Hn). cbn [map fst].
    rewrite !map_app. cbn [map fst].
    rewrite app_comm_cons, last_last. rewrite (Z.mul_comm total 100), Z.div_mul by lia.
    reflexivity.
Qed.

Lemma progress_bar_never_goes_back_witness :
  exists percents,
    bar_updates (emitted two_files_program) = map MainWindowUi.setValue percents /\
    hd_error percents = Some 0 /\
    List.Forall (fun v => 0 <= v <= 100) percents /\
    Sorted Z.le percents /\
    ((forall j, never_canceled j = false) -> List.last percents 0 = 100).
Proof.
  apply (progress_bar_never_goes_back world_sound "/videos" ["a.mp4"; "b.mkv"]
           never_canceled empty_loader).
  discriminate.
Defined.

(** ** Thumbnails reach the grid *)

Lemma announced_paths_app (a b : list Event) :
  announced_paths (a ++ b) = announced_paths a ++ announced_paths b.
Proof. apply flat_map_app. Qed.

Lemma thumbnail_paths_app (a b : list Event) :
  thumbnail_paths (a ++ b) = thumbnail_paths a ++ thumbnail_paths b.
Proof. apply flat_map_app. Qed.

Lemma submitted_app (a b : list Action) : submitted (a ++ b) = submitted a ++ submitted b.
Proof. apply flat_map_app. Qed.

Lemma paired_induction (P : list Action -> Prop) :
  P [] ->
  (forall current total rest,
     paired rest -> P rest -> P (Emit (load_progress current total) :: rest)) ->
  (forall p n s du wt tg rest,
     paired rest -> P rest ->
     P (Emit (video_loaded p n None s du wt tg) :: Submit p :: rest)) ->
  forall acts, paired acts -> P acts.
Proof.
  intros Hnil Hprogress Hpair acts.
  remember (length acts) as m eqn:Hm. revert acts Hm.
  induction m as [m IH] using lt_wf_ind. intros acts Hm Ha.
  destruct acts as [|[e|p] rest]; cbn in Ha; [exact Hnil| |tauto].
  destruct e as [p n [t|] s du wt tg | |]; try tauto.
  - destruct rest as [|[e'|q] rest]; try tauto. destruct Ha as [<- Ha].
    apply Hpair; [exact Ha|]. apply (IH (length rest)); [subst m; cbn; lia | reflexivity | exact Ha].
  - apply Hprogress; [exact Ha|].
    apply (IH (length rest)); [subst m; cbn; lia | reflexivity | exact Ha].
Qed.

Lemma paired_app (a b : list Action) : paired a -> paired b -> paired (a ++ b).
Proof.
  intros Ha Hb. induction Ha using paired_induction; cbn; tauto.
Qed.

Lemma paired_counts (acts : list Action) :
  paired acts -> submitted acts = announced_paths (emitted acts).
Proof.
  intros Ha. induction Ha using paired_induction; cbn; [reflexivity | assumption|].
  f_equal. assumption.
Qed.

Lemma load_one_paired (w : World) (folder_path file_name : string) (st : LoaderState)
      (acts : list Action) :
  fst (load_one w folder_path file_name st) = Ok acts -> paired acts.
Proof.
  destruct (load_one_shape w folder_path file_name st) as [H | (s & du & wt & tg & H)];
    rewrite H; intros [= <-]; cbn; tauto.
Qed.

Lemma for_loop_paired (w : World) (folder_path : string) (canceled : nat -> bool)
      (total : Z) (video_files : list string) :
  forall (i : nat) (st : LoaderState),
    paired (fst (fst (fst (for_loop w folder_path canceled total i video_files st)))).
Proof.
  induction video_files as [|f rest IH]; intros i st; cbn [for_loop]; [exact I|].
  destruct (canceled i); [exact I|].
  pose proof (load_one_paired w folder_path f st) as Hone.
  destruct (load_one w folder_path f st) as [[acts|] st1]; [|exact I].
  specialize (IH (S i) st1).
  destruct (for_loop w folder_path canceled total (S i) rest st1)
    as [[[more st2] ex] reads]; cbn [fst snd] in *.
  apply paired_app; [apply Hone; reflexivity | exact IH].
Qed.

Lemma _load_videos_async_paired (w : World) (folder_path : string)
      (video_files : list string) (canceled : nat -> bool) (st : LoaderState) :
  paired (fst (_load_videos_async w folder_path video_files canceled st)).
Proof.
  unfold _load_videos_async.
  pose proof (for_loop_paired w folder_path canceled
                (Z.of_nat (length video_files)) video_files 0 st) as P.
  destruct (for_loop w folder_path canceled (Z.of_nat (length video_files)) 0
                     video_files st) as [[[acts st'] ex] reads]; cbn [fst snd] in *.
  apply (paired_app [_]); [exact I|]. apply paired_app; [exact P|].
  destruct ex; try exact I; destruct (canceled reads); exact I.
Qed.

Lemma extract_thumbnail_never_raises (w : World) (p : string) (position : Q)
      (size_ : QSize) (cache : gmap ThumbKey QPixmap) :
  exists r, fst (extract_thumbnail w p position size_ cache) = Ok r.
Proof.
  unfold extract_thumbnail.
  destruct (negb (os_path_exists w p)); [eauto|].
  destruct (cache !! cache_key p position size_); [eauto|].
  destruct (extract_thumbnail_try w p position size_ cache) as [[pm c]|]; eauto.
Qed.

Lemma _extract_and_callback_one (w : World) (p : string) (cache : gmap ThumbKey QPixmap) :
  exists pixmap, fst (_extract_and_callback w p cache) = [thumbnail_loaded p pixmap].
Proof.
  unfold _extract_and_callback.
  destruct (extract_thumbnail_never_raises w p default_position default_size cache)
    as [r Hr].
  destruct (extract_thumbnail w p default_position default_size cache) as [[t|] c];
    cbn [fst] in *; [eauto | discriminate].
Qed.

Lemma step_keeps_accounted (s s' : System) : step s s' -> accounted s -> accounted s'.
Proof.
  intros Hstep [Hshape Hperm].
  destruct Hstep as [e rest pool c sigs | p rest pool c sigs
                    | w main before p after c sigs];
    unfold accounted in *; cbn [main_thread thread_pool signals] in *.
  - destruct Hshape as [Hp | (q & rest' & [=] & _)].
    destruct e as [p n [t|] sz du wt tg | |]; cbn in Hp; try tauto.
    + destruct rest as [|[e'|q] rest]; try tauto. destruct Hp as [<- Hp].
      split; [right; eauto|].
      rewrite thumbnail_paths_app, announced_paths_app, app_nil_r in *.
      cbn in *. rewrite <- app_assoc. exact Hperm.
    + split; [left; exact Hp|].
      rewrite thumbnail_paths_app, announced_paths_app, !app_nil_r in *.
      exact Hperm.
  - destruct Hshape as [Hp | (q & rest' & [= <- <-] & Hp)]; [cbn in Hp; tauto|].
    split; [left; exact Hp|].
    cbn in *. rewrite <- app_assoc. exact Hperm.
  - split; [exact Hshape|].
    destruct (_extract_and_callback_one w p c) as [pm ->].
    rewrite thumbnail_paths_app, announced_paths_app, app_nil_r.
    cbn [thumbnail_paths flat_map app].
    rewrite <- !app_assoc in *. cbn [app] in *.
    etransitivity; [|exact Hperm].
    apply Permutation_app_head. apply Permutation_middle.
Qed.

Lemma steps_accounted (program : list Action) (cache : gmap ThumbKey QPixmap) (s : System) :
  paired program -> steps (start program cache) s -> accounted s.
Proof.
  intros Hp H. remember (start program cache) as s0 eqn:E.
  induction H as [s | s1 s2 s3 H12 IH H23].
  - subst s. unfold accounted, start. cbn [main_thread thread_pool signals].
    split; [left; exact Hp|]. cbn. rewrite (paired_counts _ Hp). reflexivity.
  - apply (step_keeps_accounted s2 s3 H23), IH, E.
Qed.

(** X10. Once the loading thread has finished and the pool has no
    extraction left, the [thumbnail_loaded] signals are for the announced
    files and for nothing else, one signal for each announcement,
    whatever order the extractions ended in and whatever they found. *)
Theorem every_announced_video_gets_its_thumbnail (w : World) (folder_path : string)
        (video_files : list string) (canceled : nat -> bool) (st : LoaderState)
        (cache : gmap ThumbKey QPixmap) (s : System) :
  steps (start (fst (_load_videos_async w folder_path video_files canceled st)) cache) s ->
  main_thread s = [] -> thread_pool s = [] ->
  Permutation (thumbnail_paths (signals s)) (announced_paths (signals s)).
Proof.
  intros Hsteps Hmain Hpool.
  destruct (steps_accounted _ _ _ (_load_videos_async_paired _ _ _ _ _) Hsteps)
    as [_ Hperm].
  rewrite Hmain, Hpool in Hperm. cbn in Hperm. rewrite !app_nil_r in Hperm. exact Hperm.
Qed.

Lemma every_announced_video_gets_its_thumbnail_witness :
  Permutation (thumbnail_paths (signals interleaved_run))
              (announced_paths (signals interleaved_run)).
Proof.
  apply (every_announced_video_gets_its_thumbnail world_sound "/videos"
           ["a.mp4"; "b.mkv"] never_canceled empty_loader ∅).
  - apply (schedule_run_sound interleaved_schedule). vm_compute. reflexivity.
  - vm_compute. reflexivity.
  - vm_compute. reflexivity.
Defined.

Lemma deliver_snoc (db_at : nat -> Database.Db) (sigs : list Event) (e : Event) :
  forall (k : nat) (model : list VideoGrid.VideoItem),
    MainWindowUi.deliver db_at k (sigs ++ [e]) model
    = MainWindowUi.slot (db_at (k + length sigs)%nat)
                        (MainWindowUi.deliver db_at k sigs model) e.
Proof.
  induction sigs as [|x sigs IH]; intros k model; cbn [app MainWindowUi.deliver length].
  - rewrite Nat.add_0_r. reflexivity.
  - rewrite IH. f_equal. f_equal. lia.
Qed.

Lemma update_first_paths (test : VideoGrid.VideoItem -> bool)
      (update : VideoGrid.VideoItem -> VideoGrid.VideoItem)
      (model : list VideoGrid.VideoItem) :
  (forall item, VideoGrid.file_path (update item) = VideoGrid.file_path item) ->
  map VideoGrid.file_path (VideoGrid.update_first test update model)
  = map VideoGrid.file_path model.
Proof.
  intros Hupd. induction model as [|a rest IH]; cbn; [reflexivity|].
  destruct (test a); cbn; [rewrite Hupd | rewrite IH]; reflexivity.
Qed.

Lemma update_first_In (p : string) (update : VideoGrid.VideoItem -> VideoGrid.VideoItem)
      (model : list VideoGrid.VideoItem) (item : VideoGrid.VideoItem) :
  List.NoDup (map VideoGrid.file_path model) ->
  In item (VideoGrid.update_first (VideoGrid.has_path p) update model) ->
  VideoGrid.file_path item <> p /\ In item model \/
  exists old, In old model /\ VideoGrid.file_path old = p /\ item = update old.
Proof.
  induction model as [|a rest IH]; cbn; [tauto|].
  intros Hnd Hin. apply List.NoDup_cons_iff in Hnd as [Ha Hnd].
  unfold VideoGrid.has_path at 1 in Hin.
  destruct (String.eqb (VideoGrid.file_path a) p) eqn:E.
  - apply String.eqb_eq in E. destruct Hin as [<- | Hin].
    + right. exists a. auto.
    + left. split; [|auto]. intros Hp. apply Ha. rewrite E, <- Hp.
      apply in_map, Hin.
  - apply String.eqb_neq in E. destruct Hin as [<- | Hin]; [left; auto|].
    destruct (IH Hnd Hin) as [[H1 H2] | (old & H1 & H2 & H3)]; [left; auto|].
    right. exists old. auto.
Qed.

(** One slot keeps the grid in step with the signals. *)
Lemma slot_keeps_grid (d : Database.Db) (sigs : list Event) (e : Event)
      (model : list VideoGrid.VideoItem) :
  List.NoDup (announced_paths sigs) ->
  match e with
  | video_loaded p _ thumbnail _ _ _ _ =>
      thumbnail = None /\ ~ In p (thumbnail_paths sigs)
  | _ => True
  end ->
  grid_follows sigs model ->
  grid_follows (sigs ++ [e]) (MainWindowUi.slot d model e).
Proof.
  intros Hnd He [Hpaths Hitems]. unfold grid_follows.
  rewrite announced_paths_app, thumbnail_paths_app.
  destruct e as [p n t sz du wt tg | p pm | current total]; cbn [MainWindowUi.slot].
  - destruct He as [-> Hp]. unfold MainWindowUi.add_video_to_grid.
    rewrite map_app, Hpaths. cbn [announced_paths thumbnail_paths flat_map app].
    rewrite !app_nil_r. split.
    + f_equal. destruct (Database.get_video_by_path d p); reflexivity.
    + intros item Hin. apply in_app_or in Hin as [Hin | [<- | []]].
      * specialize (Hitems item Hin).
        destruct (VideoGrid.thumbnail item); [exact Hitems|].
        apply in_or_app. left. exact Hitems.
      * destruct (Database.get_video_by_path d p); cbn; exact Hp.
  - unfold MainWindowUi.update_video_thumbnail.
    rewrite update_first_paths by reflexivity.
    cbn [announced_paths thumbnail_paths flat_map app]. rewrite app_nil_r.
    split; [exact Hpaths|].
    intros item Hin. apply update_first_In in Hin; [|rewrite Hpaths; exact Hnd].
    destruct Hin as [[Hne Hin] | (old & Hin & Hp & ->)].
    + specialize (Hitems item Hin).
      destruct (VideoGrid.thumbnail item).
      * intros H. apply in_app_or in H as [H | [H | []]]; [tauto | congruence].
      * apply in_or_app. left. exact Hitems.
    + cbn. rewrite Hp. apply in_or_app. right. left. reflexivity.
  - cbn [announced_paths thumbnail_paths flat_map app]. rewrite !app_nil_r.
    split; [exact Hpaths|].
    intros item Hin. specialize (Hitems item Hin).
    destruct (VideoGrid.thumbnail item); [exact Hitems|].
    apply in_or_app. left. exact Hitems.
Qed.

(** What holds of the grid in every state the program reaches. *)
Lemma step_keeps_grid (db_at : nat -> Database.Db) (s s' : System) :
  step s s' -> accounted s ->
  List.NoDup (announced_paths (signals s)
           ++ announced_paths (emitted (main_thread s))) /\
  grid_follows (signals s) (MainWindowUi.deliver db_at 0 (signals s) []) ->
  List.NoDup (announced_paths (signals s')
           ++ announced_paths (emitted (main_thread s'))) /\
  grid_follows (signals s') (MainWindowUi.deliver db_at 0 (signals s') []).
Proof.
  intros Hstep [Hshape Hperm] [Hnd Hgrid].
  assert (Hnd_s : List.NoDup (announced_paths (signals s)))
    by (apply NoDup_app_remove_r in Hnd; exact Hnd).
  destruct Hstep as [e rest pool c sigs | p rest pool c sigs
                    | w main before p after c sigs];
    cbn [main_thread thread_pool signals] in *.
  - split.
    + rewrite announced_paths_app, <- app_assoc.
      change (emitted (Emit e :: rest)) with ([e] ++ emitted rest) in Hnd.
      rewrite announced_paths_app in Hnd. exact Hnd.
    + rewrite deliver_snoc. apply slot_keeps_grid; [exact Hnd_s | | exact Hgrid].
      destruct e as [q n t sz du wt tg | |]; [|exact I..].
      destruct Hshape as [Hp | (q' & rest' & [=] & _)].
      destruct t as [t|]; cbn in Hp; [tauto|].
      destruct rest as [|[e'|q'] rest]; try tauto. destruct Hp as [<- Hp].
      split; [reflexivity|]. intros Hin.
      apply (Permutation_NoDup (Permutation_sym Hperm)) in Hnd.
      cbn [submitted flat_map app] in Hnd.
      rewrite app_assoc in Hnd. apply NoDup_remove_2 in Hnd.
      apply Hnd. apply in_or_app. left. apply in_or_app. left. exact Hin.
  - split; [exact Hnd | exact Hgrid].
  - destruct (_extract_and_callback_one w p c) as [pm ->]. split.
    + rewrite announced_paths_app. cbn. rewrite app_nil_r. exact Hnd.
    + rewrite deliver_snoc. apply slot_keeps_grid; [exact Hnd_s | exact I | exact Hgrid].
Qed.

Lemma for_loop_announced (w : World) (folder_path : string) (canceled : nat -> bool)
      (total : Z) (video_files : list string) :
  forall (i : nat) (st : LoaderState),
    let acts := fst (fst (fst (for_loop w folder_path canceled total i video_files st))) in
    (forall p, In p (announced_paths (emitted acts)) ->
               In p (map (OsPath.join folder_path) video_files)) /\
    (List.NoDup (map (OsPath.join folder_path) video_files) ->
     List.NoDup (announced_paths (emitted acts))).
Proof.
  induction video_files as [|f rest IH]; intros i st; cbn [for_loop map].
  - cbn. split; [tauto | intros; constructor].
  - destruct (canceled i); [cbn; split; [tauto | intros; constructor]|].
    pose proof (load_one_shape w folder_path f st) as Hone.
    destruct (load_one w folder_path f st) as [[acts|] st1];
      [|cbn; split; [tauto | intros; constructor]].
    specialize (IH (S i) st1).
    destruct (for_loop w folder_path canceled total (S i) rest st1)
      as [[[more st2] ex] reads]; cbn [fst snd] in *.
    destruct IH as [IH1 IH2].
    rewrite emitted_app, announced_paths_app.
    change (emitted (Emit (load_progress (Z.of_nat i + 1) total) :: more))
      with (load_progress (Z.of_nat i + 1) total :: emitted more).
    change (announced_paths (load_progress (Z.of_nat i + 1) total :: emitted more))
      with (announced_paths (emitted more)).
    destruct Hone as [[= ->] | (sz & du & wt & tg & [= ->])]; cbn [emitted flat_map app
                                                                   announced_paths].
    + split; [intros p Hp; right; apply IH1, Hp|].
      intros Hnd. apply List.NoDup_cons_iff in Hnd as [_ Hnd]. apply IH2, Hnd.
    + split.
      * intros p [<- | Hp]; [left; reflexivity | right; apply IH1, Hp].
      * intros Hnd. apply List.NoDup_cons_iff in Hnd as [Hf Hnd].
        constructor; [|apply IH2, Hnd]. intros Hin. apply Hf, IH1, Hin.
Qed.

Lemma _load_videos_async_announced (w : World) (folder_path : string)
      (video_files : list string) (canceled : nat -> bool) (st : LoaderState) :
  List.NoDup (map (OsPath.join folder_path) video_files) ->
  List.NoDup (announced_paths
           (emitted (fst (_load_videos_async w folder_path video_files canceled st)))).
Proof.
  intros Hnd. unfold _load_videos_async.
  pose proof (for_loop_announced w folder_path canceled
                (Z.of_nat (length video_files)) video_files 0 st) as [_ P].
  destruct (for_loop w folder_path canceled (Z.of_nat (length video_files)) 0
                     video_files st) as [[[acts st'] ex] reads]; cbn [fst snd] in *.
  match goal with
  | |- context [acts ++ ?l] =>
      assert (Hlast : announced_paths (emitted l) = [])
        by (destruct ex; try reflexivity; destruct (canceled reads); reflexivity);
      set (last := l) in *
  end.
  change (emitted (Emit ?e :: ?l)) with ([e] ++ emitted l).
  rewrite announced_paths_app, emitted_app, announced_paths_app, Hlast, app_nil_r.
  apply P, Hnd.
Qed.

Lemma steps_grid (db_at : nat -> Database.Db) (program : list Action)
      (cache : gmap ThumbKey QPixmap) (s : System) :
  paired program -> List.NoDup (announced_paths (emitted program)) ->
  steps (start program cache) s ->
  accounted s /\
  List.NoDup (announced_paths (signals s) ++ announced_paths (emitted (main_thread s))) /\
  grid_follows (signals s) (MainWindowUi.deliver db_at 0 (signals s) []).
Proof.
  intros Hp Hnd H. remember (start program cache) as s0 eqn:E.
  induction H as [s | s1 s2 s3 H12 IH H23].
  - subst s. split; [apply (steps_accounted program cache); [exact Hp | constructor]|].
    cbn. split; [exact Hnd|]. split; [reflexivity | intros item []].
  - destruct (IH E) as [Hacc Hrest].
    split; [apply (step_keeps_accounted s2 s3 H23 Hacc)|].
    apply (step_keeps_grid db_at s2 s3 H23 Hacc Hrest).
Qed.

(** X11. The grid, for a folder whose files have different paths.  In
    every state the loading thread and the pool reach, after the slots of
    the signals emitted so far have run in order, the grid has one item
    for each announced file, in the order of the announcements; an item
    shows the gray box only as long as no thumbnail signal of its file
    has been emitted, and otherwise what such a signal delivered.  So once
    the loading thread has finished and the pool is idle, no item shows
    the gray box: each shows what its extraction delivered. *)
Theorem grid_shows_every_thumbnail (w : World) (folder_path : string)
        (video_files : list string) (canceled : nat -> bool) (st : LoaderState)
        (cache : gmap ThumbKey QPixmap) (s : System) (db_at : nat -> Database.Db) :
  List.NoDup (map (OsPath.join folder_path) video_files) ->
  steps (start (fst (_load_videos_async w folder_path video_files canceled st)) cache) s ->
  let model := MainWindowUi.deliver db_at 0 (signals s) [] in
  grid_follows (signals s) model /\
  (main_thread s = [] -> thread_pool s = [] ->
   forall item, In item model ->
     exists pixmap,
       VideoGrid.thumbnail item = VideoGrid.given pixmap /\
       In (thumbnail_loaded (VideoGrid.file_path item) pixmap) (signals s)).
Proof.
  intros Hnd Hsteps model.
  destruct (steps_grid db_at _ cache s
              (_load_videos_async_paired w folder_path video_files canceled st)
              (_load_videos_async_announced w folder_path video_files canceled st Hnd)
              Hsteps) as ([_ Hperm] & _ & Hgrid).
  fold model in Hgrid. split; [exact Hgrid|].
  intros Hmain Hpool item Hin.
  rewrite Hmain, Hpool in Hperm. cbn in Hperm. rewrite !app_nil_r in Hperm.
  destruct Hgrid as [Hpaths Hitems]. specialize (Hitems item Hin).
  destruct (VideoGrid.thumbnail item) as [|pixmap]; [|eauto].
  exfalso. apply Hitems. apply (Permutation_in _ (Permutation_sym Hperm)).
  rewrite <- Hpaths. apply in_map, Hin.
Qed.

Lemma grid_shows_every_thumbnail_witness :
  exists pixmap,
    VideoGrid.thumbnail
      (hd (VideoGrid.VideoItem_init "" "" None 0 0 false [])
          (MainWindowUi.deliver (fun _ => Database.empty) 0 (signals interleaved_run) []))
    = VideoGrid.given pixmap /\
    In (thumbnail_loaded a_path pixmap) (signals interleaved_run).
Proof.
  destruct (grid_shows_every_thumbnail world_sound "/videos" ["a.mp4"; "b.mkv"]
              never_canceled empty_loader ∅ interleaved_run (fun _ => Database.empty))
    as [_ H].
  - vm_compute. repeat constructor; cbn; intuition discriminate.
  - apply (schedule_run_sound interleaved_schedule). vm_compute. reflexivity.
  - apply (H eq_refl eq_refl
             (hd (VideoGrid.VideoItem_init "" "" None 0 0 false [])
                 (MainWindowUi.deliver (fun _ => Database.empty) 0
                                       (signals interleaved_run) []))).
    vm_compute. left. reflexivity.
Defined.

(** ** Opening a folder *)





(** ** Tags and notes *)

Lemma largest_tag_id_bound (rows : list (Z * string)) (t : Z * string) :
  In t rows -> fst t <= Catalog.largest_tag_id rows.
Proof.
  unfold Catalog.largest_tag_id. induction rows as [|r rows IH]; cbn; [tauto|].
  intros [-> | Hin]; [lia|]. specialize (IH Hin). lia.
Qed.

Lemma find_tag_named (name : string) (rows : list (Z * string)) (t : Z * string) :
  List.find (Catalog.tag_named name) rows = Some t -> In t rows /\ snd t = name.
Proof.
  intros E. apply find_some in E as [Hin Hn]. split; [exact Hin|].
  apply String.eqb_eq, Hn.
Qed.

Lemma tag_named_refl (t : Z) (name : string) : Catalog.tag_named name (t, name) = true.
Proof. unfold Catalog.tag_named. cbn [snd]. apply String.eqb_refl. Qed.

Lemma add_tag_old (st : Catalog.Store) (name : string) (t : Z * string) :
  List.find (Catalog.tag_named name) (Database.tags (Catalog.tables st)) = Some t ->
  Catalog.add_tag st name = (Ok (fst t), st).
Proof. intros E. unfold Catalog.add_tag. rewrite E, E. reflexivity. Qed.

Lemma add_tag_new (st : Catalog.Store) (name : string) :
  List.find (Catalog.tag_named name) (Database.tags (Catalog.tables st)) = None ->
  let db := Catalog.tables st in
  let tag_id :=
    Z.max (Catalog.tags_seq st) (Catalog.largest_tag_id (Database.tags db)) + 1 in
  Catalog.add_tag st name
  = (Ok tag_id,
     {| Catalog.tables :=
          {| Database.videos := Database.videos db;
             Database.videos_seq := Database.videos_seq db;
             Database.tags := Database.tags db ++ [(tag_id, name)];
             Database.video_tags := Database.video_tags db |};
        Catalog.tags_seq := tag_id;
        Catalog.notes := Catalog.notes st |}).
Proof.
  intros E db tag_id. unfold Catalog.add_tag. rewrite E. fold db. fold tag_id.
  cbn [Catalog.tables Database.tags].
  rewrite find_app_None by exact E. cbn [List.find]. rewrite tag_named_refl.
  reflexivity.
Qed.

(** What [add_tag] does. *)
Lemma add_tag_spec (st : Catalog.Store) (name : string) :
  exists t st',
    Catalog.add_tag st name = (Ok t, st') /\
    List.find (Catalog.tag_named name) (Database.tags (Catalog.tables st')) = Some (t, name) /\
    (st' = st \/
     List.find (Catalog.tag_named name) (Database.tags (Catalog.tables st)) = None /\
     Database.tags (Catalog.tables st')
     = Database.tags (Catalog.tables st) ++ [(t, name)] /\
     Catalog.tags_seq st' = t /\
     Catalog.tags_seq st < t /\
     (forall x, In x (Database.tags (Catalog.tables st)) -> fst x < t)) /\
    Database.videos (Catalog.tables st') = Database.videos (Catalog.tables st) /\
    Database.videos_seq (Catalog.tables st') = Database.videos_seq (Catalog.tables st) /\
    Database.video_tags (Catalog.tables st') = Database.video_tags (Catalog.tables st) /\
    Catalog.notes st' = Catalog.notes st.
Proof.
  destruct (List.find (Catalog.tag_named name) (Database.tags (Catalog.tables st)))
    as [[t n]|] eqn:E.
  - exists t, st. rewrite (add_tag_old _ _ _ E).
    destruct (find_tag_named _ _ _ E) as [_ Hn]. cbn in Hn. subst n.
    split; [reflexivity|]. split; [exact E|]. split; [left; reflexivity|]. repeat split.
  - rewrite (add_tag_new _ _ E). eexists. eexists. split; [reflexivity|].
    cbn [Catalog.tables Database.tags Database.videos Database.videos_seq
         Database.video_tags Catalog.notes Catalog.tags_seq].
    split.
    + rewrite find_app_None by exact E. cbn [List.find]. rewrite tag_named_refl.
      reflexivity.
    + split; [|repeat split]. right. split; [reflexivity|]. split; [reflexivity|].
      split; [reflexivity|]. split; [lia|].
      intros x Hx. pose proof (largest_tag_id_bound _ _ Hx). lia.
Qed.


(** ** The watched mark *)

Lemma find_map_same_path (p : string) (f : Database.Video -> Database.Video)
      (rows : list Database.Video) :
  (forall v, Database.file_path (f v) = Database.file_path v) ->
  List.find (Database.has_path p) (map f rows)
  = option_map f (List.find (Database.has_path p) rows).
Proof.
  intros Hf. induction rows as [|v rows IH]; cbn; [reflexivity|].
  unfold Database.has_path at 1 3. rewrite Hf.
  destruct (String.eqb (Database.file_path v) p); [reflexivity | exact IH].
Qed.

(** The row of a path after [update_watched_status]. *)
Lemma get_video_by_path_update (d : Database.Db) (video_id : Z) (watched_ : bool)
      (last_position_ : Z) (last_watched_ : option string) (p : string) :
  Database.get_video_by_path
    (Database.update_watched_status d video_id watched_ last_position_ last_watched_) p
  = option_map
      (fun v =>
         if Database.id v =? video_id
         then {| Database.id := Database.id v; Database.file_path := Database.file_path v;
                 Database.file_name := Database.file_name v;
                 Database.folder_path := Database.folder_path v;
                 Database.size := Database.size v; Database.duration := Database.duration v;
                 Database.watched := if watched_ then 1 else 0;
                 Database.last_watched := last_watched_;
                 Database.last_position := last_position_;
                 Database.date_added := Database.date_added v;
                 Database.date_modified := Database.date_modified v |}
         else v)
      (Database.get_video_by_path d p).
Proof.
  unfold Database.get_video_by_path, Database.update_watched_status.
  cbn [Database.videos]. apply find_map_same_path.
  intros v. destruct (Database.id v =? video_id); reflexivity.
Qed.



(** ** The details dialog *)

Lemma NoDup_snoc {A : Type} (l : list A) (a : A) :
  List.NoDup l -> ~ In a l -> List.NoDup (l ++ [a]).
Proof.
  induction l as [|x l IH]; cbn; intros Hnd Ha.
  - constructor; [tauto | constructor].
  - apply List.NoDup_cons_iff in Hnd as [Hx Hnd]. constructor.
    + intros Hin. apply in_app_or in Hin as [Hin | [-> | []]]; tauto.
    + apply IH; tauto.
Qed.

Lemma NoDup_fst_inj {A B : Type} (l : list (A * B)) (a : A) (x y : B) :
  List.NoDup (map fst l) -> In (a, x) l -> In (a, y) l -> x = y.
Proof.
  induction l as [|[a0 b0] l IH]; cbn; [tauto|].
  intros Hnd Hx Hy. apply List.NoDup_cons_iff in Hnd as [Ha Hnd].
  destruct Hx as [Hx | Hx]; destruct Hy as [Hy | Hy].
  - congruence.
  - injection Hx as -> ->. exfalso. apply Ha. apply (in_map fst _ _ Hy).
  - injection Hy as -> ->. exfalso. apply Ha. apply (in_map fst _ _ Hx).
  - apply IH; assumption.
Qed.

Lemma existsb_links (video_id tag_id : Z) (vts : list (Z * Z)) :
  existsb (Catalog.links video_id tag_id) vts = true <-> In (video_id, tag_id) vts.
Proof.
  rewrite existsb_exists. unfold Catalog.links. split.
  - intros ([v t] & Hin & H). cbn in H. apply andb_true_iff in H as [Hv Ht].
    apply Z.eqb_eq in Hv, Ht. subst. exact Hin.
  - intros Hin. exists (video_id, tag_id). cbn. rewrite !Z.eqb_refl. auto.
Qed.

Lemma get_video_tags_In (d : Database.Db) (video_id : Z) (t : Z * string) :
  In t (Database.get_video_tags d video_id) <->
  In t (Database.tags d) /\ In (video_id, fst t) (Database.video_tags d).
Proof.
  unfold Database.get_video_tags. rewrite filter_In.
  change (fun vt : Z * Z => (fst vt =? video_id) && (snd vt =? fst t))
    with (Catalog.links video_id (fst t)).
  rewrite existsb_links. reflexivity.
Qed.

Lemma add_video_tag_In (st : Catalog.Store) (video_id tag_id v t : Z) :
  In (v, t) (Database.video_tags (Catalog.tables (Catalog.add_video_tag st video_id tag_id)))
  <-> In (v, t) (Database.video_tags (Catalog.tables st)) \/ (v, t) = (video_id, tag_id).
Proof.
  unfold Catalog.add_video_tag.
  destruct (existsb (Catalog.links video_id tag_id)
                    (Database.video_tags (Catalog.tables st))) eqn:E.
  - apply existsb_links in E. split; [auto|]. intros [H | ->]; assumption.
  - cbn. rewrite in_app_iff. cbn. intuition congruence.
Qed.

Lemma add_video_tag_keeps (st : Catalog.Store) (video_id tag_id : Z) :
  let st' := Catalog.add_video_tag st video_id tag_id in
  Database.videos (Catalog.tables st') = Database.videos (Catalog.tables st) /\
  Database.tags (Catalog.tables st') = Database.tags (Catalog.tables st) /\
  Catalog.tags_seq st' = Catalog.tags_seq st /\
  Catalog.notes st' = Catalog.notes st.
Proof.
  unfold Catalog.add_video_tag.
  destruct (existsb _ _); cbn; repeat split.
Qed.

Lemma remove_video_tag_In (st : Catalog.Store) (video_id tag_id v t : Z) :
  In (v, t) (Database.video_tags
               (Catalog.tables (Catalog.remove_video_tag st video_id tag_id)))
  <-> In (v, t) (Database.video_tags (Catalog.tables st)) /\ (v, t) <> (video_id, tag_id).
Proof.
  unfold Catalog.remove_video_tag. cbn. rewrite filter_In.
  unfold Catalog.links. cbn [fst snd]. rewrite negb_true_iff, andb_false_iff, !Z.eqb_neq.
  split; intros [Hin H]; (split; [exact Hin|]).
  - intros [= -> ->]. destruct H; congruence.
  - destruct (Z.eq_dec v video_id) as [-> | Hv]; [|left; exact Hv].
    right. intros ->. apply H. reflexivity.
Qed.

Lemma remove_tags_spec (video_id : Z) (current_tags : list (Z * string)) :
  forall st : Catalog.Store,
    let st' := MainWindowUi.remove_tags st video_id current_tags in
    Database.videos (Catalog.tables st') = Database.videos (Catalog.tables st) /\
    Database.tags (Catalog.tables st') = Database.tags (Catalog.tables st) /\
    Catalog.notes st' = Catalog.notes st /\
    forall v t,
      In (v, t) (Database.video_tags (Catalog.tables st')) <->
      In (v, t) (Database.video_tags (Catalog.tables st)) /\
      ~ (v = video_id /\ In t (map fst current_tags)).
Proof.
  unfold MainWindowUi.remove_tags.
  induction current_tags as [|tag rest IH]; intros st; cbn [fold_left map].
  - split_and!; try reflexivity. intros v t. cbn. tauto.
  - destruct (IH (Catalog.remove_video_tag st video_id (fst tag))) as (H1 & H2 & H3 & H4).
    split; [exact H1|]. split; [exact H2|]. split; [exact H3|].
    intros v t. rewrite H4, remove_video_tag_In. cbn [In]. split.
    + intros [[Hin Hne] Hrest]. split; [exact Hin|].
      intros [-> [<- | Ht]]; [apply Hne; reflexivity | apply Hrest; auto].
    + intros [Hin H]. split; [split; [exact Hin|]|].
      * intros [= -> ->]. apply H. auto.
      * intros [-> Ht]. apply H. auto.
Qed.

(** The loop that adds the new tags. *)
Lemma add_tags_spec (video_id : Z) (names : list string) :
  forall st : Catalog.Store,
    List.NoDup (map fst (Database.tags (Catalog.tables st))) ->
    exists st',
      MainWindowUi.add_tags st video_id names = (Ok tt, st') /\
      List.NoDup (map fst (Database.tags (Catalog.tables st'))) /\
      (forall x, In x (Database.tags (Catalog.tables st)) ->
                 In x (Database.tags (Catalog.tables st'))) /\
      (forall x, In x (Database.tags (Catalog.tables st')) ->
                 In x (Database.tags (Catalog.tables st)) \/ In (snd x) names) /\
      (forall n, In n names ->
                 exists t, In (t, n) (Database.tags (Catalog.tables st')) /\
                           In (video_id, t) (Database.video_tags (Catalog.tables st'))) /\
      (forall v t, In (v, t) (Database.video_tags (Catalog.tables st)) ->
                   In (v, t) (Database.video_tags (Catalog.tables st'))) /\
      (forall v t, In (v, t) (Database.video_tags (Catalog.tables st')) ->
                   In (v, t) (Database.video_tags (Catalog.tables st)) \/
                   v = video_id /\
                   exists n, In n names /\ In (t, n) (Database.tags (Catalog.tables st'))) /\
      Database.videos (Catalog.tables st') = Database.videos (Catalog.tables st) /\
      Catalog.notes st' = Catalog.notes st.
Proof.
  induction names as [|n rest IH]; intros st Hnd; cbn [MainWindowUi.add_tags].
  - exists st. split_and!; try reflexivity; try assumption.
    + intros x Hx. exact Hx.
    + intros x Hx. left. exact Hx.
    + intros n [].
    + intros v t H. exact H.
    + intros v t H. left. exact H.
  - destruct (add_tag_spec st n)
      as (t & st1 & Hr & Hfind & Hcase & Hv1 & _ & Hvt1 & Hn1).
    rewrite Hr.
    apply find_tag_named in Hfind as [Hin1 _].
    assert (Hnd1 : List.NoDup (map fst (Database.tags (Catalog.tables st1)))).
    { destruct Hcase as [-> | (_ & Htags & _ & _ & Hlt)]; [exact Hnd|].
      rewrite Htags, map_app. apply NoDup_snoc; [exact Hnd|]. cbn.
      intros Hin. apply in_map_iff in Hin as (x & Hx & Hin). apply Hlt in Hin. lia. }
    assert (Hgrow1 : forall x, In x (Database.tags (Catalog.tables st))
                               -> In x (Database.tags (Catalog.tables st1))).
    { destruct Hcase as [-> | (_ & Htags & _)]; [auto|].
      intros x Hx. rewrite Htags. apply in_or_app. left. exact Hx. }
    assert (Hnew1 : forall x, In x (Database.tags (Catalog.tables st1))
                              -> In x (Database.tags (Catalog.tables st)) \/ snd x = n).
    { destruct Hcase as [-> | (_ & Htags & _)]; [auto|].
      intros x Hx. rewrite Htags in Hx. apply in_app_or in Hx as [Hx | [<- | []]]; auto. }
    set (st2 := Catalog.add_video_tag st1 video_id t).
    destruct (add_video_tag_keeps st1 video_id t) as (Hv2 & Ht2 & _ & Hn2).
    fold st2 in Hv2, Ht2, Hn2.
    destruct (IH st2) as (st' & Hr' & Hnd' & Hgrow & Hnew & Hlinked & Hkeep & Hlinks
                          & Hv' & Hn').
    { rewrite Ht2. exact Hnd1. }
    exists st'. split; [exact Hr'|]. split; [exact Hnd'|]. split_and!.
    + intros x Hx. apply Hgrow. rewrite Ht2. apply Hgrow1, Hx.
    + intros x Hx. destruct (Hnew x Hx) as [H | H]; [|right; right; exact H].
      rewrite Ht2 in H. destruct (Hnew1 x H) as [H' | H']; [left; exact H'|].
      right. left. symmetry. exact H'.
    + intros m [<- | Hm]; [|apply Hlinked, Hm].
      exists t. split.
      * apply Hgrow. rewrite Ht2. exact Hin1.
      * apply Hkeep. apply add_video_tag_In. right. reflexivity.
    + intros v t0 H. apply Hkeep, add_video_tag_In. left. rewrite Hvt1. exact H.
    + intros v t0 H. destruct (Hlinks v t0 H) as [H' | (-> & m & Hm & Hin)].
      * apply add_video_tag_In in H' as [H' | [= -> ->]].
        -- left. rewrite <- Hvt1. exact H'.
        -- right. split; [reflexivity|]. exists n. split; [left; reflexivity|].
           apply Hgrow. rewrite Ht2. exact Hin1.
      * right. split; [reflexivity|]. exists m. split; [right; exact Hm | exact Hin].
    + rewrite Hv', Hv2, Hv1. reflexivity.
    + rewrite Hn', Hn2, Hn1. reflexivity.
Qed.

(** X14. Accepting the details dialog of a catalogued video, in a catalog
    whose tags have different ids, never raises and leaves the catalog
    with exactly what the dialog held: the tags of the video are the tags
    of the dialog, no more and no fewer, whatever the video was tagged with
    before; its note is the text of the dialog; its row carries the
    watched flag of the dialog.  The links and the notes of the other
    videos are as before, no tag is removed from the catalog, and the ids
    of the tags are still different. *)
Theorem details_are_saved (st : Catalog.Store) (model : list VideoGrid.VideoItem)
        (file_path : string) (new_watched : bool) (new_notes : string)
        (new_tags : list string) (now : string) (video_data : Database.Video) :
  let r := MainWindowUi.show_video_details st model file_path new_watched new_notes
                                           new_tags now in
  let st' := snd (fst r) in
  let video_id := Database.id video_data in
  Database.get_video_by_path (Catalog.tables st) file_path = Some video_data ->
  List.NoDup (map fst (Database.tags (Catalog.tables st))) ->
  fst (fst r) = Ok tt /\
  (forall name,
     In name (map snd (Database.get_video_tags (Catalog.tables st') video_id))
     <-> In name new_tags) /\
  Catalog.get_note st' video_id = new_notes /\
  (exists row,
     Database.get_video_by_path (Catalog.tables st') file_path = Some row /\
     Database.id row = video_id /\
     negb (Database.watched row =? 0) = new_watched) /\
  (forall other, other <> video_id ->
     Catalog.get_note st' other = Catalog.get_note st other /\
     forall t, In (other, t) (Database.video_tags (Catalog.tables st'))
               <-> In (other, t) (Database.video_tags (Catalog.tables st))) /\
  (forall x, In x (Database.tags (Catalog.tables st)) ->
             In x (Database.tags (Catalog.tables st'))) /\
  List.NoDup (map fst (Database.tags (Catalog.tables st'))).
Proof.
  intros r st' video_id Hrow Hnd. subst r st'.
  unfold MainWindowUi.show_video_details. rewrite Hrow. fold video_id.
  set (changed := negb (Bool.eqb new_watched (negb (Database.watched video_data =? 0)))).
  set (d1 := if changed
             then Database.update_watched_status (Catalog.tables st) video_id new_watched 0
                    (if new_watched then Some now else None)
             else Catalog.tables st).
  set (st1 := Catalog.with_tables st d1).
  set (model1 := if changed
                 then VideoGrid.update_video_watched model file_path new_watched
                 else model).
  replace (if changed
           then (Catalog.with_tables st
                   (Database.update_watched_status (Catalog.tables st) video_id
                      new_watched 0 (if new_watched then Some now else None)),
                 VideoGrid.update_video_watched model file_path new_watched)
           else (st, model))
    with (st1, model1)
    by (subst st1 model1 d1; destruct changed; [reflexivity | destruct st; reflexivity]).
  cbn iota beta.
  assert (Ht1 : Database.tags d1 = Database.tags (Catalog.tables st))
    by (subst d1; destruct changed; reflexivity).
  assert (Hvt1 : Database.video_tags d1 = Database.video_tags (Catalog.tables st))
    by (subst d1; destruct changed; reflexivity).
  assert (Hrow1 : exists row,
             Database.get_video_by_path d1 file_path = Some row /\
             Database.id row = video_id /\
             negb (Database.watched row =? 0) = new_watched).
  { subst d1. destruct changed eqn:Ec.
    - rewrite get_video_by_path_update, Hrow. cbn [option_map]. fold video_id.
      rewrite Z.eqb_refl. eexists. split; [reflexivity|]. cbn.
      split; [reflexivity|]. destruct new_watched; reflexivity.
    - exists video_data. split; [exact Hrow|]. split; [reflexivity|].
      subst changed. apply negb_false_iff, Bool.eqb_prop in Ec. congruence. }
  set (st2 := Catalog.save_note st1 video_id new_notes).
  set (current_tags := Database.get_video_tags (Catalog.tables st2) video_id).
  destruct (remove_tags_spec video_id current_tags st2) as (Hv3 & Ht3 & Hn3 & Hvt3).
  set (st3 := MainWindowUi.remove_tags st2 video_id current_tags) in *.
  destruct (add_tags_spec video_id new_tags st3)
    as (st' & Hr & Hnd' & Hgrow & Hnew & Hlinked & Hkeep & Hlinks & Hv' & Hn').
  { rewrite Ht3. cbn. rewrite Ht1. exact Hnd. }
  rewrite Hr. cbn [fst snd].
  assert (Htags2 : Database.tags (Catalog.tables st2) = Database.tags (Catalog.tables st))
    by exact Ht1.
  assert (Hvts2 : Database.video_tags (Catalog.tables st2)
                  = Database.video_tags (Catalog.tables st)) by exact Hvt1.
  split_and!.
  - reflexivity.
  - intros name. rewrite in_map_iff. split.
    + intros ([t0 n0] & Hname & Hin). cbn in Hname. subst n0.
      apply get_video_tags_In in Hin as [Hin Hlink]. cbn [fst] in Hlink.
      destruct (Hlinks _ _ Hlink) as [Hold | (_ & n & Hn & Hin')].
      * apply Hvt3 in Hold as [Hold Hnot].
        destruct (Hnew _ Hin) as [Hin3 | Hin3]; [|exact Hin3].
        exfalso. apply Hnot. split; [reflexivity|].
        apply (in_map fst _ (t0, name)). subst current_tags.
        apply get_video_tags_In. rewrite <- Ht3. split; [exact Hin3 | exact Hold].
      * rewrite (NoDup_fst_inj _ _ _ _ Hnd' Hin Hin'). exact Hn.
    + intros Hname. destruct (Hlinked name Hname) as (t & Hin & Hlink).
      exists (t, name). split; [reflexivity|].
      apply get_video_tags_In. split; assumption.
  - unfold Catalog.get_note. rewrite Hn', Hn3. cbn. rewrite lookup_insert_eq. reflexivity.
  - destruct Hrow1 as (row & Hr1 & Hid & Hw). exists row.
    split; [|split; assumption].
    unfold Database.get_video_by_path in *. rewrite Hv', Hv3. exact Hr1.
  - intros other Hother. split.
    + unfold Catalog.get_note. rewrite Hn', Hn3. cbn.
      rewrite lookup_insert_ne by congruence. reflexivity.
    + intros t. split.
      * intros H. destruct (Hlinks _ _ H) as [Hold | [Heq _]]; [|congruence].
        apply Hvt3 in Hold as [Hold _]. rewrite <- Hvts2. exact Hold.
      * intros H. apply Hkeep, Hvt3. rewrite Hvts2. split; [exact H|].
        intros [Heq _]. congruence.
  - intros x Hx. apply Hgrow. rewrite Ht3, Htags2. exact Hx.
  - exact Hnd'.
Qed.

Lemma details_are_saved_witness :
  let st' :=
    snd (fst (MainWindowUi.show_video_details
                {| Catalog.tables := catalog_with_a; Catalog.tags_seq := 2;
                   Catalog.notes := ∅ |}
                [] a_path false "seen twice" ["holiday"; "sea"]
                "2024-06-01T10:00:00")) in
  Catalog.get_note st' 1 = "seen twice" /\
  (In "sea" (map snd (Database.get_video_tags (Catalog.tables st') 1)) <->
   In "sea" ["holiday"; "sea"]).
Proof.
  destruct (details_are_saved
              {| Catalog.tables := catalog_with_a; Catalog.tags_seq := 2;
                 Catalog.notes := ∅ |}
              [] a_path false "seen twice" ["holiday"; "sea"] "2024-06-01T10:00:00"
              {| Database.id := 1; Database.file_path := a_path;
                 Database.file_name := "a.mp4"; Database.folder_path := "/videos";
                 Database.size := 5000; Database.duration := 10;
                 Database.watched := 1;
                 Database.last_watched := Some "2024-05-01T20:15:00";
                 Database.last_position := 42;
                 Database.date_added := ctime 1690000000;
                 Database.date_modified := ctime 1700000000 |})
    as (_ & Htags & Hnote & _).
  - vm_compute. reflexivity.
  - cbn. repeat constructor; cbn; intuition discriminate.
  - split; [exact Hnote | exact (Htags "sea")].
Defined.

(** ** Tags from the context menu *)

Lemma find_update_first (p : string) (update : VideoGrid.VideoItem -> VideoGrid.VideoItem)
      (model : list VideoGrid.VideoItem) :
  (forall item, VideoGrid.file_path (update item) = VideoGrid.file_path item) ->
  List.find (VideoGrid.has_path p) (VideoGrid.update_first (VideoGrid.has_path p) update model)
  = option_map update (List.find (VideoGrid.has_path p) model).
Proof.
  intros Hupd. induction model as [|a rest IH]; cbn; [reflexivity|].
  destruct (VideoGrid.has_path p a) eqn:E; cbn.
  - unfold VideoGrid.has_path in *. rewrite Hupd, E. reflexivity.
  - rewrite E. exact IH.
Qed.

(** X15. Checking or unchecking a tag in the context menu of a video
    makes the link between the video and the tag exist exactly when the
    box is checked, and touches no other link, no tag, no video and no
    note; doing it twice is the same as doing it once.  For a tag of the
    catalog, the tag is among the tags of the video afterwards exactly
    when the box is checked.  If the grid has an item of this video, with
    a path that is not empty, then the first item of the grid with that
    path shows the names of the tags the catalog now holds for the
    video. *)
Theorem toggle_video_tag_sets_the_link (st : Catalog.Store)
        (model : list VideoGrid.VideoItem) (video_id : Z) (tag : Z * string)
        (is_checked : bool) :
  let r := MainWindowUi.toggle_video_tag st model video_id tag is_checked in
  let st' := fst r in
  (In (video_id, fst tag) (Database.video_tags (Catalog.tables st'))
   <-> is_checked = true) /\
  (forall v t, (v, t) <> (video_id, fst tag) ->
     (In (v, t) (Database.video_tags (Catalog.tables st'))
      <-> In (v, t) (Database.video_tags (Catalog.tables st)))) /\
  Database.tags (Catalog.tables st') = Database.tags (Catalog.tables st) /\
  Database.videos (Catalog.tables st') = Database.videos (Catalog.tables st) /\
  Catalog.notes st' = Catalog.notes st /\
  fst (MainWindowUi.toggle_video_tag st' (snd r) video_id tag is_checked) = st' /\
  (In tag (Database.tags (Catalog.tables st)) ->
   (In tag (Database.get_video_tags (Catalog.tables st') video_id)
    <-> is_checked = true)) /\
  (forall item,
     List.find (MainWindowUi.shows_video video_id) model = Some item ->
     VideoGrid.file_path item <> "" ->
     exists shown,
       List.find (VideoGrid.has_path (VideoGrid.file_path item)) (snd r) = Some shown /\
       VideoGrid.tags shown
       = map snd (Database.get_video_tags (Catalog.tables st') video_id)).
Proof.
  intros r st'.
  set (st1 := if is_checked then Catalog.add_video_tag st video_id (fst tag)
              else Catalog.remove_video_tag st video_id (fst tag)).
  assert (Est : st' = st1).
  { subst st' r st1. unfold MainWindowUi.toggle_video_tag.
    destruct (List.find (MainWindowUi.shows_video video_id) model) as [item|];
      [|reflexivity].
    destruct (String.eqb (VideoGrid.file_path item) ""); reflexivity. }
  assert (Hlink : In (video_id, fst tag) (Database.video_tags (Catalog.tables st1))
                  <-> is_checked = true).
  { subst st1. destruct is_checked.
    - rewrite add_video_tag_In. intuition.
    - rewrite remove_video_tag_In. intuition congruence. }
  assert (Htags : Database.tags (Catalog.tables st1) = Database.tags (Catalog.tables st)).
  { subst st1. destruct is_checked; [apply add_video_tag_keeps | reflexivity]. }
  rewrite Est. split_and!.
  - exact Hlink.
  - intros v t Hne. subst st1. destruct is_checked.
    + rewrite add_video_tag_In. intuition.
    + rewrite remove_video_tag_In. intuition.
  - exact Htags.
  - subst st1. destruct is_checked; [apply add_video_tag_keeps | reflexivity].
  - subst st1. destruct is_checked; [apply add_video_tag_keeps | reflexivity].
  - assert (Hagain : (if is_checked then Catalog.add_video_tag st1 video_id (fst tag)
                      else Catalog.remove_video_tag st1 video_id (fst tag)) = st1).
    { destruct is_checked eqn:Ec.
      - unfold Catalog.add_video_tag at 1.
        replace (existsb (Catalog.links video_id (fst tag))
                         (Database.video_tags (Catalog.tables st1))) with true; [reflexivity|].
        symmetry. apply existsb_links, Hlink. reflexivity.
      - subst st1. unfold Catalog.remove_video_tag, Catalog.with_tables. cbn.
        f_equal. f_equal.
        set (f := fun vt => negb (Catalog.links video_id (fst tag) vt)).
        induction (Database.video_tags (Catalog.tables st)) as [|x l IH];
          cbn; [reflexivity|].
        destruct (f x) eqn:Ef; cbn; [rewrite Ef, IH; reflexivity | exact IH]. }
    unfold MainWindowUi.toggle_video_tag at 1. rewrite Hagain.
    destruct (List.find (MainWindowUi.shows_video video_id) (snd r)) as [item|];
      [|reflexivity].
    destruct (String.eqb (VideoGrid.file_path item) ""); reflexivity.
  - intros Hin. rewrite get_video_tags_In, Htags. tauto.
  - intros item Hfind Hpath. subst r. unfold MainWindowUi.toggle_video_tag.
    fold st1. rewrite Hfind.
    replace (String.eqb (VideoGrid.file_path item) "") with false
      by (symmetry; apply String.eqb_neq; exact Hpath).
    cbn [snd]. unfold VideoGrid.update_video_tags.
    rewrite find_update_first by reflexivity.
    apply find_some in Hfind as [Hin _].
    destruct (List.find (VideoGrid.has_path (VideoGrid.file_path item)) model)
      as [first|] eqn:Ef.
    + eexists. split; reflexivity.
    + exfalso. apply (find_none _ _ Ef) in Hin. unfold VideoGrid.has_path in Hin.
      rewrite String.eqb_refl in Hin. discriminate.
Qed.

(** ** The constraints of the schema *)

Lemma NoDup_map_filter {A B : Type} (f : A -> B) (g : A -> bool) (l : list A) :
  List.NoDup (map f l) -> List.NoDup (map f (List.filter g l)).
Proof.
  induction l as [|x l IH]; cbn; [auto|].
  intros Hnd. apply List.NoDup_cons_iff in Hnd as [Hx Hnd].
  destruct (g x); cbn; [|auto]. constructor; [|auto].
  intros Hin. apply Hx. apply in_map_iff in Hin as (y & Hy & Hin).
  apply filter_In in Hin as [Hin _]. rewrite <- Hy. apply in_map, Hin.
Qed.

Lemma largest_rowid_nonneg (rows : list Database.Video) :
  0 <= Database.largest_rowid rows.
Proof.
  unfold Database.largest_rowid. induction rows as [|v rows IH]; cbn [map fold_right]; lia.
Qed.

Lemma add_video_keeps_constraints (st : Catalog.Store)
      (file_path file_name folder_path : string) (size_ : Z) (duration_ : Q)
      (date_added date_modified : timestr) :
  constraints st ->
  constraints
    (Catalog.with_tables st
       (snd (Database.add_video (Catalog.tables st) file_path file_name folder_path
                                size_ duration_ date_added date_modified))).
Proof.
  intros (Hp & Hi & Hb & Hrest). unfold constraints, Database.add_video.
  cbn [snd Catalog.with_tables Catalog.tables Catalog.tags_seq Database.videos
       Database.videos_seq Database.tags Database.video_tags].
  set (d := Catalog.tables st) in *.
  set (kept := List.filter (fun v => negb (Database.has_path file_path v))
                           (Database.videos d)).
  set (video_id := Z.max (Database.videos_seq d)
                         (Database.largest_rowid (Database.videos d)) + 1).
  assert (Hkept : forall v, In v kept -> In v (Database.videos d) /\
                                         Database.file_path v <> file_path).
  { intros v Hv. apply filter_In in Hv as [Hv Hn]. split; [exact Hv|].
    apply negb_true_iff in Hn. unfold Database.has_path in Hn.
    apply String.eqb_neq in Hn. exact Hn. }
  split_and!; try apply Hrest.
  - rewrite map_app. apply NoDup_snoc; [apply NoDup_map_filter, Hp|]. cbn.
    intros Hin. apply in_map_iff in Hin as (v & Hv & Hin).
    apply Hkept in Hin as [_ Hne]. congruence.
  - rewrite map_app. apply NoDup_snoc; [apply NoDup_map_filter, Hi|]. cbn.
    intros Hin. apply in_map_iff in Hin as (v & Hv & Hin).
    apply Hkept in Hin as [Hin _]. apply Hb in Hin. subst video_id. lia.
  - intros v Hv. apply in_app_or in Hv as [Hv | [<- | []]].
    + apply Hkept in Hv as [Hv _]. apply Hb in Hv. subst video_id. lia.
    + cbn. pose proof (Z.le_max_l (Database.videos_seq d)
                                  (Database.largest_rowid (Database.videos d))).
      pose proof (largest_rowid_nonneg (Database.videos d)).
      subst video_id. lia.
Qed.

Lemma update_watched_status_keeps_constraints (st : Catalog.Store) (video_id : Z)
      (watched_ : bool) (last_position_ : Z) (last_watched_ : option string) :
  constraints st ->
  constraints
    (Catalog.with_tables st
       (Database.update_watched_status (Catalog.tables st) video_id watched_
                                       last_position_ last_watched_)).
Proof.
  intros (Hp & Hi & Hb & Hrest). unfold constraints, Database.update_watched_status.
  cbn [Catalog.with_tables Catalog.tables Catalog.tags_seq Database.videos
       Database.videos_seq Database.tags Database.video_tags].
  rewrite !map_map.
  split_and!; try apply Hrest.
  - erewrite map_ext; [exact Hp|]. intros v. destruct (Database.id v =? video_id); reflexivity.
  - erewrite map_ext; [exact Hi|]. intros v. destruct (Database.id v =? video_id); reflexivity.
  - intros v Hv. apply in_map_iff in Hv as (v0 & <- & Hv0). apply Hb in Hv0.
    destruct (Database.id v0 =? video_id); exact Hv0.
Qed.

Lemma largest_tag_id_nonneg (rows : list (Z * string)) :
  0 <= Catalog.largest_tag_id rows.
Proof.
  unfold Catalog.largest_tag_id. induction rows as [|v rows IH]; cbn [map fold_right]; lia.
Qed.

Lemma add_tag_keeps_constraints (st : Catalog.Store) (name : string) :
  constraints st -> constraints (snd (Catalog.add_tag st name)).
Proof.
  intros C.
  destruct (add_tag_spec st name)
    as (t & st' & Hr & _ & Hcase & Hv & Hs & Hvt & _).
  rewrite Hr. cbn [snd].
  destruct Hcase as [-> | (Hnone & Htags & Hseq & Hlt & Hids)]; [exact C|].
  destruct C as (Hp & Hi & Hb & Hti & Htn & Htb & Hl). unfold constraints.
  rewrite Hv, Hs, Hvt, Htags, !map_app. cbn [map fst snd].
  split_and!; try assumption.
  - apply NoDup_snoc; [exact Hti|].
    intros Hin. apply in_map_iff in Hin as (x & Hx & Hin). apply Hids in Hin. lia.
  - apply NoDup_snoc; [exact Htn|].
    intros Hin. apply in_map_iff in Hin as ([t0 n0] & Hx & Hin). cbn in Hx. subst n0.
    apply (find_none _ _ Hnone) in Hin. rewrite tag_named_refl in Hin. discriminate.
  - intros x Hx. apply in_app_or in Hx as [Hx | [<- | []]].
    + apply Htb in Hx. lia.
    + cbn. split; [|lia]. rewrite (add_tag_new _ _ Hnone) in Hr.
      injection Hr as Ht _.
      pose proof (largest_tag_id_nonneg (Database.tags (Catalog.tables st))). lia.
Qed.

Lemma run_op_keeps_constraints (st : Catalog.Store) (op : CatalogOp) :
  constraints st -> constraints (run_op st op).
Proof.
  destruct op as [p n f sz du da dm | v wt pos lw | name | v t | v t | v content];
    cbn [run_op].
  - apply add_video_keeps_constraints.
  - apply update_watched_status_keeps_constraints.
  - apply add_tag_keeps_constraints.
  - intros C. unfold Catalog.add_video_tag.
    destruct (existsb (Catalog.links v t) (Database.video_tags (Catalog.tables st)))
      eqn:E; [exact C|].
    destruct C as (Hp & Hi & Hb & Hti & Htn & Htb & Hl). unfold constraints. cbn.
    split_and!; try assumption.
    apply NoDup_snoc; [exact Hl|]. intros Hin. apply existsb_links in Hin. congruence.
  - intros (Hp & Hi & Hb & Hti & Htn & Htb & Hl). unfold constraints. cbn.
    split_and!; try assumption. apply List.NoDup_filter, Hl.
  - intros C. exact C.
Qed.

(** X16. Every catalog the program can reach from a new database, by any
    sequence of [add_video], [update_watched_status], [add_tag],
    [add_video_tag], [remove_video_tag] and [save_note], satisfies what
    the schema declares: no two videos have the same path or the same id,
    no two tags have the same name or the same id, no link is there
    twice; and every id is positive and not above the counter of its
    table, so an id is never given out twice. *)
Theorem catalog_keeps_its_constraints (ops : list CatalogOp) : constraints (run_ops ops).
Proof.
  unfold run_ops.
  assert (H0 : constraints Catalog.empty).
  { unfold constraints. cbn. split_and!; try apply List.NoDup_nil; intros ? []. }
  revert H0. generalize Catalog.empty.
  induction ops as [|op ops IH]; intros st Hst; cbn [fold_left]; [exact Hst|].
  apply IH, run_op_keeps_constraints, Hst.
Qed.

(** ** Recent folders *)

Lemma filter_is_not_absent (x : string) (l : list string) :
  ~ In x l -> List.filter (is_not x) l = l.
Proof.
  induction l as [|y l IH]; cbn; [reflexivity|]. intros H.
  unfold is_not at 1. destruct (String.eqb y x) eqn:E.
  - apply String.eqb_eq in E. tauto.
  - cbn. rewrite IH by tauto. reflexivity.
Qed.

Lemma list_remove_NoDup (x : string) (l : list string) :
  List.NoDup l -> Settings.list_remove x l = List.filter (is_not x) l.
Proof.
  induction l as [|y l IH]; cbn; [reflexivity|]. intros Hnd.
  apply List.NoDup_cons_iff in Hnd as [Hy Hnd].
  unfold is_not at 1. destruct (String.eqb y x) eqn:E; cbn.
  - apply String.eqb_eq in E. subst y. symmetry. apply filter_is_not_absent, Hy.
  - rewrite IH by exact Hnd. reflexivity.
Qed.

Lemma NoDup_firstn {A : Type} (n : nat) (l : list A) :
  List.NoDup l -> List.NoDup (firstn n l).
Proof.
  revert n. induction l as [|x l IH]; intros [|n] Hnd; cbn; try constructor.
  - apply List.NoDup_cons_iff in Hnd as [Hx Hnd].
    intros Hin. apply Hx. rewrite <- (firstn_skipn n l). apply in_or_app. left. exact Hin.
  - apply List.NoDup_cons_iff in Hnd as [_ Hnd]. apply IH, Hnd.
Qed.

Lemma In_firstn {A : Type} (n : nat) (l : list A) (x : A) : In x (firstn n l) -> In x l.
Proof.
  intros H. rewrite <- (firstn_skipn n l). apply in_or_app. left. exact H.
Qed.

(** One call on a list without repetitions. *)
Lemma add_recent_folder_NoDup (recent : list string) (folder_path : string) :
  List.NoDup recent ->
  Settings.add_recent_folder recent folder_path
  = firstn 10 (folder_path :: List.filter (is_not folder_path) recent).
Proof.
  intros Hnd. unfold Settings.add_recent_folder.
  assert (E : (if VideoUtils.py_in folder_path recent
               then Settings.list_remove folder_path recent else recent)
              = List.filter (is_not folder_path) recent).
  { destruct (VideoUtils.py_in folder_path recent) eqn:Ein.
    - apply list_remove_NoDup, Hnd.
    - symmetry. apply filter_is_not_absent. intros Hin.
      apply py_in_spec in Hin. congruence. }
  rewrite E.
  destruct (10 <? length (folder_path :: List.filter (is_not folder_path) recent))%nat
    eqn:El; [reflexivity|].
  apply Nat.ltb_ge in El. symmetry. apply firstn_all2. exact El.
Qed.

Lemma add_recent_folder_keeps (recent : list string) (folder_path : string) :
  List.NoDup recent ->
  let recent' := Settings.add_recent_folder recent folder_path in
  List.NoDup recent' /\ (length recent' <= 10)%nat /\
  (length recent' <= S (length recent))%nat /\
  hd_error recent' = Some folder_path /\
  (forall f, In f recent' -> f = folder_path \/ In f recent) /\
  ((length recent < 10)%nat -> forall f, In f recent -> In f recent').
Proof.
  intros Hnd. cbn zeta. rewrite (add_recent_folder_NoDup _ _ Hnd).
  set (others := List.filter (is_not folder_path) recent).
  assert (Hlen : (length others <= length recent)%nat) by apply List.filter_length_le.
  assert (Hnd' : List.NoDup (folder_path :: others)).
  { constructor; [|apply List.NoDup_filter, Hnd].
    intros Hin. apply filter_In in Hin as [_ Hin]. unfold is_not in Hin.
    rewrite String.eqb_refl in Hin. discriminate. }
  split_and!.
  - apply NoDup_firstn, Hnd'.
  - apply firstn_le_length.
  - rewrite length_firstn. cbn [length]. lia.
  - reflexivity.
  - intros f Hf. apply In_firstn in Hf as [<- | Hf]; [left; reflexivity|].
    right. apply filter_In in Hf as [Hf _]. exact Hf.
  - intros Hlt f Hf. rewrite firstn_all2 by (cbn; lia).
    destruct (String.eqb f folder_path) eqn:E.
    + apply String.eqb_eq in E. left. congruence.
    + right. apply filter_In. split; [exact Hf|]. unfold is_not. rewrite E. reflexivity.
Qed.

Lemma open_folders_snoc (pre : list string) (f : string) :
  open_folders (pre ++ [f]) = Settings.add_recent_folder (open_folders pre) f.
Proof. unfold open_folders. rewrite fold_left_app. reflexivity. Qed.

Lemma open_folders_keeps (folders : list string) :
  List.NoDup (open_folders folders) /\
  (length (open_folders folders) <= 10)%nat /\
  (length (open_folders folders) <= length folders)%nat /\
  (forall f, In f (open_folders folders) -> In f folders) /\
  ((length folders <= 10)%nat -> forall f, In f folders -> In f (open_folders folders)).
Proof.
  induction folders as [|f pre IH] using rev_ind.
  - cbn. split_and!; [constructor | lia | lia | tauto | tauto].
  - destruct IH as (Hnd & Hlen & Hle & Hsub & Hall).
    rewrite open_folders_snoc.
    destruct (add_recent_folder_keeps (open_folders pre) f Hnd)
      as (H1 & H2 & H3 & _ & H5 & H6).
    rewrite length_app. cbn [length].
    split_and!; try assumption.
    + lia.
    + intros g Hg. apply in_or_app. destruct (H5 g Hg) as [-> | Hin];
        [right; left; reflexivity | left; apply Hsub, Hin].
    + intros Hl g Hg. apply in_app_or in Hg as [Hg | [<- | []]].
      * apply H6; [lia|]. apply Hall; [lia | exact Hg].
      * destruct (add_recent_folder_keeps (open_folders pre) f Hnd)
          as (_ & _ & _ & Hhd & _).
        destruct (Settings.add_recent_folder (open_folders pre) f); [discriminate|].
        injection Hhd as ->. left. reflexivity.
Qed.

(** X17. The recent folders, from settings that had none.  However many
    folders are opened, and however often the same one, the list never
    names a folder twice and never has more than ten entries; it names
    only folders that were opened; the folder opened last is its first
    entry; and as long as no more than ten folders were opened, all of
    them are on it.  Opening a folder puts it first, takes out its
    earlier entry, keeps the others in their order and drops what comes
    after the tenth entry. *)
Theorem recent_folders_are_the_latest (folders : list string) :
  let recent := open_folders folders in
  List.NoDup recent /\
  (length recent <= 10)%nat /\
  (forall f, In f recent -> In f folders) /\
  (forall pre f, folders = pre ++ [f] -> hd_error recent = Some f) /\
  ((length folders <= 10)%nat -> forall f, In f folders -> In f recent) /\
  (forall f, Settings.add_recent_folder recent f
             = firstn 10 (f :: List.filter (is_not f) recent)).
Proof.
  intros recent. subst recent.
  destruct (open_folders_keeps folders) as (Hnd & Hlen & _ & Hsub & Hall).
  split_and!; try assumption.
  - intros pre f ->. rewrite open_folders_snoc.
    destruct (open_folders_keeps pre) as (Hnd' & _).
    apply (add_recent_folder_keeps _ f Hnd').
  - intros f. apply add_recent_folder_NoDup, Hnd.
Qed.

(** ** The navigation history *)

Lemma py_getitem_in_range {A : Type} (l : list A) (i : Z) :
  0 <= i < Z.of_nat (length l) ->
  exists x, FolderBrowser.py_getitem l i = Ok x /\ nth_error l (Z.to_nat i) = Some x.
Proof.
  intros Hi. unfold FolderBrowser.py_getitem.
  replace (i <? 0) with false by (symmetry; apply Z.ltb_ge; lia).
  replace ((0 <=? i) && (i <? Z.of_nat (length l))) with true
    by (symmetry; apply andb_true_iff; split; [apply Z.leb_le | apply Z.ltb_lt]; lia).
  destruct (nth_error l (Z.to_nat i)) as [x|] eqn:E; [eauto|].
  apply nth_error_None in E. lia.
Qed.

Lemma no_repeat_tail (x : string) (l : list string) : no_repeat (x :: l) -> no_repeat l.
Proof. destruct l as [|y l]; cbn; tauto. Qed.

Lemma no_repeat_firstn (l : list string) :
  forall n : nat, no_repeat l -> no_repeat (firstn n l).
Proof.
  induction l as [|x l IH]; intros [|n] H; cbn [firstn]; try exact I.
  specialize (IH n (no_repeat_tail _ _ H)).
  destruct l as [|y l]; [destruct n; exact I|].
  destruct n as [|n]; [exact I|]. cbn [firstn] in *. cbn in H. cbn. tauto.
Qed.

Lemma no_repeat_skipn (l : list string) :
  forall n : nat, no_repeat l -> no_repeat (skipn n l).
Proof.
  induction l as [|x l IH]; intros [|n] H; cbn [skipn]; try exact H.
  apply IH, (no_repeat_tail _ _ H).
Qed.

Lemma no_repeat_snoc (l : list string) (p : string) :
  no_repeat l ->
  (forall x, nth_error l (length l - 1) = Some x -> x <> p) ->
  no_repeat (l ++ [p]).
Proof.
  induction l as [|x l IH]; intros H Hlast; [exact I|].
  destruct l as [|y l].
  - cbn. split; [|exact I]. apply (Hlast x). reflexivity.
  - cbn [app] in *. cbn in H. destruct H as [Hxy H]. split; [exact Hxy|].
    apply IH; [exact H|]. intros z Hz. apply Hlast.
    cbn [length] in *. replace (S (S (length l)) - 1)%nat with (S (S (length l) - 1)) by lia.
    exact Hz.
Qed.

(** [add_to_history] on a sound history. *)
Lemma add_to_history_ok (s : FolderBrowser.State) (path : string) :
  history_ok s ->
  exists s',
    FolderBrowser.add_to_history s path = Ok s' /\
    history_ok s' /\
    FolderBrowser.py_getitem (FolderBrowser.history s')
                             (FolderBrowser.current_history_index s') = Ok path /\
    FolderBrowser.current_path s' = FolderBrowser.current_path s.
Proof.
  destruct s as [cur hist idx]. unfold history_ok.
  cbn [FolderBrowser.history FolderBrowser.current_history_index
       FolderBrowser.current_path].
  intros [[[Hn Hi] | [Hi Hn]] Hrep]; unfold FolderBrowser.add_to_history;
    cbn [FolderBrowser.history FolderBrowser.current_history_index
         FolderBrowser.current_path].
  - destruct hist as [|x hist]; [|cbn in Hn; lia]. subst idx.
    exists {| FolderBrowser.current_path := cur; FolderBrowser.history := [path];
              FolderBrowser.current_history_index := 0 |}.
    split; [reflexivity|]. cbn. split_and!; try reflexivity; try exact I.
    right. lia.
  - destruct (py_getitem_in_range hist idx Hi) as (entry & Hget & Hnth).
    destruct hist as [|x0 hist0] eqn:Eh; [cbn in Hi; lia|]. rewrite <- Eh in *.
    rewrite Hget. cbn [mbind outcome_mbind outcome_bind].
    destruct (String.eqb entry path) eqn:Eeq.
    { apply String.eqb_eq in Eeq. subst entry.
      exists {| FolderBrowser.current_path := cur; FolderBrowser.history := hist;
                FolderBrowser.current_history_index := idx |}.
      cbn. split; [reflexivity|]. split; [|split; [exact Hget | reflexivity]].
      split; [right; lia | exact Hrep]. }
    apply String.eqb_neq in Eeq.
    set (kept := firstn (Z.to_nat (idx + 1)) hist).
    assert (Hkept : (if idx <? Z.of_nat (length hist) - 1
                     then FolderBrowser.py_slice_to hist (idx + 1) else hist) = kept).
    { subst kept. destruct (idx <? Z.of_nat (length hist) - 1) eqn:El.
      - unfold FolderBrowser.py_slice_to.
        replace (idx + 1 <? 0) with false by (symmetry; apply Z.ltb_ge; lia).
        apply Z.ltb_lt in El. rewrite Z.min_l by lia. reflexivity.
      - apply Z.ltb_ge in El. symmetry. apply firstn_all2. lia. }
    rewrite Hkept.
    assert (Hlen : length kept = Z.to_nat (idx + 1)).
    { subst kept. rewrite length_firstn. lia. }
    assert (Hrep' : no_repeat (kept ++ [path])).
    { apply no_repeat_snoc; [apply no_repeat_firstn, Hrep|].
      intros x Hx. rewrite Hlen in Hx. subst kept.
      rewrite nth_error_firstn in Hx.
      replace (Z.to_nat (idx + 1) - 1)%nat with (Z.to_nat idx) in Hx by lia.
      replace (Z.to_nat idx <? Z.to_nat (idx + 1))%nat with true in Hx
        by (symmetry; apply Nat.ltb_lt; lia).
      congruence. }
    assert (Hlen2 : length (kept ++ [path]) = S (Z.to_nat (idx + 1)))
      by (rewrite length_app, Hlen; cbn; lia).
    assert (Hlast : forall l : list string,
               nth_error (l ++ [path]) (length l) = Some path).
    { intros l. rewrite nth_error_app2 by lia. rewrite Nat.sub_diag. reflexivity. }
    destruct (20 <? length (kept ++ [path]))%nat eqn:E20.
    + apply Nat.ltb_lt in E20.
      eexists. split; [reflexivity|].
      cbn [FolderBrowser.history FolderBrowser.current_history_index
           FolderBrowser.current_path].
      unfold FolderBrowser.py_last_20.
      assert (Hl20 : length (skipn (length (kept ++ [path]) - 20) (kept ++ [path]))
                     = 20%nat) by (rewrite length_skipn; lia).
      rewrite Hl20. split_and!.
      * right. lia.
      * apply no_repeat_skipn, Hrep'.
      * destruct (py_getitem_in_range
                    (skipn (length (kept ++ [path]) - 20) (kept ++ [path]))
                    (Z.of_nat 20 - 1) ltac:(rewrite Hl20; lia))
          as (x & Hx & Hn').
        rewrite Hx. f_equal.
        replace (Z.to_nat (Z.of_nat 20 - 1)) with 19%nat in Hn' by lia.
        rewrite nth_error_skipn in Hn'.
        replace (length (kept ++ [path]) - 20 + 19)%nat with (length kept) in Hn'
          by (rewrite length_app; cbn [length]; lia).
        rewrite Hlast in Hn'. congruence.
      * reflexivity.
    + apply Nat.ltb_ge in E20.
      eexists. split; [reflexivity|].
      cbn [FolderBrowser.history FolderBrowser.current_history_index
           FolderBrowser.current_path].
      split_and!.
      * right. lia.
      * exact Hrep'.
      * destruct (py_getitem_in_range (kept ++ [path])
                    (Z.of_nat (length (kept ++ [path])) - 1) ltac:(lia))
          as (x & Hx & Hn').
        rewrite Hx. f_equal.
        replace (Z.to_nat (Z.of_nat (length (kept ++ [path])) - 1)) with (length kept)
          in Hn' by (rewrite length_app; cbn; lia).
        rewrite Hlast in Hn'. congruence.
      * reflexivity.
Qed.

Lemma set_root_path_ok (isdir : bool) (s : FolderBrowser.State) (path : string) :
  history_ok s ->
  exists r,
    FolderBrowser.set_root_path isdir s path = Ok r /\
    history_ok (snd r) /\
    (fst r = true <-> path <> "" /\ isdir = true) /\
    (fst r = false -> snd r = s) /\
    (fst r = true ->
     FolderBrowser.current_path (snd r) = path /\
     FolderBrowser.py_getitem (FolderBrowser.history (snd r))
                              (FolderBrowser.current_history_index (snd r)) = Ok path).
Proof.
  intros Hok. unfold FolderBrowser.set_root_path.
  destruct (String.eqb path "") eqn:Ep; cbn [orb].
  - apply String.eqb_eq in Ep. exists (false, s). cbn [fst snd].
    split; [reflexivity|]. split; [exact Hok|]. split; [|split].
    + split; [discriminate | intros [H _]; congruence].
    + reflexivity.
    + discriminate.
  - apply String.eqb_neq in Ep. destruct isdir; cbn [negb].
    + destruct (add_to_history_ok
                  {| FolderBrowser.current_path := path;
                     FolderBrowser.history := FolderBrowser.history s;
                     FolderBrowser.current_history_index :=
                       FolderBrowser.current_history_index s |} path Hok)
        as (s' & Hadd & Hok' & Hget & Hcur).
      rewrite Hadd. exists (true, s'). cbn [fst snd mbind outcome_mbind outcome_bind].
      split; [reflexivity|]. split; [exact Hok'|]. split; [|split].
      * split; [intros _; split; [exact Ep | reflexivity] | reflexivity].
      * discriminate.
      * intros _. split; [exact Hcur | exact Hget].
    + exists (false, s). cbn [fst snd].
      split; [reflexivity|]. split; [exact Hok|]. split; [|split].
      * split; [discriminate | intros [_ H]; discriminate].
      * reflexivity.
      * discriminate.
Qed.

Lemma go_back_ok (isdir : bool) (s : FolderBrowser.State) :
  history_ok s ->
  exists s',
    FolderBrowser.go_back isdir s = Ok s' /\
    history_ok s' /\
    FolderBrowser.history s' = FolderBrowser.history s /\
    FolderBrowser.current_history_index s'
    = (if 0 <? FolderBrowser.current_history_index s
       then FolderBrowser.current_history_index s - 1
       else FolderBrowser.current_history_index s).
Proof.
  intros Hok. unfold FolderBrowser.go_back.
  destruct (0 <? FolderBrowser.current_history_index s) eqn:E.
  - apply Z.ltb_lt in E. destruct Hok as [[[Hn Hi] | [Hi Hn]] Hrep]; [lia|].
    destruct (py_getitem_in_range (FolderBrowser.history s)
                (FolderBrowser.current_history_index s - 1) ltac:(lia))
      as (path & Hget & _).
    rewrite Hget. cbn [mbind outcome_mbind outcome_bind].
    assert (Hok1 : history_ok
                     {| FolderBrowser.current_path := FolderBrowser.current_path s;
                        FolderBrowser.history := FolderBrowser.history s;
                        FolderBrowser.current_history_index :=
                          FolderBrowser.current_history_index s - 1 |}).
    { split; [right; cbn; lia | exact Hrep]. }
    destruct (set_root_path_ok isdir _ path Hok1) as (r & Hr & _).
    rewrite Hr. cbn [mbind outcome_mbind outcome_bind].
    eexists. split; [reflexivity|].
    split; [split; [right; cbn; lia | exact Hrep]|].
    split; reflexivity.
  - exists s. split; [reflexivity|]. split; [exact Hok|]. split; reflexivity.
Qed.

Lemma navigate_all_ok (navs : list Nav) :
  forall s, history_ok s -> exists s', navigate_all s navs = Ok s' /\ history_ok s'.
Proof.
  induction navs as [|n navs IH]; intros s Hok; cbn [navigate_all]; [eauto|].
  assert (Hstep : exists s1, navigate s n = Ok s1 /\ history_ok s1).
  { destruct n as [isdir path | isdir]; cbn [navigate].
    - destruct (set_root_path_ok isdir s path Hok) as (r & Hr & Hok' & _).
      rewrite Hr. cbn. eauto.
    - destruct (go_back_ok isdir s Hok) as (s1 & Hr & Hok' & _). eauto. }
  destruct Hstep as (s1 & Hs1 & Hok1). rewrite Hs1.
  cbn [mbind outcome_mbind outcome_bind]. apply IH, Hok1.
Qed.

(** X20. The navigation history of the folder browser.  Whatever folders
    are opened and however often the back button is pressed, no step
    raises (the index is never out of range), the history has at most
    twenty entries, no entry is followed by an equal one, and the index
    points at an entry, or is -1 while the history is empty.  In such a
    state, opening a folder that exists makes it the current path and the
    entry the index points at; and going back leaves the list as it is and
    moves the index one entry back, or leaves it at the first entry. *)
Theorem navigation_history_is_sound (home : string) (navs : list Nav) :
  exists s,
    navigate_all (FolderBrowser.initial home) navs = Ok s /\
    history_ok s /\
    (forall path, path <> "" ->
       exists s',
         FolderBrowser.set_root_path true s path = Ok (true, s') /\
         FolderBrowser.current_path s' = path /\
         FolderBrowser.py_getitem (FolderBrowser.history s')
                                  (FolderBrowser.current_history_index s') = Ok path /\
         history_ok s') /\
    (forall isdir,
       exists s',
         FolderBrowser.go_back isdir s = Ok s' /\
         FolderBrowser.history s' = FolderBrowser.history s /\
         FolderBrowser.current_history_index s'
         = (if 0 <? FolderBrowser.current_history_index s
            then FolderBrowser.current_history_index s - 1
            else FolderBrowser.current_history_index s)).
Proof.
  destruct (navigate_all_ok navs (FolderBrowser.initial home)) as (s & Hrun & Hok).
  { split; [left; split; reflexivity | exact I]. }
  exists s. split; [exact Hrun|]. split; [exact Hok|]. split.
  - intros path Hpath.
    destruct (set_root_path_ok true s path Hok) as ([b s'] & Hr & Hok' & Hb & _ & Htrue).
    cbn [fst snd] in *.
    assert (b = true) by (apply Hb; split; [exact Hpath | reflexivity]). subst b.
    exists s'. destruct (Htrue eq_refl) as [Hcur Hget]. split_and!; assumption.
  - intros isdir. destruct (go_back_ok isdir s Hok) as (s' & Hr & _ & Hh & Hi).
    exists s'. split_and!; assumption.
Qed.
